(** * The compositing core of the video background remover

    A shallow embedding of the geometry model ([App.tsx],
    [components/VideoControls.tsx]), the chroma-key render loop and the drag
    controller ([components/PreviewCanvas.tsx]), the hex colour helpers and
    the recording start/stop handlers ([App.tsx]), with the properties the
    specification states about them; then the pointer handlers of the
    canvas and the uploads with their object URLs, and further properties
    of all of these that the code itself shows.

    Numbers.  A JavaScript [number] is modelled as the rational it denotes
    ([Q]).  The arithmetic is given twice.  [Geometry], [VideoControls] and
    [Drag] compute with the exact operations of [Q]; [Geometry64] and
    [Pointer] round the result of every operation to binary64
    ([Binary64.fl]: to nearest, ties to even), as the code does.  What holds
    whatever the rounding (bounds, order, composition, what is left
    untouched) is stated on the exact operations; what depends on how a
    product or a quotient is rounded is stated on the binary64 ones, which
    are compared with the binary64 floats of the kernel on a table of
    inputs.  Pixel bytes, colour channels and the tolerance slider are
    integers ([Z]); the test [Math.sqrt(..) < tolerance] of the chroma key
    is modelled with the kernel's binary64 floats.  The scenarios that show
    a divergence on the exact operations use numbers that binary64
    represents exactly. *)

From Stdlib Require Import Reals Lra.
From Stdlib Require Import ZArith QArith Qround Qabs Qpower Lia Lqa Bool.
From Stdlib Require Import String Ascii.
From Stdlib Require Floats Uint63.
From stdpp Require Import base list.

Local Open Scope Z_scope.

(** ** JavaScript numbers and the [Math] functions the code calls *)

Module JS.
Local Open Scope Q_scope.

(** [Math.round(q)]: the integer nearest to [q], a tie going up. *)
Definition Math_round (q : Q) : Q := inject_Z (Qfloor (q + (1 # 2))).

Definition Math_max (a b : Q) : Q := if Qle_bool a b then b else a.
Definition Math_min (a b : Q) : Q := if Qle_bool a b then a else b.

(** The number the string [q.toFixed(1)] denotes (and [parseFloat] reads
    back from it): for [q >= 0], [n / 10] for the integer [n] nearest to
    [10 q], the larger one on a tie; a negative [q] gives the opposite of
    what [- q] gives. *)
Definition tenths (q : Q) : Q := inject_Z (Qfloor (q * 10 + (1 # 2))) / 10.

Definition toFixed1 (q : Q) : Q :=
  if Qle_bool 0 q then tenths q else - tenths (- q).

(** Truthiness of a number: [0] is falsy. *)
Definition truthy (q : Q) : bool := negb (Qeq_bool q 0).

(** A number that is an integer. *)
Definition is_integer (q : Q) : Prop := exists z : Z, q == inject_Z z.

End JS.

(** ** Binary64: the arithmetic of a JavaScript [number]

    A finite number of binary64 is the rational it denotes.  An operation
    of the code is the exact operation followed by [fl], the rounding to the
    nearest number of binary64 (53 bits of precision, subnormal numbers
    with the spacing [2 ^ -1074], ties to even).  Overflow is not modelled:
    the numbers here are pixel counts, ratios of pixel counts and
    percentages. *)

Module Binary64.
Local Open Scope Q_scope.

(** For [q > 0], the integer [e] with [2 ^ e <= q < 2 ^ (e + 1)]. *)
Definition ilog2 (q : Q) : Z :=
  let k := (Z.log2 (Qnum q) - Z.log2 (Zpos (Qden q)))%Z in
  if Qle_bool (2 ^ k) q then k else (k - 1)%Z.

(** The integer nearest to [q], the even one on a tie. *)
Definition rne (q : Q) : Z :=
  let f := Qfloor q in
  match Qcompare (q - inject_Z f) (1 # 2) with
  | Lt => f
  | Gt => (f + 1)%Z
  | Eq => if Z.even f then f else (f + 1)%Z
  end.

(** The exponent of the unit in the last place at [q > 0]: 53 bits of
    precision, and the spacing [2 ^ -1074] of the subnormal numbers. *)
Definition ulp_exponent (q : Q) : Z := Z.max (ilog2 q - 52) (-1074).

(** The binary64 number nearest to [q > 0], ties to even. *)
Definition fl_pos (q : Q) : Q :=
  let e := ulp_exponent q in Qred (inject_Z (rne (q / 2 ^ e)) * 2 ^ e).

(** The binary64 number nearest to [q], ties to even. *)
Definition fl (q : Q) : Q :=
  match Qcompare q 0 with
  | Eq => 0
  | Gt => fl_pos q
  | Lt => - fl_pos (- q)
  end.

Definition fadd (a b : Q) : Q := fl (a + b).
Definition fsub (a b : Q) : Q := fl (a - b).
Definition fmul (a b : Q) : Q := fl (a * b).
Definition fdiv (a b : Q) : Q := fl (a / b).

(** A number of binary64. *)
Definition representable (x : Q) : Prop :=
  exists m e : Z, (Z.abs m < 2 ^ 53)%Z /\ (-1074 <= e)%Z /\ x == inject_Z m * 2 ^ e.

End Binary64.

(** ** The types of [types.ts] and the media elements *)

Module Types.

Record RGBColor : Type := mkRGB { r : Z; g : Z; b : Z }.

Record ChromaKeySettings : Type := mkSettings {
  color : RGBColor;
  hexColor : string;
  tolerance : Z
}.

(** [Partial<ChromaKeySettings>]: each property present or absent. *)
Record PartialSettings : Type := mkPartialSettings {
  ps_color : option RGBColor;
  ps_hexColor : option string;
  ps_tolerance : option Z
}.

(** A byte: a colour channel, or a tolerance of the slider. *)
Definition is_byte (z : Z) : Prop := 0 <= z <= 255.

(** Settings whose key colour and tolerance are bytes. *)
Definition settings_in_range (s : ChromaKeySettings) : Prop :=
  is_byte (r (color s)) /\ is_byte (g (color s)) /\ is_byte (b (color s))
  /\ is_byte (tolerance s).

(** The state [useState<ChromaKeySettings>] starts from. *)
Definition initialChromaKeySettings : ChromaKeySettings :=
  mkSettings (mkRGB 0 255 0) "#00FF00" 50.

(** The element a layer is read from, with its intrinsic size (and, for a
    video, whether it is paused). *)
Inductive MediaElement : Type :=
| HTMLImageElement (naturalWidth naturalHeight : Z)
| HTMLVideoElement (videoWidth videoHeight : Z) (paused : bool).

End Types.

(** ** Geometry: the transform of the top layer *)

Module Geometry.
Import JS Types.
Local Open Scope Q_scope.

Record LayerDimensions : Type := mkDims { ld_width : Q; ld_height : Q }.

(** [VideoTransform] of [types.ts]. *)
Record VideoTransform : Type := mkTransform {
  vt_x : Q;
  vt_y : Q;
  vt_width : Q;
  vt_height : Q;
  vt_size : Q
}.

(** [Partial<VideoTransform>]: each property present or absent. *)
Record PartialTransform : Type := mkPartial {
  pt_x : option Q;
  pt_y : option Q;
  pt_width : option Q;
  pt_height : option Q;
  pt_size : option Q
}.

Definition emptyPartial : PartialTransform := mkPartial None None None None None.

(** The state [useState<VideoTransform>] starts from. *)
Definition initialVideoTransform : VideoTransform := mkTransform 0 0 0 0 100.

(** [handleBottomLayerLoad]: the new value of [bottomLayerDimensions]. *)
Definition handleBottomLayerLoad (element : option MediaElement)
    (bottomLayerDimensions : option LayerDimensions) : option LayerDimensions :=
  match element with
  | None => bottomLayerDimensions
  | Some (HTMLImageElement w h) | Some (HTMLVideoElement w h _) =>
      if ((0 <? w) && (0 <? h))%Z
      then Some (mkDims (inject_Z w) (inject_Z h))
      else bottomLayerDimensions
  end.

(** [handleTopLayerLoad]: the new value of [topLayerAspectRatio]. *)
Definition handleTopLayerLoad (element : option MediaElement)
    (topLayerAspectRatio : option Q) : option Q :=
  match element with
  | None => topLayerAspectRatio
  | Some (HTMLImageElement w h) | Some (HTMLVideoElement w h _) =>
      if ((0 <? w) && (0 <? h))%Z
      then let aspectRatio := inject_Z w / inject_Z h in
           if truthy aspectRatio then Some aspectRatio else topLayerAspectRatio
      else topLayerAspectRatio
  end.

(** Both pieces of state the transform depends on are there (and the
    aspect ratio is not [0]): the test [topLayerAspectRatio &&
    bottomLayerDimensions] and its negation in [handleTransformChange]. *)
Definition ready (topLayerAspectRatio : option Q)
    (bottomLayerDimensions : option LayerDimensions) : option (Q * LayerDimensions) :=
  match topLayerAspectRatio, bottomLayerDimensions with
  | Some ar, Some dims => if truthy ar then Some (ar, dims) else None
  | _, _ => None
  end.

(** The transform a freshly loaded top layer gets (the body of the effect
    on [topLayerAspectRatio, bottomLayerDimensions]). *)
Definition deriveInitialTransform (dims : LayerDimensions) (ar : Q) : VideoTransform :=
  let widthAt100Percent := ld_width dims * (1 # 2) in
  let newWidth := widthAt100Percent in
  let newHeight := newWidth / ar in
  {| vt_size := 100;
     vt_width := Math_round newWidth;
     vt_height := Math_round newHeight;
     vt_x := Math_round ((ld_width dims - newWidth) / 2);
     vt_y := Math_round ((ld_height dims - newHeight) / 2) |}.

Definition resetTransformEffect (topLayerAspectRatio : option Q)
    (bottomLayerDimensions : option LayerDimensions)
    (videoTransform : VideoTransform) : VideoTransform :=
  match ready topLayerAspectRatio bottomLayerDimensions with
  | Some (ar, dims) => deriveInitialTransform dims ar
  | None => videoTransform
  end.

(** The object spread [{ ...prev, ...newPartialTransform }]. *)
Definition spread (prev : VideoTransform) (p : PartialTransform) : VideoTransform :=
  {| vt_x := default (vt_x prev) (pt_x p);
     vt_y := default (vt_y prev) (pt_y p);
     vt_width := default (vt_width prev) (pt_width p);
     vt_height := default (vt_height prev) (pt_height p);
     vt_size := default (vt_size prev) (pt_size p) |}.

(** [handleTransformChange]: the next [videoTransform]. *)
Definition handleTransformChange (topLayerAspectRatio : option Q)
    (bottomLayerDimensions : option LayerDimensions)
    (newPartialTransform : PartialTransform)
    (prev : VideoTransform) : VideoTransform :=
  match ready topLayerAspectRatio bottomLayerDimensions with
  | None => prev
  | Some (ar, dims) =>
      let updatedTransform := spread prev newPartialTransform in
      match pt_size newPartialTransform with
      | Some sz =>
          let baseWidth := ld_width dims * (1 # 2) in
          let newWidth := baseWidth * (sz / 100) in
          {| vt_x := vt_x updatedTransform;
             vt_y := vt_y updatedTransform;
             vt_width := Math_round newWidth;
             vt_height := Math_round (newWidth / ar);
             vt_size := vt_size updatedTransform |}
      | None => updatedTransform
      end
  end.

End Geometry.

(** ** The geometry as binary64 computes it ([App.tsx]) *)

Module Geometry64.
Import JS Types Geometry Binary64.
Local Open Scope Q_scope.

(** [handleTopLayerLoad]: the new value of [topLayerAspectRatio]. *)
Definition handleTopLayerLoad (element : option MediaElement)
    (topLayerAspectRatio : option Q) : option Q :=
  match element with
  | None => topLayerAspectRatio
  | Some (HTMLImageElement w h) | Some (HTMLVideoElement w h _) =>
      if ((0 <? w) && (0 <? h))%Z
      then let aspectRatio := fdiv (inject_Z w) (inject_Z h) in
           if truthy aspectRatio then Some aspectRatio else topLayerAspectRatio
      else topLayerAspectRatio
  end.

(** The transform a freshly loaded top layer gets (the body of the effect
    on [topLayerAspectRatio, bottomLayerDimensions]). *)
Definition deriveInitialTransform (dims : LayerDimensions) (ar : Q) : VideoTransform :=
  let widthAt100Percent := fmul (ld_width dims) (1 # 2) in
  let newWidth := widthAt100Percent in
  let newHeight := fdiv newWidth ar in
  {| vt_size := 100;
     vt_width := Math_round newWidth;
     vt_height := Math_round newHeight;
     vt_x := Math_round (fdiv (fsub (ld_width dims) newWidth) 2);
     vt_y := Math_round (fdiv (fsub (ld_height dims) newHeight) 2) |}.

Definition resetTransformEffect (topLayerAspectRatio : option Q)
    (bottomLayerDimensions : option LayerDimensions)
    (videoTransform : VideoTransform) : VideoTransform :=
  match ready topLayerAspectRatio bottomLayerDimensions with
  | Some (ar, dims) => deriveInitialTransform dims ar
  | None => videoTransform
  end.

(** [handleTransformChange]: the new transform. *)
Definition handleTransformChange (topLayerAspectRatio : option Q)
    (bottomLayerDimensions : option LayerDimensions)
    (newPartialTransform : PartialTransform)
    (prev : VideoTransform) : VideoTransform :=
  match ready topLayerAspectRatio bottomLayerDimensions with
  | None => prev
  | Some (ar, dims) =>
      let updatedTransform := spread prev newPartialTransform in
      match pt_size newPartialTransform with
      | Some sz =>
          let baseWidth := fmul (ld_width dims) (1 # 2) in
          let newWidth := fmul baseWidth (fdiv sz 100) in
          {| vt_x := vt_x updatedTransform;
             vt_y := vt_y updatedTransform;
             vt_width := Math_round newWidth;
             vt_height := Math_round (fdiv newWidth ar);
             vt_size := vt_size updatedTransform |}
      | None => updatedTransform
      end
  end.

(** A background and a foreground element load, in either order, from the
    initial state. *)
Definition loadLayers (bottom top : MediaElement) : VideoTransform :=
  resetTransformEffect (handleTopLayerLoad (Some top) None)
    (handleBottomLayerLoad (Some bottom) None) initialVideoTransform.

(** The initial transform as the specification writes it: every formula
    reads the fields of the transform itself. *)
Definition centred_on_rounded_fields (dims : LayerDimensions) (ar : Q)
    (t : VideoTransform) : Prop :=
  vt_size t == 100 /\
  vt_width t == Math_round (fmul (ld_width dims) (1 # 2)) /\
  vt_height t == Math_round (fdiv (vt_width t) ar) /\
  vt_x t == Math_round (fdiv (fsub (ld_width dims) (vt_width t)) 2) /\
  vt_y t == Math_round (fdiv (fsub (ld_height dims) (vt_height t)) 2).

(** The size update as the specification writes it: the width and the
    height of the initial derivation, which are rounded, scaled by
    [s / 100]. *)
Definition rounded_baseline_scaled (dims : LayerDimensions) (ar s : Q)
    (t : VideoTransform) : Prop :=
  vt_width t == fmul (vt_width (deriveInitialTransform dims ar)) (fdiv s 100) /\
  vt_height t == fmul (vt_height (deriveInitialTransform dims ar)) (fdiv s 100).

End Geometry64.

(** ** Position as a percentage ([components/VideoControls.tsx]) *)

Module VideoControls.
Import JS Geometry.
Local Open Scope Q_scope.

Inductive PercentageInputKeys : Type := lr_pos_percent | ud_pos_percent.

(** [Math.max(0, Math.min(100, v))]. *)
Definition clampPercent (v : Q) : Q := Math_max 0 (Math_min 100 v).

(** The effect that refreshes the two percentage fields.  The result is
    [None] for the pair of 'N/A' strings, and otherwise the numbers the
    two one-decimal strings denote; a focused input keeps what it shows. *)
Definition percentDisplayEffect (topLayerAspectRatio : option Q)
    (bottomLayerDimensions : option LayerDimensions) (isInputFocused : bool)
    (transform : VideoTransform) (percentValues : option (Q * Q)) : option (Q * Q) :=
  match ready topLayerAspectRatio bottomLayerDimensions with
  | None => None
  | Some (_, dims) =>
      if isInputFocused then percentValues
      else
        let bottomWidth := ld_width dims in
        let bottomHeight := ld_height dims in
        let topLayerWidthPx := vt_width transform in
        let topLayerHeightPx := vt_height transform in
        let movableWidth := bottomWidth - topLayerWidthPx in
        let lrPercent :=
          if Qle_bool movableWidth 0 then 50 else (vt_x transform / movableWidth) * 100 in
        let movableHeight := bottomHeight - topLayerHeightPx in
        let udPercent :=
          if Qle_bool movableHeight 0 then 50 else (vt_y transform / movableHeight) * 100 in
        let lrPercent := clampPercent lrPercent in
        let udPercent := clampPercent udPercent in
        Some (toFixed1 lrPercent, toFixed1 udPercent)
  end.

(** [handlePercentageInputChange]: [numValue] is what [parseFloat] made of
    the text of the input ([None] for NaN); the result is the partial
    transform handed to [onTransformChange], [None] when the handler
    returns before calling it. *)
Definition handlePercentageInputChange (topLayerAspectRatio : option Q)
    (bottomLayerDimensions : option LayerDimensions) (transform : VideoTransform)
    (name : PercentageInputKeys) (numValue : option Q) : option PartialTransform :=
  match ready topLayerAspectRatio bottomLayerDimensions, numValue with
  | Some (_, dims), Some numValue =>
      let bottomWidth := ld_width dims in
      let bottomHeight := ld_height dims in
      match name with
      | lr_pos_percent =>
          let movableWidth := bottomWidth - vt_width transform in
          Some {| pt_x := Some (if Qle_bool movableWidth 0 then movableWidth / 2
                                else Math_round ((numValue / 100) * movableWidth));
                  pt_y := None; pt_width := None; pt_height := None; pt_size := None |}
      | ud_pos_percent =>
          let movableHeight := bottomHeight - vt_height transform in
          Some {| pt_x := None;
                  pt_y := Some (if Qle_bool movableHeight 0 then movableHeight / 2
                                else Math_round ((numValue / 100) * movableHeight));
                  pt_width := None; pt_height := None; pt_size := None |}
      end
  | _, _ => None
  end.

(** [handleSizeChange]: the slider hands over an integer. *)
Definition handleSizeChange (value : Z) : PartialTransform :=
  {| pt_x := None; pt_y := None; pt_width := None; pt_height := None;
     pt_size := Some (inject_Z value) |}.

(** A change of a percentage field, as the application sees it: the handler
    of the controls and then [handleTransformChange] of [App]. *)
Definition percentInput (topLayerAspectRatio : option Q)
    (bottomLayerDimensions : option LayerDimensions)
    (name : PercentageInputKeys) (numValue : option Q)
    (transform : VideoTransform) : VideoTransform :=
  match handlePercentageInputChange topLayerAspectRatio bottomLayerDimensions
          transform name numValue with
  | Some p => handleTransformChange topLayerAspectRatio bottomLayerDimensions p transform
  | None => transform
  end.

(** Pixels to the displayed percentage and back, on one axis: the field is
    refreshed from the transform and its content is entered again. *)
Definition percentRoundTrip (topLayerAspectRatio : option Q)
    (bottomLayerDimensions : option LayerDimensions)
    (name : PercentageInputKeys) (transform : VideoTransform) : VideoTransform :=
  match percentDisplayEffect topLayerAspectRatio bottomLayerDimensions false
          transform None with
  | Some (lr, ud) =>
      percentInput topLayerAspectRatio bottomLayerDimensions name
        (Some (match name with lr_pos_percent => lr | ud_pos_percent => ud end))
        transform
  | None => transform
  end.

End VideoControls.

(** ** Dragging the top layer ([components/PreviewCanvas.tsx]) *)

Module Drag.
Import JS Geometry.
Local Open Scope Q_scope.

Record Pos : Type := mkPos { pos_x : Q; pos_y : Q }.

(** The content of [dragStartRef]. *)
Record DragStart : Type := mkDragStart {
  startX : Q;
  startY : Q;
  initialTransformX : Q;
  initialTransformY : Q
}.

Definition isPointInTopLayer (videoTransform : VideoTransform) (pos : Pos) : bool :=
  Qle_bool (vt_x videoTransform) (pos_x pos)
  && Qle_bool (pos_x pos) (vt_x videoTransform + vt_width videoTransform)
  && Qle_bool (vt_y videoTransform) (pos_y pos)
  && Qle_bool (pos_y pos) (vt_y videoTransform + vt_height videoTransform).

(** [handleDragStart]: the new [isDragging] and [dragStartRef]. *)
Definition handleDragStart (topLayerElement : bool) (videoTransform : VideoTransform)
    (pos : Pos) (isDragging : bool) (dragStartRef : option DragStart)
    : bool * option DragStart :=
  if topLayerElement && isPointInTopLayer videoTransform pos
  then (true, Some (mkDragStart (pos_x pos) (pos_y pos)
                      (vt_x videoTransform) (vt_y videoTransform)))
  else (isDragging, dragStartRef).

(** [handleDragMove]: the partial transform handed to [onTransformChange]. *)
Definition handleDragMove (isDragging : bool) (dragStartRef : option DragStart)
    (pos : option Pos) : option PartialTransform :=
  match isDragging, dragStartRef, pos with
  | true, Some d, Some pos =>
      let dx := pos_x pos - startX d in
      let dy := pos_y pos - startY d in
      Some {| pt_x := Some (Math_round (initialTransformX d + dx));
              pt_y := Some (Math_round (initialTransformY d + dy));
              pt_width := None; pt_height := None; pt_size := None |}
  | _, _, _ => None
  end.

End Drag.

(** ** The hex colour helpers ([App.tsx]) *)

Module Hex.
Import Types.

(** [ToInt32] and the shift [a << n] of 32-bit integers. *)
Definition toInt32 (z : Z) : Z := (z + 2 ^ 31) mod 2 ^ 32 - 2 ^ 31.
Definition shl (a n : Z) : Z := toInt32 (Z.shiftl (toInt32 a) (n mod 32)).

Definition digitChar (d : Z) : ascii :=
  match String.get (Z.to_nat d) "0123456789abcdef"%string with
  | Some c => c
  | None => "0"%char
  end.

(** The hexadecimal digits of [n], most significant first, put before [acc]. *)
Fixpoint hexDigits (fuel : nat) (n : Z) (acc : string) : string :=
  match fuel with
  | O => acc
  | S fuel' =>
      let acc' := String (digitChar (n mod 16)) acc in
      if n / 16 =? 0 then acc' else hexDigits fuel' (n / 16) acc'
  end.

(** [n.toString(16)] for an integer [n]; a number of [k] bits has at most
    [k] digits. *)
Definition toString16 (n : Z) : string :=
  if n <? 0
  then String "-"%char (hexDigits (S (Z.to_nat (Z.log2 (- n)))) (- n) EmptyString)
  else hexDigits (S (Z.to_nat (Z.log2 n))) n EmptyString.

(** [s.slice(1)]. *)
Definition slice1 (s : string) : string :=
  match s with
  | EmptyString => EmptyString
  | String _ s' => s'
  end.

Definition upperChar (c : ascii) : ascii :=
  let n := N_of_ascii c in
  if ((97 <=? n) && (n <=? 122))%N then ascii_of_N (n - 32) else c.

(** [s.toUpperCase()] on a string of ASCII characters. *)
Fixpoint toUpperCase (s : string) : string :=
  match s with
  | EmptyString => EmptyString
  | String c s' => String (upperChar c) (toUpperCase s')
  end.

Definition rgbToHex (r g b : Z) : string :=
  String "#"%char
    (toUpperCase (slice1 (toString16 (shl 1 24 + shl r 16 + shl g 8 + b)))).

(** The value of a character of the class [[a-f\d]] under the flag [i]. *)
Definition hexValue (c : ascii) : option Z :=
  let n := Z.of_N (N_of_ascii c) in
  if (48 <=? n) && (n <=? 57) then Some (n - 48)
  else if (97 <=? n) && (n <=? 102) then Some (n - 87)
  else if (65 <=? n) && (n <=? 70) then Some (n - 55)
  else None.

Definition isHexChar (c : ascii) : bool :=
  match hexValue c with Some _ => true | None => false end.

(** [parseInt(s, 16)] on the two characters of a captured group. *)
Definition parseInt16 (c1 c2 : ascii) : option Z :=
  match hexValue c1, hexValue c2 with
  | Some h, Some l => Some (h * 16 + l)
  | _, _ => None
  end.

(** The three groups of [/^#?([a-f\d]{2})([a-f\d]{2})([a-f\d]{2})$/i.exec(hex)]:
    an optional [#], then exactly six hexadecimal digits. *)
Definition execHex (hex : string)
    : option ((ascii * ascii) * (ascii * ascii) * (ascii * ascii)) :=
  let body := match hex with
              | String "#"%char rest => rest
              | _ => hex
              end in
  match body with
  | String c1 (String c2 (String c3 (String c4 (String c5 (String c6 EmptyString))))) =>
      if forallb isHexChar [c1; c2; c3; c4; c5; c6]
      then Some ((c1, c2), (c3, c4), (c5, c6))
      else None
  | _ => None
  end.

Definition hexToRgb (hex : string) : option RGBColor :=
  match execHex hex with
  | Some ((c1, c2), (c3, c4), (c5, c6)) =>
      match parseInt16 c1 c2, parseInt16 c3 c4, parseInt16 c5 c6 with
      | Some r, Some g, Some b => Some (mkRGB r g b)
      | _, _, _ => None
      end
  | None => None
  end.

(** [handleChromaKeyChange]: the next settings.  A hex string that is there
    and not empty decides the colour (the previous colour stays when it does
    not parse); otherwise a colour that is there decides the hex string. *)
Definition handleChromaKeyChange (newSettings : PartialSettings)
    (prev : ChromaKeySettings) : ChromaKeySettings :=
  let updated :=
    {| color := default (color prev) (ps_color newSettings);
       hexColor := default (hexColor prev) (ps_hexColor newSettings);
       tolerance := default (tolerance prev) (ps_tolerance newSettings) |} in
  match ps_hexColor newSettings with
  | Some (String c s) =>
      {| color := default (color prev) (hexToRgb (String c s));
         hexColor := hexColor updated;
         tolerance := tolerance updated |}
  | _ =>
      match ps_color newSettings with
      | Some col =>
          {| color := color updated;
             hexColor := rgbToHex (r col) (g col) (b col);
             tolerance := tolerance updated |}
      | None => updated
      end
  end.

End Hex.

(** ** The chroma key and the render loop ([components/PreviewCanvas.tsx]) *)

Module PreviewCanvas.
Import Types Geometry.

(** An integer below 2^53 as a binary64 number. *)
Definition Z2float (z : Z) : PrimFloat.float := PrimFloat.of_uint63 (Uint63.of_Z z).

(** The test [distance < tolerance] on a pixel [r, g, b].  The differences,
    their squares and the sum are integers below 2^18, exact in binary64;
    [Math.sqrt] and [<] are those of binary64. *)
Definition distance_lt (keyColor : RGBColor) (tolerance : Z) (r g b : Z) : bool :=
  let distance :=
    PrimFloat.sqrt (Z2float ((r - Types.r keyColor) ^ 2 + (g - Types.g keyColor) ^ 2
                             + (b - Types.b keyColor) ^ 2)) in
  PrimFloat.ltb distance (Z2float tolerance).

(** [for (let i = 0; i < data.length; i += 4)] on the bytes of the image
    data.  Reading past the end gives [undefined], the distance is then NaN
    and the test fails; writing past the end does nothing. *)
Fixpoint chromaKeyLoop (fuel : nat) (keyColor : RGBColor) (tolerance : Z)
    (i : nat) (data : list Z) : list Z :=
  match fuel with
  | O => data
  | S fuel' =>
      if (i <? length data)%nat then
        let data' :=
          match data !! i, data !! (i + 1)%nat, data !! (i + 2)%nat with
          | Some r, Some g, Some b =>
              if distance_lt keyColor tolerance r g b
              then <[(i + 3)%nat := 0]> data
              else data
          | _, _, _ => data
          end in
        chromaKeyLoop fuel' keyColor tolerance (i + 4) data'
      else data
  end.

Definition chromaKey (keyColor : RGBColor) (tolerance : Z) (data : list Z) : list Z :=
  chromaKeyLoop (length data) keyColor tolerance 0 data.

(** Pixel [p] of a buffer: its bytes [4p .. 4p + 3]. *)
Definition pixel_at (data : list Z) (p : nat) : option (Z * Z * Z * Z) :=
  match data !! (p * 4)%nat, data !! (p * 4 + 1)%nat,
        data !! (p * 4 + 2)%nat, data !! (p * 4 + 3)%nat with
  | Some r, Some g, Some b, Some a => Some (r, g, b, a)
  | _, _, _, _ => None
  end.

(** What the loop does to a buffer, pixel by pixel. *)
Fixpoint keyPixels (keyColor : RGBColor) (tolerance : Z) (data : list Z) : list Z :=
  match data with
  | r :: g :: b :: a :: rest =>
      r :: g :: b :: (if distance_lt keyColor tolerance r g b then 0 else a)
        :: keyPixels keyColor tolerance rest
  | _ => data
  end.

(** The Euclidean distance of the specification, a real number. *)
Definition distance (keyColor : RGBColor) (r g b : Z) : R :=
  R_sqrt.sqrt ((IZR r - IZR (Types.r keyColor)) ^ 2
               + (IZR g - IZR (Types.g keyColor)) ^ 2
               + (IZR b - IZR (Types.b keyColor)) ^ 2)%R.

(** The integers [z .. z + n - 1], and [0 .. n - 1]. *)
Fixpoint Zseq (z : Z) (n : nat) : list Z :=
  match n with
  | O => []
  | S n' => z :: Zseq (z + 1) n'
  end.

Definition Zrange (n : Z) : list Z := Zseq 0 (Z.to_nat n).

(** Every tolerance of the slider as a float, beside its square. *)
Definition sqrtTable : list (PrimFloat.float * Uint63.int) :=
  map (fun t => (Z2float t, Uint63.of_Z (t * t))) (Zrange 256).

(** For the sum of squares [s], the float test agrees with [s < t * t] at
    every tolerance [t] of the table. *)
Definition sqrtRow (tbl : list (PrimFloat.float * Uint63.int)) (s : Z) : bool :=
  let si := Uint63.of_Z s in
  let f := PrimFloat.sqrt (PrimFloat.of_uint63 si) in
  forallb (fun p => Bool.eqb (PrimFloat.ltb f (fst p)) (Uint63.ltb si (snd p))) tbl.

(** *** One frame of the render loop *)

Inductive Layer : Type := BottomLayer | TopLayer.

Inductive ImageSource : Type :=
| ElementSource (l : Layer)
| OffscreenCanvas.

(** What a frame does, in order. *)
Inductive Effect : Type :=
| Play (l : Layer)
| CtxDrawImage (src : ImageSource) (x y w h : Q)
| CtxFillRect (fillStyle : string) (x y w h : Q)
| OffscreenClearRect (x y w h : Q)
| OffscreenDrawImage (src : ImageSource) (x y w h : Q)
| OffscreenPutImageData (data : list Z)
| ConsoleError (message : string)
| RequestAnimationFrame.

Definition intrinsicSize (el : MediaElement) : Z * Z :=
  match el with
  | HTMLImageElement w h => (w, h)
  | HTMLVideoElement w h _ => (w, h)
  end.

Definition playIfPaused (l : Layer) (el : option MediaElement) : list Effect :=
  match el with
  | Some (HTMLVideoElement _ _ true) => [Play l]
  | _ => []
  end.

(** The parts of [render], in the order of the source.  First: while
    recording, a paused video is played again. *)
Definition keepPlaying (isRecording : bool)
    (bottomLayerElement topLayerElement : option MediaElement) : list Effect :=
  if isRecording
  then playIfPaused BottomLayer bottomLayerElement ++ playIfPaused TopLayer topLayerElement
  else [].

(** Then the bottom layer is drawn over the whole canvas. *)
Definition drawBottomLayer (bottomLayerElement : option MediaElement)
    (canvas : Z * Z) : list Effect :=
  let cw := inject_Z (fst canvas) in
  let ch := inject_Z (snd canvas) in
  match bottomLayerElement with
  | Some _ => [CtxDrawImage (ElementSource BottomLayer) 0 0 cw ch]
  | None => [CtxFillRect "#374151" 0 0 cw ch]
  end.

(** Then the top layer goes through the off-screen canvas; [getImageData]
    is the bytes read back from it, [None] when the call throws.  The result
    is the size of the off-screen canvas afterwards and what was done. *)
Definition drawTopLayer (topLayerElement : option MediaElement)
    (videoTransform : VideoTransform) (chromaKeySettings : ChromaKeySettings)
    (getImageData : option (list Z)) (offscreenCanvas : Z * Z)
    : (Z * Z) * list Effect :=
  match topLayerElement with
  | Some el =>
      let '(topWidth, topHeight) := intrinsicSize el in
      if (0 <? topWidth) && (0 <? topHeight) then
        let ow := inject_Z topWidth in
        let oh := inject_Z topHeight in
        ((topWidth, topHeight),
         [OffscreenClearRect 0 0 ow oh;
          OffscreenDrawImage (ElementSource TopLayer) 0 0 ow oh]
         ++ match getImageData with
            | Some data =>
                let keyColor := color chromaKeySettings in
                let tolerance := tolerance chromaKeySettings in
                [OffscreenPutImageData (chromaKey keyColor tolerance data);
                 CtxDrawImage OffscreenCanvas
                   (vt_x videoTransform) (vt_y videoTransform)
                   (vt_width videoTransform) (vt_height videoTransform)]
            | None =>
                [ConsoleError "Error processing top layer frame (getImageData):";
                 CtxDrawImage (ElementSource TopLayer)
                   (vt_x videoTransform) (vt_y videoTransform)
                   (vt_width videoTransform) (vt_height videoTransform)]
            end)
      else (offscreenCanvas, [])
  | None => (offscreenCanvas, [])
  end.

(** [render]: one frame, ending with the request for the next one. *)
Definition render (isRecording : bool)
    (bottomLayerElement topLayerElement : option MediaElement)
    (canvas : Z * Z) (videoTransform : VideoTransform)
    (chromaKeySettings : ChromaKeySettings)
    (getImageData : option (list Z)) (offscreenCanvas : Z * Z)
    : (Z * Z) * list Effect :=
  let '(offscreenCanvas', top) :=
    drawTopLayer topLayerElement videoTransform chromaKeySettings getImageData
      offscreenCanvas in
  (offscreenCanvas',
   keepPlaying isRecording bottomLayerElement topLayerElement
   ++ drawBottomLayer bottomLayerElement canvas
   ++ top ++ [RequestAnimationFrame]).

(** What a frame does before it turns to the pixels of the top layer. *)
Definition frameStart (isRecording : bool)
    (bottomLayerElement : option MediaElement) (el : MediaElement)
    (canvas : Z * Z) : list Effect :=
  keepPlaying isRecording bottomLayerElement (Some el)
  ++ drawBottomLayer bottomLayerElement canvas
  ++ [OffscreenClearRect 0 0 (inject_Z (fst (intrinsicSize el)))
        (inject_Z (snd (intrinsicSize el)));
      OffscreenDrawImage (ElementSource TopLayer) 0 0
        (inject_Z (fst (intrinsicSize el))) (inject_Z (snd (intrinsicSize el)))].

(** A frame draws the keyed image: it writes image data back or draws the
    off-screen canvas. *)
Definition drawsKeyed (e : Effect) : bool :=
  match e with
  | OffscreenPutImageData _ => true
  | CtxDrawImage OffscreenCanvas _ _ _ _ => true
  | _ => false
  end.

End PreviewCanvas.

(** ** The rounding against the floats of the kernel *)

Module Binary64Check.
Import Binary64 PreviewCanvas.
Local Open Scope Q_scope.

(** The rational a float of the kernel denotes, when it is finite. *)
Definition Q_of_float (f : PrimFloat.float) : option Q :=
  match FloatOps.Prim2SF f with
  | SpecFloat.S754_zero _ => Some 0
  | SpecFloat.S754_finite s m e =>
      Some ((if s then inject_Z (Zneg m) else inject_Z (Zpos m)) * 2 ^ e)
  | _ => None
  end.

Definition same (f : PrimFloat.float) (q : Q) : bool :=
  match Q_of_float f with
  | Some q' => Qeq_bool q' q
  | None => false
  end.

(** Computations of the code on the integers [a] and [b], once with the
    floats of the kernel and once with [fl]: an aspect ratio [a / b]; the
    width [a * 0.5 * (b / 100)] of a size update and its height for the
    aspect ratio [a / b]; the centring [(600 - 400 / (a / b)) / 2]; a
    pointer at [a] on a canvas 800 wide shown [b] wide, and the drag from
    there to [a + 7] of a layer at 200. *)
Definition agree (a b : Z) : bool :=
  let fa := Z2float a in
  let fb := Z2float b in
  let F := Z2float in
  let half := PrimFloat.div (F 1%Z) (F 2%Z) in
  let far := PrimFloat.div fa fb in
  let ar := fdiv (inject_Z a) (inject_Z b) in
  let fw := PrimFloat.mul (PrimFloat.mul fa half) (PrimFloat.div fb (F 100%Z)) in
  let w := fmul (fmul (inject_Z a) (1 # 2)) (fdiv (inject_Z b) 100) in
  let fscale := PrimFloat.div (F 800%Z) fb in
  let scale := fdiv 800 (inject_Z b) in
  let fp0 := PrimFloat.mul (PrimFloat.sub fa (F 3%Z)) fscale in
  let p0 := fmul (fsub (inject_Z a) 3) scale in
  let fp := PrimFloat.mul (PrimFloat.sub (F (a + 7)%Z) (F 3%Z)) fscale in
  let p := fmul (fsub (inject_Z (a + 7)%Z) 3) scale in
  same far ar
  && same fw w
  && same (PrimFloat.div fw far) (fdiv w ar)
  && same (PrimFloat.div (PrimFloat.sub (F 600%Z) (PrimFloat.div (F 400%Z) far)) (F 2%Z))
       (fdiv (fsub 600 (fdiv 400 ar)) 2)
  && same fp p
  && same (PrimFloat.add (F 200%Z) (PrimFloat.sub fp fp0)) (fadd 200 (fsub p p0)).

End Binary64Check.

(** ** Recording ([App.tsx]) *)

Module Recording.

Definition lowerChar (c : ascii) : ascii :=
  let n := N_of_ascii c in
  if ((65 <=? n) && (n <=? 90))%N then ascii_of_N (n + 32) else c.

(** [s] starts with the lower-case word [word], whatever the case of [s]. *)
Fixpoint startsWithIgnoringCase (word s : string) : bool :=
  match word, s with
  | EmptyString, _ => true
  | String w word', String c s' =>
      Ascii.eqb w (lowerChar c) && startsWithIgnoringCase word' s'
  | String _ _, EmptyString => false
  end.

Definition isLineTerminator (c : ascii) : bool :=
  Ascii.eqb c "010"%char || Ascii.eqb c "013"%char.

(** [/^((?!chrome|android).)*safari/i.test(userAgent)]: the word safari is
    found before any position where chrome or android starts (and before
    the end of the first line). *)
Fixpoint isSafari (userAgent : string) : bool :=
  if startsWithIgnoringCase "safari" userAgent then true
  else
    match userAgent with
    | EmptyString => false
    | String c rest =>
        if startsWithIgnoringCase "chrome" userAgent
           || startsWithIgnoringCase "android" userAgent
           || isLineTerminator c
        then false
        else isSafari rest
    end.

Inductive Extension : Type := webm | mp4.

Definition extensionString (e : Extension) : string :=
  match e with
  | webm => "webm"
  | mp4 => "mp4"
  end.

Record MimeType : Type := mkType { mimeType : string; extension : Extension }.

Definition webmPrioritizedTypes : list MimeType :=
  [ mkType "video/webm;codecs=vp9,opus" webm;
    mkType "video/webm;codecs=vp8,vorbis" webm;
    mkType "video/webm" webm;
    mkType "video/mp4" mp4 ].

Definition mp4PrioritizedTypes : list MimeType :=
  [ mkType "video/mp4" mp4;
    mkType "video/webm;codecs=vp9,opus" webm ].

Definition typesToCheck (isSafari : bool) : list MimeType :=
  if isSafari then mp4PrioritizedTypes else webmPrioritizedTypes.

(** [getSupportedMimeType], with [MediaRecorder.isTypeSupported] as an
    argument. *)
Definition getSupportedMimeType (isSafari : bool)
    (isTypeSupported : string -> bool) : MimeType :=
  match find (fun type => isTypeSupported (mimeType type)) (typesToCheck isSafari) with
  | Some type => type
  | None => mkType EmptyString webm
  end.

(** The container a MIME type names: what stands between [video/] and the
    parameters. *)
Fixpoint untilSemicolon (s : string) : string :=
  match s with
  | EmptyString => EmptyString
  | String c s' => if Ascii.eqb c ";"%char then EmptyString else String c (untilSemicolon s')
  end.

Definition containerOf (mime : string) : string :=
  untilSemicolon (String.substring 6 (String.length mime - 6) mime).

(** A [<video>] element as the recording sees it; [capturable] says that
    [createMediaElementSource] and [connect] go through for it. *)
Record VideoElement : Type := mkVideo {
  src : string;
  readyState : Z;
  muted : bool;
  loop : bool;
  currentTime : Q;
  playing : bool;
  capturable : bool
}.

Inductive Track : Type :=
| CanvasVideoTrack
| DestinationAudioTrack (id : nat).

Record Chunk : Type := mkChunk { chunkSize : Z; chunkId : nat }.

Record MediaRecorder : Type := mkRecorder {
  stream : list Track;
  recorderMimeType : string;
  recorderType : MimeType;
  active : bool
}.

Record Download : Type := mkDownload {
  download : string;
  blobType : string;
  blobParts : list Chunk
}.

(** The browser around the page. *)
Record Browser : Type := mkBrowser {
  userAgent : string;
  isTypeSupported : string -> bool;
  audioTracks : list nat
}.

(** The state the two handlers read and write. *)
Record App : Type := mkApp {
  isRecording : bool;
  bottomVideoRef : option VideoElement;
  topVideoRef : option VideoElement;
  mediaRecorderRef : option MediaRecorder;
  recordedChunksRef : list Chunk;
  alerts : list string;
  warnings : list string;
  downloads : list Download
}.

(** [[bottomVideoRef.current, topVideoRef.current].filter(Boolean)]. *)
Definition videoElements (app : App) : list VideoElement :=
  option_list (bottomVideoRef app) ++ option_list (topVideoRef app).

(** [videoElements.forEach(f)] for an [f] that assigns to properties. *)
Definition forEachVideo (f : VideoElement -> VideoElement) (app : App) : App :=
  {| isRecording := isRecording app;
     bottomVideoRef := option_map f (bottomVideoRef app);
     topVideoRef := option_map f (topVideoRef app);
     mediaRecorderRef := mediaRecorderRef app;
     recordedChunksRef := recordedChunksRef app;
     alerts := alerts app;
     warnings := warnings app;
     downloads := downloads app |}.

Definition setMuted (m : bool) (v : VideoElement) : VideoElement :=
  {| src := src v; readyState := readyState v; muted := m; loop := loop v;
     currentTime := currentTime v; playing := playing v; capturable := capturable v |}.

(** [v.loop = true; v.currentTime = 0; v.play()]. *)
Definition restart (v : VideoElement) : VideoElement :=
  {| src := src v; readyState := readyState v; muted := muted v; loop := true;
     currentTime := 0; playing := true; capturable := capturable v |}.

(** One turn of the loop that connects the audio: [hasAudio] and the
    warnings so far, then the element. *)
Definition connectOne (acc : bool * list string) (videoEl : VideoElement)
    : bool * list string :=
  let '(hasAudio, warned) := acc in
  if 0 <? readyState videoEl then
    if capturable videoEl then (true, warned)
    else (hasAudio,
          warned ++ [("Could not process audio for video " ++ src videoEl ++ ":")%string])
  else (hasAudio, warned).

Definition connectAudio (videoElements : list VideoElement) : bool * list string :=
  fold_left connectOne videoElements (false, []).

(** The accumulator of the audio loop: [hasAudio] is set by the first
    element that is ready and can be captured. *)
Definition connected (videoEl : VideoElement) : bool :=
  (0 <? readyState videoEl) && capturable videoEl.

(** [handleStartRecording]; [canvasRef] says whether the canvas is there. *)
Definition handleStartRecording (canvasRef : bool) (browser : Browser) (app : App) : App :=
  if negb canvasRef then app
  else
    let app := forEachVideo (setMuted false) app in
    let '(hasAudio, warned) := connectAudio (videoElements app) in
    let finalStream :=
      CanvasVideoTrack
      :: (if hasAudio then map DestinationAudioTrack (audioTracks browser) else []) in
    let supportedType :=
      getSupportedMimeType (isSafari (userAgent browser)) (isTypeSupported browser) in
    match mimeType supportedType with
    | EmptyString =>
        let app := forEachVideo (setMuted true) app in
        {| isRecording := isRecording app;
           bottomVideoRef := bottomVideoRef app;
           topVideoRef := topVideoRef app;
           mediaRecorderRef := mediaRecorderRef app;
           recordedChunksRef := recordedChunksRef app;
           alerts := alerts app ++ ["Sorry, your browser doesn't support video recording."%string];
           warnings := warnings app ++ warned;
           downloads := downloads app |}
    | String _ _ =>
        let app := forEachVideo restart app in
        {| isRecording := true;
           bottomVideoRef := bottomVideoRef app;
           topVideoRef := topVideoRef app;
           mediaRecorderRef :=
             Some (mkRecorder finalStream (mimeType supportedType) supportedType true);
           recordedChunksRef := [];
           alerts := alerts app;
           warnings := warnings app ++ warned;
           downloads := downloads app |}
    end.

(** [ondataavailable]: a chunk that is not empty is kept. *)
Definition ondataavailable (data : Chunk) (app : App) : App :=
  {| isRecording := isRecording app;
     bottomVideoRef := bottomVideoRef app;
     topVideoRef := topVideoRef app;
     mediaRecorderRef := mediaRecorderRef app;
     recordedChunksRef :=
       if 0 <? chunkSize data then recordedChunksRef app ++ [data]
       else recordedChunksRef app;
     alerts := alerts app;
     warnings := warnings app;
     downloads := downloads app |}.

(** [handleStopRecording], together with the [onstop] handler that the
    recorder runs once it has stopped. *)
Definition handleStopRecording (app : App) : App :=
  match mediaRecorderRef app with
  | Some recorder =>
      if active recorder then
        let app' := forEachVideo (setMuted true) app in
        {| isRecording := false;
           bottomVideoRef := bottomVideoRef app';
           topVideoRef := topVideoRef app';
           mediaRecorderRef :=
             Some (mkRecorder (stream recorder) (recorderMimeType recorder)
                     (recorderType recorder) false);
           recordedChunksRef := recordedChunksRef app;
           alerts := alerts app;
           warnings := warnings app;
           downloads :=
             downloads app
             ++ [mkDownload
                   ("videyo_export." ++ extensionString (extension (recorderType recorder)))
                   (recorderMimeType recorder) (recordedChunksRef app)] |}
      else app
  | None =>
      {| isRecording := false;
         bottomVideoRef := bottomVideoRef app;
         topVideoRef := topVideoRef app;
         mediaRecorderRef := None;
         recordedChunksRef := recordedChunksRef app;
         alerts := alerts app;
         warnings := warnings app;
         downloads := downloads app |}
  end.

End Recording.

(** ** Scenarios *)

Module Scenarios.
Import Types Geometry VideoControls Drag Recording.


(** The 800x599 / 400x400 scenario with the size slider at 150: the layer
    is 600 pixels high, one more than the surface. *)
Definition tallerThanSurface : VideoTransform :=
  let ar := handleTopLayerLoad (Some (HTMLImageElement 400 400)) None in
  let dims := handleBottomLayerLoad (Some (HTMLImageElement 800 599)) None in
  let t0 := resetTransformEffect ar dims initialVideoTransform in
  handleTransformChange ar dims (handleSizeChange 150) t0.

Definition safariUserAgent : string :=
  "Mozilla/5.0 (Macintosh; Intel Mac OS X 10_15_7) AppleWebKit/605.1.15 (KHTML, like Gecko) Version/17.0 Safari/605.1.15".

Definition chromeUserAgent : string :=
  "Mozilla/5.0 (Windows NT 10.0; Win64; x64) AppleWebKit/537.36 (KHTML, like Gecko) Chrome/120.0.0.0 Safari/537.36".

Definition firefoxUserAgent : string :=
  "Mozilla/5.0 (X11; Linux x86_64; rv:120.0) Gecko/20100101 Firefox/120.0".

Definition iPhoneUserAgent : string :=
  "Mozilla/5.0 (iPhone; CPU iPhone OS 17_0 like Mac OS X) AppleWebKit/605.1.15 (KHTML, like Gecko) Version/17.0 Mobile/15E148 Safari/604.1".

Definition androidChromeUserAgent : string :=
  "Mozilla/5.0 (Linux; Android 13; Pixel 7) AppleWebKit/537.36 (KHTML, like Gecko) Chrome/120.0.0.0 Mobile Safari/537.36".

(** A browser whose recorder supports the fallback container only. *)
Definition onlyMp4 (mime : string) : bool := String.eqb mime "video/mp4".

(** Two video layers: the audio of the bottom one cannot be connected, the
    top one has not loaded anything yet. *)
Definition twoVideos : App :=
  mkApp false
    (Some (mkVideo "blob:bottom" 4 true true 3 true false))
    (Some (mkVideo "blob:top" 0 true true 0 false true))
    None [] [] [] [].

End Scenarios.

(** ** What the state of the geometry satisfies *)

Module GeometryInvariants.
Import JS Types Geometry.
Local Open Scope Q_scope.

(** The aspect ratio in the state: not there yet, or positive. *)
Definition aspect_ok (topLayerAspectRatio : option Q) : Prop :=
  match topLayerAspectRatio with
  | None => True
  | Some ar => 0 < ar
  end.

(** The dimensions in the state: not there yet, or positive integers. *)
Definition dims_ok (bottomLayerDimensions : option LayerDimensions) : Prop :=
  match bottomLayerDimensions with
  | None => True
  | Some dims =>
      exists w h : Z, (0 < w)%Z /\ (0 < h)%Z /\ dims = mkDims (inject_Z w) (inject_Z h)
  end.

(** An update of the position only, and one of the size only. *)
Definition positionUpdate (x y : option Q) : PartialTransform :=
  mkPartial x y None None None.

Definition sizeUpdate (s : Q) : PartialTransform :=
  mkPartial None None None None (Some s).

End GeometryInvariants.

(** ** The format of a hex colour *)

Module HexFormat.
Import Types Hex.

(** Exactly six characters, each a hexadecimal digit of either case. *)
Definition isSixHex (s : string) : bool :=
  Nat.eqb (String.length s) 6 && forallb isHexChar (list_ascii_of_string s).

(** The settings show the colour they key: the hex string parses to the
    colour. *)
Definition in_sync (s : ChromaKeySettings) : Prop :=
  hexToRgb (hexColor s) = Some (color s).

End HexFormat.

(** ** The shape of a frame *)

Module FrameShape.
Import Types Geometry PreviewCanvas.

Definition isRequest (e : Effect) : bool :=
  match e with RequestAnimationFrame => true | _ => false end.

(** An effect on the top layer: on the off-screen canvas, or a draw of the
    top element or of the off-screen canvas. *)
Definition touchesTopLayer (e : Effect) : bool :=
  match e with
  | OffscreenClearRect _ _ _ _ | OffscreenDrawImage _ _ _ _ _
  | OffscreenPutImageData _ | ConsoleError _ => true
  | CtxDrawImage (ElementSource TopLayer) _ _ _ _ => true
  | CtxDrawImage OffscreenCanvas _ _ _ _ => true
  | _ => false
  end.

Definition isPausedVideo (el : option MediaElement) : bool :=
  match el with
  | Some (HTMLVideoElement _ _ true) => true
  | _ => false
  end.

End FrameShape.

(** ** The pointer handlers ([components/PreviewCanvas.tsx]) *)

Module Pointer.
Import JS Types Geometry Drag Binary64.
Local Open Scope Q_scope.

(** The canvas as the pointer handlers see it: its backing size
    ([canvas.width], [canvas.height]) and its bounding client rectangle. *)
Record CanvasBox : Type := mkCanvasBox {
  canvas_width : Q;
  canvas_height : Q;
  rect_left : Q;
  rect_top : Q;
  rect_width : Q;
  rect_height : Q
}.

Definition getCanvasRelativePos (canvas : CanvasBox) (clientX clientY : Q) : option Pos :=
  if Qeq_bool (rect_width canvas) 0 || Qeq_bool (rect_height canvas) 0 then None
  else
    let scaleX := fdiv (canvas_width canvas) (rect_width canvas) in
    let scaleY := fdiv (canvas_height canvas) (rect_height canvas) in
    Some (mkPos (fmul (fsub clientX (rect_left canvas)) scaleX)
                (fmul (fsub clientY (rect_top canvas)) scaleY)).

Definition isPointInTopLayer (videoTransform : VideoTransform) (pos : Pos) : bool :=
  Qle_bool (vt_x videoTransform) (pos_x pos)
  && Qle_bool (pos_x pos) (fadd (vt_x videoTransform) (vt_width videoTransform))
  && Qle_bool (vt_y videoTransform) (pos_y pos)
  && Qle_bool (pos_y pos) (fadd (vt_y videoTransform) (vt_height videoTransform)).

(** [handleDragStart]: the new [isDragging] and [dragStartRef]. *)
Definition handleDragStart (topLayerElement : bool) (videoTransform : VideoTransform)
    (pos : Pos) (isDragging : bool) (dragStartRef : option DragStart)
    : bool * option DragStart :=
  if topLayerElement && isPointInTopLayer videoTransform pos
  then (true, Some (mkDragStart (pos_x pos) (pos_y pos)
                      (vt_x videoTransform) (vt_y videoTransform)))
  else (isDragging, dragStartRef).

(** [handleDragMove]: the partial transform handed to [onTransformChange]. *)
Definition handleDragMove (isDragging : bool) (dragStartRef : option DragStart)
    (pos : option Pos) : option PartialTransform :=
  match isDragging, dragStartRef, pos with
  | true, Some d, Some pos =>
      let dx := fsub (pos_x pos) (startX d) in
      let dy := fsub (pos_y pos) (startY d) in
      Some {| pt_x := Some (Math_round (fadd (initialTransformX d) dx));
              pt_y := Some (Math_round (fadd (initialTransformY d) dy));
              pt_width := None; pt_height := None; pt_size := None |}
  | _, _, _ => None
  end.

(** The state of the pointer handlers. *)
Record Controller : Type := mkController {
  isDragging : bool;
  isHovering : bool;
  dragStartRef : option DragStart
}.

Definition idle : Controller := mkController false false None.

(** What [handleDragStart] returns: whether a drag started. *)
Definition dragStarted (topLayerElement : bool) (videoTransform : VideoTransform)
    (pos : Pos) : bool :=
  topLayerElement && isPointInTopLayer videoTransform pos.

Definition startDrag (topLayerElement : bool) (videoTransform : VideoTransform)
    (pos : Pos) (st : Controller) : Controller :=
  let '(dragging, ref) :=
    handleDragStart topLayerElement videoTransform pos (isDragging st) (dragStartRef st) in
  mkController dragging (isHovering st) ref.

(** [handleMouseDown]: the new state, and whether the default action of the
    event is prevented. *)
Definition handleMouseDown (canvasRef : option CanvasBox) (topLayerElement : bool)
    (videoTransform : VideoTransform) (clientX clientY : Q) (st : Controller)
    : Controller * bool :=
  match canvasRef with
  | None => (st, false)
  | Some canvas =>
      match getCanvasRelativePos canvas clientX clientY with
      | Some pos =>
          if dragStarted topLayerElement videoTransform pos
          then (startDrag topLayerElement videoTransform pos st, true)
          else (st, false)
      | None => (st, false)
      end
  end.

(** [handleMouseMove]: the new state and the update of the transform that is
    asked for, if any. *)
Definition handleMouseMove (canvasRef : option CanvasBox) (topLayerElement : bool)
    (videoTransform : VideoTransform) (clientX clientY : Q) (st : Controller)
    : Controller * option PartialTransform :=
  match canvasRef with
  | None => (st, None)
  | Some canvas =>
      let pos := getCanvasRelativePos canvas clientX clientY in
      if isDragging st then (st, handleDragMove (isDragging st) (dragStartRef st) pos)
      else
        match topLayerElement, pos with
        | true, Some pos =>
            (mkController (isDragging st) (isPointInTopLayer videoTransform pos)
               (dragStartRef st), None)
        | _, _ => (mkController (isDragging st) false (dragStartRef st), None)
        end
  end.

(** [handleTouchStart]: [touches] are the client positions of the touch
    points; the first one counts. *)
Definition handleTouchStart (canvasRef : option CanvasBox) (topLayerElement : bool)
    (videoTransform : VideoTransform) (touches : list (Q * Q)) (st : Controller)
    : Controller * bool :=
  match canvasRef, touches with
  | Some canvas, (clientX, clientY) :: _ =>
      match getCanvasRelativePos canvas clientX clientY with
      | Some pos =>
          if dragStarted topLayerElement videoTransform pos
          then (startDrag topLayerElement videoTransform pos st, true)
          else (st, false)
      | None => (st, false)
      end
  | _, _ => (st, false)
  end.

Definition handleTouchMove (canvasRef : option CanvasBox) (touches : list (Q * Q))
    (st : Controller) : option PartialTransform :=
  match canvasRef, touches with
  | Some canvas, (clientX, clientY) :: _ =>
      handleDragMove (isDragging st) (dragStartRef st)
        (getCanvasRelativePos canvas clientX clientY)
  | _, _ => None
  end.

Definition handleDragEnd (st : Controller) : Controller :=
  if isDragging st then mkController false (isHovering st) None else st.

(** The [cursor] of the canvas. *)
Definition cursor (st : Controller) : string :=
  if isDragging st then "grabbing" else if isHovering st then "grab" else "default".

(** A move of the mouse as the page sees it: the handler, then
    [onTransformChange] with what it asks for. *)
Definition mouseMove (ar : option Q) (dims : option LayerDimensions)
    (canvasRef : option CanvasBox) (topLayerElement : bool)
    (s : Controller * VideoTransform) (client : Q * Q) : Controller * VideoTransform :=
  let '(st, t) := s in
  let '(st', p) := handleMouseMove canvasRef topLayerElement t (fst client) (snd client) st in
  (st', match p with
        | Some p => Geometry64.handleTransformChange ar dims p t
        | None => t
        end).

(** A move of a finger, likewise. *)
Definition touchMove (ar : option Q) (dims : option LayerDimensions)
    (canvasRef : option CanvasBox)
    (s : Controller * VideoTransform) (touches : list (Q * Q)) : Controller * VideoTransform :=
  let '(st, t) := s in
  (st, match handleTouchMove canvasRef touches st with
       | Some p => Geometry64.handleTransformChange ar dims p t
       | None => t
       end).

End Pointer.

(** ** The user agent test and the parts of a recording ([App.tsx]) *)

Module RecordingSession.
Import Recording.

(** [s] without its first [n] characters. *)
Fixpoint skip (n : nat) (s : string) : string :=
  match n, s with
  | O, _ => s
  | S n', String _ s' => skip n' s'
  | S _, EmptyString => EmptyString
  end.

(** Position [i] of [ua] can be stepped over by [((?!chrome|android).)]:
    there is a character there, it ends no line, and neither word starts
    there. *)
Definition steppable (ua : string) (i : nat) : Prop :=
  exists c rest,
    skip i ua = String c rest /\ isLineTerminator c = false /\
    startsWithIgnoringCase "chrome" (skip i ua) = false /\
    startsWithIgnoringCase "android" (skip i ua) = false.

(** The pattern matches with the word safari at position [n]. *)
Definition safariAt (ua : string) (n : nat) : Prop :=
  startsWithIgnoringCase "safari" (skip n ua) = true /\
  forall i, (i < n)%nat -> steppable ua i.

(** The chunks of a recording that are not empty. *)
Definition kept (chunks : list Chunk) : list Chunk :=
  List.filter (fun c => 0 <? chunkSize c) chunks.

(** The warning for an element that is ready but whose audio cannot be
    connected. *)
Definition audioWarning (v : VideoElement) : string :=
  ("Could not process audio for video " ++ src v ++ ":")%string.

Definition audioFails (v : VideoElement) : bool :=
  (0 <? readyState v) && negb (capturable v).

End RecordingSession.

(** ** Uploads and their object URLs ([App.tsx]) *)

Module Uploads.
Import JS Types Geometry.
Local Open Scope Q_scope.

Inductive LayerName : Type := bottom | top.

Inductive LayerType : Type := image | video.

(** [file.type.startsWith('image/') ? 'image' : (file.type.startsWith('video/') ? 'video' : null)]. *)
Definition fileTypeOf (type : string) : option LayerType :=
  if String.prefix "image/" type then Some image
  else if String.prefix "video/" type then Some video
  else None.

(** The files [handleFileUpload] takes. *)
Definition accepted (type : string) : bool :=
  match fileTypeOf type with
  | Some _ => true
  | None => false
  end.

(** The state of the page that the uploads read and write, and the object
    URLs of the browser: [created] counts the calls of
    [URL.createObjectURL], each of which returns a URL not seen before (the
    count itself names it here), and [objectUrls] are the URLs created and
    not revoked. *)
Record Page : Type := mkPage {
  bottomLayerUrl : option nat;
  topLayerUrl : option nat;
  bottomLayerType : option LayerType;
  topLayerType : option LayerType;
  bottomLayerDimensions : option LayerDimensions;
  topLayerAspectRatio : option Q;
  bottomLayerUrlRef : option nat;
  topLayerUrlRef : option nat;
  created : nat;
  objectUrls : list nat;
  alerts : list string
}.

Definition initialPage : Page :=
  mkPage None None None None None None None None 0 [] [].

Definition revokeObjectURL (url : nat) (urls : list nat) : list nat :=
  List.filter (fun u => negb (Nat.eqb u url)) urls.

(** [if (ref.current) URL.revokeObjectURL(ref.current)]. *)
Definition revokeCurrent (ref : option nat) (urls : list nat) : list nat :=
  match ref with
  | Some url => revokeObjectURL url urls
  | None => urls
  end.

Definition handleFileUpload (type : string) (layer : LayerName) (st : Page) : Page :=
  match fileTypeOf type with
  | None =>
      {| bottomLayerUrl := bottomLayerUrl st;
         topLayerUrl := topLayerUrl st;
         bottomLayerType := bottomLayerType st;
         topLayerType := topLayerType st;
         bottomLayerDimensions := bottomLayerDimensions st;
         topLayerAspectRatio := topLayerAspectRatio st;
         bottomLayerUrlRef := bottomLayerUrlRef st;
         topLayerUrlRef := topLayerUrlRef st;
         created := created st;
         objectUrls := objectUrls st;
         alerts := alerts st ++ ["Unsupported file type. Please upload an image or video."%string] |}
  | Some fileType =>
      let newUrl := created st in
      let urls := objectUrls st ++ [newUrl] in
      match layer with
      | bottom =>
          {| bottomLayerUrl := Some newUrl;
             topLayerUrl := topLayerUrl st;
             bottomLayerType := Some fileType;
             topLayerType := topLayerType st;
             bottomLayerDimensions := None;
             topLayerAspectRatio := topLayerAspectRatio st;
             bottomLayerUrlRef := Some newUrl;
             topLayerUrlRef := topLayerUrlRef st;
             created := S (created st);
             objectUrls := revokeCurrent (bottomLayerUrlRef st) urls;
             alerts := alerts st |}
      | top =>
          {| bottomLayerUrl := bottomLayerUrl st;
             topLayerUrl := Some newUrl;
             bottomLayerType := bottomLayerType st;
             topLayerType := Some fileType;
             bottomLayerDimensions := bottomLayerDimensions st;
             topLayerAspectRatio := None;
             bottomLayerUrlRef := bottomLayerUrlRef st;
             topLayerUrlRef := Some newUrl;
             created := S (created st);
             objectUrls := revokeCurrent (topLayerUrlRef st) urls;
             alerts := alerts st |}
      end
  end.

(** The cleanup that runs when the page is unmounted. *)
Definition unmount (st : Page) : Page :=
  {| bottomLayerUrl := bottomLayerUrl st;
     topLayerUrl := topLayerUrl st;
     bottomLayerType := bottomLayerType st;
     topLayerType := topLayerType st;
     bottomLayerDimensions := bottomLayerDimensions st;
     topLayerAspectRatio := topLayerAspectRatio st;
     bottomLayerUrlRef := None;
     topLayerUrlRef := None;
     created := created st;
     objectUrls :=
       revokeCurrent (topLayerUrlRef st)
         (revokeCurrent (bottomLayerUrlRef st) (objectUrls st));
     alerts := alerts st |}.

(** [isPreviewReady]: whether the preview canvas is shown. *)
Definition isPreviewReady (st : Page) : bool :=
  match bottomLayerUrl st, topLayerUrl st, topLayerAspectRatio st, bottomLayerDimensions st with
  | Some _, Some _, Some ar, Some dims => truthy ar && negb (Qle_bool (ld_width dims) 0)
  | _, _, _, _ => false
  end.

(** [controlsEnabled] of the controls. *)
Definition controlsEnabled (st : Page) : bool :=
  match bottomLayerDimensions st, topLayerAspectRatio st with
  | Some _, Some ar => truthy ar
  | _, _ => false
  end.

(** A run of uploads, each a file type and the layer it is for. *)
Definition uploadAll (uploads : list (string * LayerName)) (st : Page) : Page :=
  fold_left (fun s u => handleFileUpload (fst u) (snd u) s) uploads st.

(** The object URLs are looked after: the live ones are those the two
    references hold. *)
Record tidy (st : Page) : Prop := mkTidy {
  tidy_live : forall u, In u (objectUrls st)
                        <-> bottomLayerUrlRef st = Some u \/ topLayerUrlRef st = Some u;
  tidy_nodup : List.NoDup (objectUrls st);
  tidy_apart : forall u, bottomLayerUrlRef st = Some u -> topLayerUrlRef st <> Some u;
  tidy_fresh : forall u, In u (objectUrls st) -> (u < created st)%nat;
  tidy_bottom : bottomLayerUrl st = bottomLayerUrlRef st;
  tidy_top : topLayerUrl st = topLayerUrlRef st
}.

End Uploads.

(** * Properties *)

Section MathFacts.
Import JS VideoControls.
Local Open Scope Q_scope.

Lemma Math_round_comp (p q : Q) : p == q -> Math_round p = Math_round q.
Proof.
  intros E. unfold Math_round. f_equal. apply Qfloor_comp. now rewrite E.
Qed.

Lemma Math_round_is_integer (q : Q) : is_integer (Math_round q).
Proof. exists (Qfloor (q + (1 # 2))). reflexivity. Qed.

Lemma Math_round_inject_Z (z : Z) : Math_round (inject_Z z) = inject_Z z.
Proof.
  unfold Math_round. f_equal.
  assert (L := Qfloor_le (inject_Z z + (1 # 2))).
  assert (U := Qlt_floor (inject_Z z + (1 # 2))).
  set (k := Qfloor (inject_Z z + (1 # 2))) in *. clearbody k.
  unfold Qle, Qlt, inject_Z, Qplus in L, U. cbn [Qnum Qden] in L, U.
  lia.
Qed.

Lemma Math_round_of_integer (q : Q) : is_integer q -> Math_round q == q.
Proof.
  intros [z Hz]. rewrite (Math_round_comp _ _ Hz), Math_round_inject_Z.
  now rewrite Hz.
Qed.

Lemma Math_round_near (q : Q) : q - (1 # 2) < Math_round q /\ Math_round q <= q + (1 # 2).
Proof.
  unfold Math_round.
  assert (L := Qfloor_le (q + (1 # 2))).
  assert (U := Qlt_floor (q + (1 # 2))).
  rewrite inject_Z_plus in U. change (inject_Z 1) with 1 in U. split; lra.
Qed.




Lemma Qle_bool_false (a b : Q) : Qle_bool a b = false <-> b < a.
Proof.
  rewrite <- not_true_iff_false, Qle_bool_iff. split; [apply Qnot_le_lt | apply Qlt_not_le].
Qed.



End MathFacts.

Section Binary64Facts.
Import Binary64 Binary64Check PreviewCanvas.
Local Open Scope Q_scope.

Lemma two_nonzero : ~ 2 == 0.
Proof. discriminate. Qed.

Lemma pow2_pos (e : Z) : 0 < 2 ^ e.
Proof. apply Qpower_0_lt. reflexivity. Qed.

Lemma pow2_add (a b : Z) : 2 ^ (a + b) == 2 ^ a * 2 ^ b.
Proof. apply Qpower_plus, two_nonzero. Qed.

Lemma pow2_sub (a b : Z) : 2 ^ (a - b) == 2 ^ a / 2 ^ b.
Proof. apply Qpower_minus, two_nonzero. Qed.

Lemma pow2_le (a b : Z) : (a <= b)%Z -> 2 ^ a <= 2 ^ b.
Proof. intros H. apply Qpower_le_compat_l; [exact H | discriminate]. Qed.

Lemma pow2_lt (a b : Z) : (a < b)%Z -> 2 ^ a < 2 ^ b.
Proof. intros H. apply Qpower_lt_compat_l; [exact H | reflexivity]. Qed.

Lemma pow2_lt_inv (a b : Z) : 2 ^ a < 2 ^ b -> (a < b)%Z.
Proof. intros H. apply (Qpower_lt_compat_l_inv 2); [exact H | reflexivity]. Qed.

Lemma pow2_Z (n : Z) : (0 <= n)%Z -> 2 ^ n == inject_Z (2 ^ n).
Proof. intros H. now rewrite Zpower_Qpower. Qed.

Lemma pow2_succ (e : Z) : 2 ^ (e + 1) == 2 * 2 ^ e.
Proof. rewrite pow2_add. change (2 ^ 1) with 2. ring. Qed.

Lemma ilog2_spec (q : Q) : 0 < q -> 2 ^ ilog2 q <= q /\ q < 2 ^ (ilog2 q + 1).
Proof.
  intros Hq. destruct q as [n d].
  assert (Hn : (0 < n)%Z) by (unfold Qlt in Hq; cbn in Hq; lia).
  unfold ilog2. cbn [Qnum Qden].
  set (a := Z.log2 n). set (b := Z.log2 (Zpos d)).
  destruct (Z.log2_spec n Hn) as [La Ua].
  destruct (Z.log2_spec (Zpos d) ltac:(lia)) as [Lb Ub].
  fold a in La, Ua. fold b in Lb, Ub.
  assert (Ha : (0 <= a)%Z) by apply Z.log2_nonneg.
  assert (Hb : (0 <= b)%Z) by apply Z.log2_nonneg.
  assert (Hd : 0 < inject_Z (Zpos d)) by reflexivity.
  assert (E : n # d == inject_Z n / inject_Z (Zpos d)) by apply Qmake_Qdiv.
  assert (QLa : 2 ^ a <= inject_Z n) by (rewrite pow2_Z by lia; now rewrite <- Zle_Qle).
  assert (QUa : inject_Z n < 2 ^ (a + 1)) by (rewrite pow2_Z by lia; now rewrite <- Zlt_Qlt).
  assert (QLb : 2 ^ b <= inject_Z (Zpos d)) by (rewrite pow2_Z by lia; now rewrite <- Zle_Qle).
  assert (QUb : inject_Z (Zpos d) < 2 ^ (b + 1)) by (rewrite pow2_Z by lia; now rewrite <- Zlt_Qlt).
  assert (U : n # d < 2 ^ (a - b + 1)).
  { rewrite E. apply Qlt_shift_div_r; [exact Hd|].
    apply Qlt_le_trans with (2 ^ (a + 1)); [exact QUa|].
    replace (a + 1)%Z with ((a - b + 1) + b)%Z by lia. rewrite pow2_add.
    apply Qmult_le_l; [apply pow2_pos | exact QLb]. }
  assert (L : 2 ^ (a - b - 1) <= n # d).
  { rewrite E. apply Qle_shift_div_l; [exact Hd|].
    apply Qle_trans with (2 ^ a); [|exact QLa].
    replace a with ((a - b - 1) + (b + 1))%Z at 2 by lia. rewrite pow2_add.
    apply Qmult_le_l; [apply pow2_pos | apply Qlt_le_weak, QUb]. }
  destruct (Qle_bool (2 ^ (a - b)) (n # d)) eqn:C.
  - apply Qle_bool_iff in C. split; [exact C | exact U].
  - split; [exact L|]. replace (a - b - 1 + 1)%Z with (a - b)%Z by lia.
    apply Qnot_le_lt. intros H. apply Qle_bool_iff in H. congruence.
Qed.

Lemma ilog2_unique (q : Q) (e : Z) : 2 ^ e <= q -> q < 2 ^ (e + 1) -> ilog2 q = e.
Proof.
  intros L U.
  assert (Hq : 0 < q) by (apply Qlt_le_trans with (2 ^ e); [apply pow2_pos | exact L]).
  destruct (ilog2_spec q Hq) as [L' U'].
  assert (e < ilog2 q + 1)%Z by (apply pow2_lt_inv; eapply Qle_lt_trans; eassumption).
  assert (ilog2 q < e + 1)%Z by (apply pow2_lt_inv; eapply Qle_lt_trans; eassumption).
  lia.
Qed.

Lemma ilog2_comp (p q : Q) : 0 < p -> p == q -> ilog2 p = ilog2 q.
Proof.
  intros Hp E. destruct (ilog2_spec p Hp) as [L U].
  symmetry. apply ilog2_unique; now rewrite <- E.
Qed.

Lemma ilog2_mono (p q : Q) : 0 < p -> p <= q -> (ilog2 p <= ilog2 q)%Z.
Proof.
  intros Hp H. destruct (ilog2_spec p Hp) as [L _].
  destruct (ilog2_spec q ltac:(lra)) as [_ U].
  assert (ilog2 p < ilog2 q + 1)%Z by (apply pow2_lt_inv; lra). lia.
Qed.

Lemma rne_cases (q : Q) :
  let f := Qfloor q in
  (q - inject_Z f < 1 # 2 /\ rne q = f) \/
  (1 # 2 < q - inject_Z f /\ rne q = (f + 1)%Z) \/
  (q - inject_Z f == 1 # 2 /\ rne q = if Z.even f then f else (f + 1)%Z).
Proof.
  cbv zeta. unfold rne.
  destruct (Qcompare_spec (q - inject_Z (Qfloor q)) (1 # 2)) as [E|L|G]; auto.
Qed.

Lemma floor_bounds (q : Q) : inject_Z (Qfloor q) <= q /\ q < inject_Z (Qfloor q) + 1.
Proof.
  split; [apply Qfloor_le|]. pose proof (Qlt_floor q) as H.
  rewrite inject_Z_plus in H. exact H.
Qed.

Lemma rne_near (q : Q) : Qabs (inject_Z (rne q) - q) <= 1 # 2.
Proof.
  destruct (floor_bounds q) as [L U].
  apply Qabs_Qle_condition.
  destruct (rne_cases q) as [[H ->] | [[H ->] | [H ->]]].
  - split; lra.
  - rewrite inject_Z_plus. change (inject_Z 1) with 1. split; lra.
  - destruct (Z.even (Qfloor q)); [|rewrite inject_Z_plus; change (inject_Z 1) with 1];
      split; lra.
Qed.

Lemma rne_Z (n : Z) : rne (inject_Z n) = n.
Proof.
  unfold rne. rewrite Qfloor_Z.
  destruct (Qcompare_spec (inject_Z n - inject_Z n) (1 # 2)) as [E|L|G]; [lra | reflexivity | lra].
Qed.

Lemma rne_comp (p q : Q) : p == q -> rne p = rne q.
Proof.
  intros E. unfold rne. rewrite (Qfloor_comp _ _ E).
  assert (E' : p - inject_Z (Qfloor q) == q - inject_Z (Qfloor q)) by now rewrite E.
  now rewrite (Qcompare_comp _ _ E' _ _ (Qeq_refl (1 # 2))).
Qed.

Lemma rne_mono (p q : Q) : p <= q -> (rne p <= rne q)%Z.
Proof.
  intros H.
  pose proof (Qfloor_resp_le _ _ H) as Hf.
  destruct (floor_bounds p) as [Lp Up], (floor_bounds q) as [Lq Uq].
  destruct (Z.eq_dec (Qfloor p) (Qfloor q)) as [E|N].
  - destruct (rne_cases p) as [[Hp ->] | [[Hp ->] | [Hp ->]]];
    destruct (rne_cases q) as [[Hq ->] | [[Hq ->] | [Hq ->]]];
      rewrite <- ?E in *; try lia; try lra;
      destruct (Z.even (Qfloor p)); try lia; lra.
  - assert (Qfloor p + 1 <= Qfloor q)%Z by lia.
    assert (rne p <= Qfloor p + 1)%Z.
    { destruct (rne_cases p) as [[_ ->] | [[_ ->] | [_ ->]]]; try lia.
      destruct (Z.even (Qfloor p)); lia. }
    assert (Qfloor q <= rne q)%Z.
    { destruct (rne_cases q) as [[_ ->] | [[_ ->] | [_ ->]]]; try lia.
      destruct (Z.even (Qfloor q)); lia. }
    lia.
Qed.

Lemma rne_nonneg (q : Q) : 0 <= q -> (0 <= rne q)%Z.
Proof.
  intros H. change 0%Z with (rne (inject_Z 0)) at 1. rewrite rne_Z.
  replace 0%Z with (rne 0) by apply (rne_Z 0). now apply rne_mono.
Qed.


Lemma ulp_exponent_min (q : Q) : (-1074 <= ulp_exponent q)%Z.
Proof. unfold ulp_exponent. lia. Qed.

Lemma ulp_exponent_comp (p q : Q) : 0 < p -> p == q -> ulp_exponent p = ulp_exponent q.
Proof. intros Hp E. unfold ulp_exponent. now rewrite (ilog2_comp p q Hp E). Qed.

Lemma ulp_exponent_mono (p q : Q) : 0 < p -> p <= q -> (ulp_exponent p <= ulp_exponent q)%Z.
Proof. intros Hp H. unfold ulp_exponent. pose proof (ilog2_mono p q Hp H). lia. Qed.

(** The significand [q / 2 ^ e] is below [2 ^ 53]. *)
Lemma significand_lt (q : Q) : 0 < q -> q / 2 ^ ulp_exponent q < inject_Z (2 ^ 53).
Proof.
  intros Hq. destruct (ilog2_spec q Hq) as [_ U].
  apply Qlt_shift_div_r; [apply pow2_pos|].
  rewrite <- pow2_Z by lia. rewrite <- pow2_add.
  apply Qlt_le_trans with (2 ^ (ilog2 q + 1)); [exact U|].
  apply pow2_le. unfold ulp_exponent. lia.
Qed.

Lemma significand_nonneg (q : Q) (e : Z) : 0 < q -> 0 <= q / 2 ^ e.
Proof. intros Hq. apply Qle_shift_div_l; [apply pow2_pos | lra]. Qed.

Lemma fl_pos_unfold (q : Q) :
  fl_pos q == inject_Z (rne (q / 2 ^ ulp_exponent q)) * 2 ^ ulp_exponent q.
Proof. apply Qred_correct. Qed.

Lemma fl_pos_nonneg (q : Q) : 0 < q -> 0 <= fl_pos q.
Proof.
  intros Hq. rewrite fl_pos_unfold.
  pose proof (rne_nonneg _ (significand_nonneg q (ulp_exponent q) Hq)) as H.
  apply Qmult_le_0_compat; [|apply Qlt_le_weak, pow2_pos].
  change 0 with (inject_Z 0). now rewrite <- Zle_Qle.
Qed.

Lemma fl_pos_comp (p q : Q) : 0 < p -> p == q -> fl_pos p == fl_pos q.
Proof.
  intros Hp E. rewrite !fl_pos_unfold. rewrite (ulp_exponent_comp p q Hp E).
  assert (E' : p / 2 ^ ulp_exponent q == q / 2 ^ ulp_exponent q) by now rewrite E.
  now rewrite (rne_comp _ _ E').
Qed.

(** A positive number of binary64 is left as it is. *)
Lemma fl_pos_fix (m e : Z) :
  (0 < m < 2 ^ 53)%Z -> (-1074 <= e)%Z -> fl_pos (inject_Z m * 2 ^ e) == inject_Z m * 2 ^ e.
Proof.
  intros Hm He. set (x := inject_Z m * 2 ^ e).
  assert (Hm1 : 1 <= inject_Z m) by (change 1 with (inject_Z 1); rewrite <- Zle_Qle; lia).
  assert (Hm2 : inject_Z m < 2 ^ 53) by (rewrite pow2_Z by lia; rewrite <- Zlt_Qlt; lia).
  pose proof (pow2_pos e) as Pe.
  assert (Hx : 0 < x) by (unfold x; apply Qmult_lt_0_compat; lra).
  assert (Ux : x < 2 ^ (53 + e)).
  { unfold x. rewrite pow2_add. apply Qmult_lt_compat_r; assumption. }
  destruct (ilog2_spec x Hx) as [L _].
  assert (Hi : (ilog2 x < 53 + e)%Z) by (apply pow2_lt_inv; lra).
  rewrite fl_pos_unfold. set (e' := ulp_exponent x).
  assert (He' : (e' <= e)%Z) by (unfold e', ulp_exponent; lia).
  assert (E : x / 2 ^ e' == inject_Z (m * 2 ^ (e - e'))).
  { unfold x. rewrite inject_Z_mult, <- pow2_Z by lia. rewrite pow2_sub.
    field. repeat split; apply Qpower_not_0, two_nonzero. }
  rewrite (rne_comp _ _ E), rne_Z.
  rewrite inject_Z_mult, <- pow2_Z by lia. rewrite pow2_sub. unfold x.
  field. apply Qpower_not_0, two_nonzero.
Qed.

Lemma rne_significand (q : Q) :
  0 < q -> (0 <= rne (q / 2 ^ ulp_exponent q) <= 2 ^ 53)%Z.
Proof.
  intros Hq. split; [apply rne_nonneg, significand_nonneg, Hq|].
  rewrite <- (rne_Z (2 ^ 53)). apply rne_mono, Qlt_le_weak, significand_lt, Hq.
Qed.

(** What [fl_pos] returns is a number of binary64. *)
Lemma fl_pos_representable (q : Q) : 0 < q -> representable (fl_pos q).
Proof.
  intros Hq. pose proof (fl_pos_unfold q) as F. set (e := ulp_exponent q) in *.
  pose proof (rne_significand q Hq) as [L U]. fold e in L, U.
  pose proof (ulp_exponent_min q) as He. fold e in He.
  destruct (Z.eq_dec (rne (q / 2 ^ e)) (2 ^ 53)%Z) as [E|N].
  - exists (2 ^ 52)%Z, (e + 1)%Z. split; [now vm_compute|]. split; [lia|].
    rewrite F, E, pow2_succ. change (inject_Z (2 ^ 53)) with (2 * inject_Z (2 ^ 52)). ring.
  - exists (rne (q / 2 ^ e)), e. split; [lia|]. split; [exact He | exact F].
Qed.

Lemma fl_pos_mono (p q : Q) : 0 < p -> p <= q -> fl_pos p <= fl_pos q.
Proof.
  intros Hp H. assert (Hq : 0 < q) by lra.
  pose proof (ulp_exponent_mono p q Hp H) as He.
  rewrite !fl_pos_unfold. set (ep := ulp_exponent p) in *. set (eq := ulp_exponent q) in *.
  pose proof (pow2_pos ep) as Pp. pose proof (pow2_pos eq) as Pq.
  destruct (Z.eq_dec ep eq) as [E|N].
  - rewrite E. apply Qmult_le_compat_r; [|lra].
    rewrite <- Zle_Qle. apply rne_mono. apply Qmult_le_compat_r; [exact H|].
    apply Qlt_le_weak, Qinv_lt_0_compat, Pq.
  - assert (Hlt : (ep < eq)%Z) by lia.
    assert (Hq' : eq = (ilog2 q - 52)%Z).
    { pose proof (ulp_exponent_min p). unfold eq, ulp_exponent in *. fold ep in H0. lia. }
    assert (Hip : (ilog2 p < ilog2 q)%Z) by (unfold ep, ulp_exponent in Hlt; lia).
    destruct (ilog2_spec p Hp) as [_ Up]. destruct (ilog2_spec q Hq) as [Lq _].
    set (B := 2 ^ (eq + 52)).
    assert (HpB : p < B).
    { apply Qlt_le_trans with (2 ^ (ilog2 p + 1)); [exact Up|]. apply pow2_le. lia. }
    assert (HBq : B <= q).
    { unfold B. replace (eq + 52)%Z with (ilog2 q) by lia. exact Lq. }
    apply Qle_trans with B.
    + assert (EB : B == inject_Z (2 ^ (eq + 52 - ep)) * 2 ^ ep).
      { rewrite <- pow2_Z by lia. rewrite <- pow2_add. unfold B.
        now replace (eq + 52 - ep + ep)%Z with (eq + 52)%Z by lia. }
      rewrite EB. apply Qmult_le_compat_r; [|lra].
      rewrite <- Zle_Qle. rewrite <- (rne_Z (2 ^ (eq + 52 - ep))). apply rne_mono.
      apply Qle_shift_div_r; [exact Pp|]. rewrite <- EB. lra.
    + assert (EB : B == inject_Z (2 ^ 52) * 2 ^ eq).
      { rewrite <- pow2_Z by lia. rewrite <- pow2_add. unfold B.
        now replace (52 + eq)%Z with (eq + 52)%Z by lia. }
      rewrite EB. apply Qmult_le_compat_r; [|lra].
      rewrite <- Zle_Qle. rewrite <- (rne_Z (2 ^ 52)) at 1. apply rne_mono.
      apply Qle_shift_div_l; [exact Pq|]. rewrite <- EB. exact HBq.
Qed.

(** The error of [fl_pos] is at most half a unit in the last place. *)
Lemma fl_pos_half_ulp (q : Q) :
  0 < q -> Qabs (fl_pos q - q) <= 2 ^ ulp_exponent q / 2.
Proof.
  intros Hq. rewrite fl_pos_unfold. set (e := ulp_exponent q).
  pose proof (pow2_pos e) as Pe.
  pose proof (rne_near (q / 2 ^ e)) as N.
  assert (E : inject_Z (rne (q / 2 ^ e)) * 2 ^ e - q
              == (inject_Z (rne (q / 2 ^ e)) - q / 2 ^ e) * 2 ^ e) by (field; lra).
  rewrite E, Qabs_Qmult, (Qabs_pos (2 ^ e)) by lra.
  set (a := Qabs (inject_Z (rne (q / 2 ^ e)) - q / 2 ^ e)) in *.
  set (u := 2 ^ e) in *. clearbody a u.
  assert (a * u <= (1 # 2) * u) by (apply Qmult_le_compat_r; lra).
  assert (E2 : u / 2 == (1 # 2) * u) by field.
  rewrite E2. exact H.
Qed.

(** In the normal range the relative error is at most [2 ^ -53]. *)
Lemma fl_pos_error (q : Q) :
  2 ^ (-1022) <= q -> Qabs (fl_pos q - q) <= 2 ^ (-53) * q.
Proof.
  intros Hn. pose proof (pow2_pos (-1022)) as P.
  assert (Hq : 0 < q) by lra.
  destruct (ilog2_spec q Hq) as [L U].
  assert (Hi : (-1022 < ilog2 q + 1)%Z) by (apply pow2_lt_inv; lra).
  pose proof (fl_pos_half_ulp q Hq) as H.
  assert (E : ulp_exponent q = (ilog2 q - 52)%Z) by (unfold ulp_exponent; lia).
  rewrite E in H.
  assert (E2 : 2 ^ (ilog2 q - 52) / 2 == 2 ^ (-53) * 2 ^ ilog2 q).
  { replace (ilog2 q - 52)%Z with ((-53) + ilog2 q + 1)%Z by lia.
    rewrite pow2_succ, pow2_add. field. }
  rewrite E2 in H.
  assert (2 ^ (-53) * 2 ^ ilog2 q <= 2 ^ (-53) * q)
    by (apply Qmult_le_l; [apply pow2_pos | exact L]).
  lra.
Qed.

(** ** [fl] *)

Lemma fl_0 : fl 0 = 0.
Proof. reflexivity. Qed.

Lemma fl_pos_eq (q : Q) : 0 < q -> fl q = fl_pos q.
Proof. intros H. unfold fl. now rewrite (proj1 (Qgt_alt q 0) H). Qed.

Lemma fl_neg_eq (q : Q) : q < 0 -> fl q = - fl_pos (- q).
Proof. intros H. unfold fl. now rewrite (proj1 (Qlt_alt q 0) H). Qed.

Lemma fl_zero_eq (q : Q) : q == 0 -> fl q = 0.
Proof. intros H. unfold fl. now rewrite (proj1 (Qeq_alt q 0) H). Qed.

Lemma fl_zero (q : Q) : q == 0 -> fl q == 0.
Proof. intros H. now rewrite (fl_zero_eq q H). Qed.

Lemma sign_cases (q : Q) : q < 0 \/ q == 0 \/ 0 < q.
Proof. destruct (Q_dec q 0) as [[H|H]|H]; auto. Qed.

#[global] Instance fl_Proper : Proper (Qeq ==> Qeq) fl.
Proof.
  intros p q E. destruct (sign_cases p) as [H | [H | H]].
  - rewrite (fl_neg_eq p H), (fl_neg_eq q) by now rewrite <- E.
    apply Qopp_comp, fl_pos_comp; [lra | now rewrite E].
  - rewrite (fl_zero_eq p H), (fl_zero_eq q) by now rewrite <- E. reflexivity.
  - rewrite (fl_pos_eq p H), (fl_pos_eq q) by now rewrite <- E.
    now apply fl_pos_comp.
Qed.

Lemma fl_opp (q : Q) : fl (- q) == - fl q.
Proof.
  destruct (sign_cases q) as [H | [H | H]].
  - rewrite (fl_neg_eq q H), (fl_pos_eq (- q)) by lra. ring.
  - rewrite (fl_zero_eq q H), (fl_zero_eq (- q)) by lra. reflexivity.
  - rewrite (fl_pos_eq q H), (fl_neg_eq (- q)) by lra.
    apply Qopp_comp, fl_pos_comp; [lra | ring].
Qed.

Lemma fl_nonneg (q : Q) : 0 <= q -> 0 <= fl q.
Proof.
  intros H. destruct (sign_cases q) as [H' | [H' | H']]; [lra | |].
  - rewrite (fl_zero_eq q H'). lra.
  - rewrite (fl_pos_eq q H'). now apply fl_pos_nonneg.
Qed.

Lemma fl_nonpos (q : Q) : q <= 0 -> fl q <= 0.
Proof.
  intros H. assert (H' : 0 <= fl (- q)) by (apply fl_nonneg; lra).
  rewrite fl_opp in H'. lra.
Qed.

(** Rounding keeps the order. *)
Lemma fl_mono (p q : Q) : p <= q -> fl p <= fl q.
Proof.
  intros H. destruct (sign_cases p) as [Hp | [Hp | Hp]].
  - destruct (sign_cases q) as [Hq | [Hq | Hq]].
    + rewrite (fl_neg_eq p Hp), (fl_neg_eq q Hq).
      assert (fl_pos (- q) <= fl_pos (- p)) by (apply fl_pos_mono; lra). lra.
    + apply Qle_trans with 0; [apply fl_nonpos | apply fl_nonneg]; lra.
    + apply Qle_trans with 0; [apply fl_nonpos | apply fl_nonneg]; lra.
  - rewrite (fl_zero_eq p Hp). apply fl_nonneg. lra.
  - rewrite (fl_pos_eq p Hp), (fl_pos_eq q) by lra. now apply fl_pos_mono.
Qed.

(** A number of binary64 is left as it is, and what [fl] returns is one. *)
Lemma fl_fix (x : Q) : representable x -> fl x == x.
Proof.
  intros (m & e & Hm & He & E). rewrite E.
  destruct (Z.lt_trichotomy m 0) as [H | [H | H]].
  - assert (E' : inject_Z m * 2 ^ e == - (inject_Z (- m) * 2 ^ e))
      by (rewrite inject_Z_opp; ring).
    rewrite E', fl_opp. apply Qopp_comp.
    assert (Hx : 0 < inject_Z (- m) * 2 ^ e).
    { apply Qmult_lt_0_compat; [|apply pow2_pos].
      change 0 with (inject_Z 0). rewrite <- Zlt_Qlt. lia. }
    rewrite (fl_pos_eq _ Hx). apply fl_pos_fix; lia.
  - subst m. rewrite (fl_zero_eq (inject_Z 0 * 2 ^ e)) by ring. ring.
  - assert (Hx : 0 < inject_Z m * 2 ^ e).
    { apply Qmult_lt_0_compat; [|apply pow2_pos].
      change 0 with (inject_Z 0). rewrite <- Zlt_Qlt. lia. }
    rewrite (fl_pos_eq _ Hx). apply fl_pos_fix; lia.
Qed.

Lemma representable_opp (x : Q) : representable x -> representable (- x).
Proof.
  intros (m & e & Hm & He & E). exists (- m)%Z, e. split; [lia|]. split; [exact He|].
  rewrite E, inject_Z_opp. ring.
Qed.

Lemma fl_representable (x : Q) : representable (fl x).
Proof.
  destruct (sign_cases x) as [H | [H | H]].
  - rewrite (fl_neg_eq x H). apply representable_opp, fl_pos_representable. lra.
  - rewrite (fl_zero_eq x H). exists 0%Z, 0%Z. repeat split; lia.
  - rewrite (fl_pos_eq x H). now apply fl_pos_representable.
Qed.

Lemma fl_idempotent (x : Q) : fl (fl x) == fl x.
Proof. apply fl_fix, fl_representable. Qed.

(** Integers up to [2 ^ 53], and their halves and quarters, are numbers of
    binary64. *)
Lemma representable_Z_shift (z k : Z) :
  (Z.abs z <= 2 ^ 53)%Z -> (-1074 <= k)%Z -> representable (inject_Z z * 2 ^ k).
Proof.
  intros Hz Hk. destruct (Z.eq_dec (Z.abs z) (2 ^ 53)%Z) as [E|N].
  - exists (z / 2)%Z, (k + 1)%Z.
    assert (z = 2 ^ 53 \/ z = - 2 ^ 53)%Z as [-> | ->] by lia.
    + split; [now vm_compute|]. split; [lia|]. rewrite pow2_succ.
      change (inject_Z (2 ^ 53)) with (2 * inject_Z (2 ^ 53 / 2)). ring.
    + split; [now vm_compute|]. split; [lia|]. rewrite pow2_succ.
      change (inject_Z (- 2 ^ 53)) with (2 * inject_Z (- 2 ^ 53 / 2)). ring.
  - exists z, k. split; [lia|]. split; [exact Hk | reflexivity].
Qed.

Lemma representable_Z (z : Z) : (Z.abs z <= 2 ^ 53)%Z -> representable (inject_Z z).
Proof.
  intros Hz. destruct (representable_Z_shift z 0 Hz ltac:(lia)) as (m & e & Hm & He & E).
  exists m, e. split; [exact Hm|]. split; [exact He|]. rewrite <- E.
  change (2 ^ 0) with 1. ring.
Qed.

Lemma fl_Z (z : Z) : (Z.abs z <= 2 ^ 53)%Z -> fl (inject_Z z) == inject_Z z.
Proof. intros Hz. apply fl_fix, representable_Z, Hz. Qed.

Lemma fl_error (x : Q) :
  2 ^ (-1022) <= Qabs x -> Qabs (fl x - x) <= 2 ^ (-53) * Qabs x.
Proof.
  intros Hn. pose proof (pow2_pos (-1022)) as P.
  destruct (sign_cases x) as [H | [H | H]].
  - rewrite (Qabs_neg x) in * by lra. rewrite (fl_neg_eq x H).
    assert (E : - fl_pos (- x) - x == - (fl_pos (- x) - - x)) by ring.
    rewrite E, Qabs_opp. now apply fl_pos_error.
  - rewrite H in Hn. change (Qabs 0) with 0 in Hn. lra.
  - rewrite (Qabs_pos x) in * by lra. rewrite (fl_pos_eq x H). now apply fl_pos_error.
Qed.

Lemma fl_pos_normal (x : Q) : 2 ^ (-1022) <= x -> 0 < fl x.
Proof.
  intros Hn. pose proof (pow2_pos (-1022)) as P. pose proof (pow2_pos (-53)) as P'.
  assert (Hx : 0 < x) by lra.
  pose proof (fl_error x) as E. rewrite (Qabs_pos x) in E by lra. specialize (E Hn).
  apply Qabs_Qle_condition in E.
  assert (2 ^ (-53) * x <= (1 # 2) * x).
  { apply Qmult_le_compat_r; [|lra]. now vm_compute. }
  lra.
Qed.

(** On a table of inputs the computations of the code give the same with
    [fl] as with the binary64 floats of the kernel. *)
Lemma binary64_agrees_with_kernel_floats :
  forallb (fun a => forallb (agree a) (Zseq 29 39)) (Zseq 76 25) = true.
Proof. vm_compute. reflexivity. Qed.

End Binary64Facts.

Section GeometryProperties.
Import JS Types Geometry.
Local Open Scope Q_scope.

Lemma ready_Some (ar : Q) (dims : LayerDimensions) :
  truthy ar = true -> ready (Some ar) (Some dims) = Some (ar, dims).
Proof. intros H. unfold ready. now rewrite H. Qed.

Lemma truthy_nonzero (ar : Q) : truthy ar = true <-> ~ ar == 0.
Proof.
  unfold truthy. rewrite negb_true_iff, <- not_true_iff_false, Qeq_bool_iff.
  reflexivity.
Qed.

(** An update that carries nothing leaves the transform as it was. *)
Lemma empty_update_is_identity (ar : option Q) (dims : option LayerDimensions)
    (prev : VideoTransform) :
  handleTransformChange ar dims emptyPartial prev = prev.
Proof.
  unfold handleTransformChange. destruct (ready ar dims) as [[? ?]|]; [|reflexivity].
  now destruct prev.
Qed.

(** C10: while the aspect ratio of the foreground or the dimensions of the
    surface are still missing, an update of the transform is dropped: the
    transform, every field of it, stays as it was. *)
Theorem update_dropped_until_ready (topLayerAspectRatio : option Q)
    (bottomLayerDimensions : option LayerDimensions)
    (p : PartialTransform) (prev : VideoTransform) :
  topLayerAspectRatio = None \/ bottomLayerDimensions = None ->
  let t' := handleTransformChange topLayerAspectRatio bottomLayerDimensions p prev in
  t' = prev /\
  vt_x t' = vt_x prev /\ vt_y t' = vt_y prev /\
  vt_width t' = vt_width prev /\ vt_height t' = vt_height prev /\
  vt_size t' = vt_size prev.
Proof.
  intros H t'.
  assert (E : t' = prev).
  { subst t'. unfold handleTransformChange, ready.
    destruct H as [-> | ->]; [reflexivity|].
    now destruct topLayerAspectRatio. }
  rewrite E. repeat split.
Qed.

Lemma update_dropped_until_ready_witness :
  handleTransformChange None (Some (mkDims 800 600))
    (mkPartial (Some 5) (Some 6) None None (Some 150)) initialVideoTransform
  = initialVideoTransform.
Proof.
  apply (update_dropped_until_ready None (Some (mkDims 800 600))
           (mkPartial (Some 5) (Some 6) None None (Some 150)) initialVideoTransform).
  left. reflexivity.
Defined.

End GeometryProperties.

Section Geometry64Properties.
Import JS Types Geometry Binary64 Geometry64 GeometryInvariants.
Local Open Scope Q_scope.

#[global] Instance fadd_Proper : Proper (Qeq ==> Qeq ==> Qeq) fadd.
Proof. intros a a' Ea b b' Eb. unfold fadd. now rewrite Ea, Eb. Qed.

#[global] Instance fsub_Proper : Proper (Qeq ==> Qeq ==> Qeq) fsub.
Proof. intros a a' Ea b b' Eb. unfold fsub. now rewrite Ea, Eb. Qed.

#[global] Instance fmul_Proper : Proper (Qeq ==> Qeq ==> Qeq) fmul.
Proof. intros a a' Ea b b' Eb. unfold fmul. now rewrite Ea, Eb. Qed.

#[global] Instance fdiv_Proper : Proper (Qeq ==> Qeq ==> Qeq) fdiv.
Proof. intros a a' Ea b b' Eb. unfold fdiv. now rewrite Ea, Eb. Qed.

(** Halving and quartering an integer up to [2 ^ 53] is exact. *)
Lemma fl_half (z : Z) : (Z.abs z <= 2 ^ 53)%Z -> fl (inject_Z z / 2) == inject_Z z / 2.
Proof.
  intros Hz. apply fl_fix.
  destruct (representable_Z_shift z (-1) Hz ltac:(lia)) as (m & e & Hm & He & E).
  exists m, e. split; [exact Hm|]. split; [exact He|]. rewrite <- E.
  change (2 ^ (-1)) with (1 # 2). field.
Qed.

Lemma fl_quarter (z : Z) : (Z.abs z <= 2 ^ 53)%Z -> fl (inject_Z z / 4) == inject_Z z / 4.
Proof.
  intros Hz. apply fl_fix.
  destruct (representable_Z_shift z (-2) Hz ltac:(lia)) as (m & e & Hm & He & E).
  exists m, e. split; [exact Hm|]. split; [exact He|]. rewrite <- E.
  change (2 ^ (-2)) with (1 # 4). field.
Qed.

(** Where a tie of [Math.round] is near, the rounding of binary64 decides:
    on a 800x600 surface a 80x67 foreground is centred at y = 132 and a
    400x9 foreground at y = 296, and on a surface 100 wide the size 29 gives
    the width 14; the exact operations give 133 and 15 in the first and the
    last case. *)
Example rounding_decides_near_ties :
  vt_y (loadLayers (HTMLImageElement 800 600) (HTMLImageElement 80 67)) = 132 /\
  vt_y (loadLayers (HTMLImageElement 800 600) (HTMLImageElement 400 9)) = 296 /\
  vt_width (handleTransformChange (Some 1) (Some (mkDims 100 100))
              (mkPartial None None None None (Some 29)) initialVideoTransform) = 14 /\
  vt_y (Geometry.resetTransformEffect
          (Geometry.handleTopLayerLoad (Some (HTMLImageElement 80 67)) None)
          (Some (mkDims 800 600)) initialVideoTransform) = 133 /\
  vt_width (Geometry.handleTransformChange (Some 1) (Some (mkDims 100 100))
              (mkPartial None None None None (Some 29)) initialVideoTransform) = 15.
Proof. repeat split; now vm_compute. Qed.

(** C2, as stated: a 800x600 background and a 400x400 foreground do not
    give {x:200, y:175, width:400, height:400, size:100}; the code centres
    the 400 pixel high layer at y = (600 - 400) / 2 = 100. *)
Lemma scenario_800x600_400x400_y_is_not_175 :
  loadLayers (HTMLImageElement 800 600) (HTMLImageElement 400 400)
  <> mkTransform 200 175 400 400 100.
Proof. vm_compute. discriminate. Qed.

(** The stated formulas, read on the rounded fields, fail as well: with a
    800x600 background and a 300x100 foreground the code centres the
    unrounded height 400/3 and gets y = 233, while the rounded height 133
    would give 234. *)
Example initial_transform_not_centred_on_rounded_fields :
  let dims := mkDims 800 600 in
  let ar := 3 in
  handleBottomLayerLoad (Some (HTMLImageElement 800 600)) None = Some dims /\
  handleTopLayerLoad (Some (HTMLImageElement 300 100)) None = Some ar /\
  vt_y (resetTransformEffect (Some ar) (Some dims) initialVideoTransform) = 233 /\
  ~ centred_on_rounded_fields dims ar
      (resetTransformEffect (Some ar) (Some dims) initialVideoTransform).
Proof.
  cbv zeta. split; [reflexivity|]. split; [now vm_compute|]. split; [now vm_compute|].
  intros (_ & _ & _ & _ & Hy). vm_compute in Hy. discriminate Hy.
Qed.

(** C2, amended: a loading foreground resets the transform to size 100,
    width round(W * 0.5), height round((W * 0.5) / ar),
    x = round((W - W * 0.5) / 2) and y = round((H - (W * 0.5) / ar) / 2),
    every operation being the one of binary64: height and centring are
    computed from the unrounded width and height.  All four pixel values
    are integers; the stated formulas hold on the fields themselves
    whenever W * 0.5 and (W * 0.5) / ar need no rounding; on a surface whose
    width is an integer W the width is round(W / 2) and x is round(W / 4),
    exactly; and 800x600 with 400x400 gives
    {x:200, y:100, width:400, height:400, size:100}. *)
Theorem initial_transform_from_unrounded (dims : LayerDimensions) (ar : Q)
    (prev : VideoTransform) :
  truthy ar = true ->
  let t := resetTransformEffect (Some ar) (Some dims) prev in
  let w := fmul (ld_width dims) (1 # 2) in
  let h := fdiv w ar in
  (vt_size t = 100 /\
   vt_width t = Math_round w /\
   vt_height t = Math_round h /\
   vt_x t = Math_round (fdiv (fsub (ld_width dims) w) 2) /\
   vt_y t = Math_round (fdiv (fsub (ld_height dims) h) 2)) /\
  (is_integer (vt_x t) /\ is_integer (vt_y t) /\
   is_integer (vt_width t) /\ is_integer (vt_height t)) /\
  (is_integer w -> is_integer h -> centred_on_rounded_fields dims ar t) /\
  (forall W : Z, (0 <= W <= 2 ^ 53)%Z -> ld_width dims == inject_Z W ->
     vt_width t = Math_round (inject_Z W / 2) /\
     vt_x t = Math_round (inject_Z W / 4)) /\
  loadLayers (HTMLImageElement 800 600) (HTMLImageElement 400 400)
  = mkTransform 200 100 400 400 100.
Proof.
  intros Har t w h. subst t. unfold resetTransformEffect.
  rewrite (ready_Some _ _ Har).
  cbn [deriveInitialTransform vt_size vt_width vt_height vt_x vt_y].
  fold w. fold h.
  split; [repeat split|]. split; [repeat split; apply Math_round_is_integer|].
  split; [|split; [|now vm_compute]].
  - intros Hw Hh. unfold centred_on_rounded_fields.
    cbn [deriveInitialTransform vt_size vt_width vt_height vt_x vt_y]. fold w. fold h.
    pose proof (Math_round_of_integer _ Hw) as Ew.
    pose proof (Math_round_of_integer _ Hh) as Eh.
    assert (E1 : Math_round (fdiv (Math_round w) ar) = Math_round h)
      by (apply Math_round_comp; unfold h; now rewrite Ew).
    assert (E2 : Math_round (fdiv (fsub (ld_width dims) (Math_round w)) 2)
                 = Math_round (fdiv (fsub (ld_width dims) w) 2))
      by (apply Math_round_comp; now rewrite Ew).
    assert (E3 : Math_round (fdiv (fsub (ld_height dims) (Math_round h)) 2)
                 = Math_round (fdiv (fsub (ld_height dims) h) 2))
      by (apply Math_round_comp; now rewrite Eh).
    rewrite E1, E2, E3. repeat split; apply Qeq_refl.
  - intros W HW EW.
    assert (Ew : w == inject_Z W / 2).
    { unfold w, fmul. rewrite EW.
      assert (E : inject_Z W * (1 # 2) == inject_Z W / 2) by field.
      rewrite E. apply fl_half. lia. }
    split; [now apply Math_round_comp|].
    apply Math_round_comp. unfold fdiv, fsub. rewrite Ew, EW.
    assert (E : inject_Z W - inject_Z W / 2 == inject_Z W / 2) by field.
    rewrite E, fl_half by lia.
    assert (E' : inject_Z W / 2 / 2 == inject_Z W / 4) by field.
    rewrite E'. apply fl_quarter. lia.
Qed.

Lemma initial_transform_from_unrounded_witness :
  truthy 3 = true /\
  vt_y (resetTransformEffect (Some 3) (Some (mkDims 800 600)) initialVideoTransform)
  = Math_round (fdiv (fsub 600 (fdiv (fmul 800 (1 # 2)) 3)) 2).
Proof.
  split; [reflexivity|].
  apply (initial_transform_from_unrounded (mkDims 800 600) 3 initialVideoTransform).
  reflexivity.
Defined.

(** C3, as stated: the width and height after a change of size are not the
    rounded width and height of the initial derivation scaled by s/100.  On
    a surface 801 pixels wide with a foreground of aspect ratio 3 the
    initial derivation gives 401x134; at size 200 the code gives 801x267,
    not 802x268. *)
Lemma size_update_is_not_the_rounded_baseline_scaled :
  let dims := mkDims 801 600 in
  let initial := deriveInitialTransform dims 3 in
  let t' := handleTransformChange (Some 3) (Some dims)
              (mkPartial None None None None (Some 200)) initial in
  handleTopLayerLoad (Some (HTMLImageElement 300 100)) None = Some 3 /\
  vt_width initial = 401 /\ vt_height initial = 134 /\
  vt_width t' = 801 /\ vt_height t' = 267 /\
  ~ rounded_baseline_scaled dims 3 200 t'.
Proof.
  cbv zeta. repeat (split; [now vm_compute|]).
  intros [Hw _]. vm_compute in Hw. discriminate Hw.
Qed.

(** The width a change of size computes is the exact [W * S / 200] rounded
    to a nearest integer, for a surface [W] pixels wide and a size [S] of
    the slider. *)
Lemma size_update_width_accurate (W S : Z) :
  (0 <= W <= 2 ^ 32)%Z -> (0 <= S <= 200)%Z ->
  Qabs (Math_round (fmul (fmul (inject_Z W) (1 # 2)) (fdiv (inject_Z S) 100))
        - inject_Z W * inject_Z S / 200) <= 1 # 2.
Proof.
  intros HW HS.
  assert (Eb : fmul (inject_Z W) (1 # 2) == inject_Z W / 2).
  { unfold fmul. assert (E : inject_Z W * (1 # 2) == inject_Z W / 2) by field.
    rewrite E. apply fl_half. lia. }
  assert (QW : 0 <= inject_Z W) by (change 0 with (inject_Z 0); rewrite <- Zle_Qle; lia).
  assert (QS : 0 <= inject_Z S) by (change 0 with (inject_Z 0); rewrite <- Zle_Qle; lia).
  assert (QW' : inject_Z W <= 4294967296)
    by (change 4294967296 with (inject_Z (2 ^ 32)); rewrite <- Zle_Qle; lia).
  assert (QS' : inject_Z S <= 200)
    by (change 200 with (inject_Z 200); rewrite <- Zle_Qle; lia).
  set (x1 := inject_Z S / 100).
  set (r := fdiv (inject_Z S) 100).
  set (nw := fmul (fmul (inject_Z W) (1 # 2)) r).
  set (v := inject_Z W * inject_Z S / 200).
  (* the error of the product is far below 1/400 *)
  assert (D : Qabs (nw - v) <= 1 # 1000).
  { destruct (Z.eq_dec S 0%Z) as [-> | NS].
    { assert (E : nw == 0).
      { unfold nw, r, fmul, fdiv. rewrite (fl_zero_eq (inject_Z 0 / 100)) by reflexivity.
        apply fl_zero. ring. }
      assert (E' : v == 0) by (unfold v; change (inject_Z 0) with 0; field).
      rewrite E, E'. discriminate. }
    destruct (Z.eq_dec W 0%Z) as [-> | NW].
    { assert (E : nw == 0).
      { unfold nw, fmul at 1. rewrite Eb. apply fl_zero.
        change (inject_Z 0) with 0. field. }
      assert (E' : v == 0) by (unfold v; change (inject_Z 0) with 0; field).
      rewrite E, E'. discriminate. }
    assert (QS1 : 1 <= inject_Z S) by (change 1 with (inject_Z 1); rewrite <- Zle_Qle; lia).
    assert (QW1 : 1 <= inject_Z W) by (change 1 with (inject_Z 1); rewrite <- Zle_Qle; lia).
    assert (P9 : 2 ^ (-1022) <= 1 # 512).
    { change (1 # 512) with (2 ^ (-9)). apply pow2_le. lia. }
    assert (Hx1 : (1 # 100) <= x1) by (unfold x1; apply Qle_shift_div_l; lra).
    assert (Hx1' : x1 <= 2) by (unfold x1; apply Qle_shift_div_r; lra).
    pose proof (fl_error x1) as E1. rewrite (Qabs_pos x1) in E1 by lra.
    specialize (E1 ltac:(lra)). change (fl x1) with r in E1.
    change (2 ^ (-53)) with (1 # 9007199254740992) in E1.
    apply Qabs_Qle_condition in E1.
    set (b := inject_Z W / 2) in *.
    assert (Hb : (1 # 2) <= b) by (unfold b; apply Qle_shift_div_l; lra).
    assert (Hb' : b <= 2147483648) by (unfold b; apply Qle_shift_div_r; lra).
    assert (Ev : v == b * x1) by (unfold v, b, x1; field).
    assert (Hv : v <= 4294967296).
    { rewrite Ev. apply Qle_trans with (2147483648 * x1).
      - apply Qmult_le_compat_r; lra.
      - lra. }
    assert (Hv0 : 0 <= v) by (rewrite Ev; apply Qmult_le_0_compat; lra).
    set (x2 := b * r).
    assert (B1 : b * (- ((1 # 9007199254740992) * x1)) <= b * (r - x1))
      by (apply Qmult_le_l; lra).
    assert (B2 : b * (r - x1) <= b * ((1 # 9007199254740992) * x1))
      by (apply Qmult_le_l; lra).
    assert (Ex2 : x2 - v == b * (r - x1)) by (rewrite Ev; unfold x2; ring).
    assert (Eu : b * ((1 # 9007199254740992) * x1) == (1 # 9007199254740992) * v)
      by (rewrite Ev; ring).
    assert (Eu' : b * (- ((1 # 9007199254740992) * x1)) == - ((1 # 9007199254740992) * v))
      by (rewrite Ev; ring).
    rewrite Eu' in B1. rewrite Eu in B2. rewrite <- Ex2 in B1, B2.
    assert (Hr : (1 # 200) <= r) by lra.
    assert (Hx2 : (1 # 400) <= x2).
    { unfold x2. apply Qle_trans with ((1 # 2) * r); [lra|].
      apply Qmult_le_compat_r; lra. }
    pose proof (fl_error x2) as E2. rewrite (Qabs_pos x2) in E2 by lra.
    specialize (E2 ltac:(lra)).
    change (2 ^ (-53)) with (1 # 9007199254740992) in E2.
    apply Qabs_Qle_condition in E2.
    assert (Enw : nw == fl x2).
    { unfold nw, fmul at 1. now rewrite Eb. }
    rewrite <- Enw in E2.
    apply Qabs_Qle_condition. split; lra. }
  apply Qabs_Qle_condition in D.
  destruct (Math_round_near nw) as [R1 R2].
  unfold Math_round in *. set (nz := Qfloor (nw + (1 # 2))) in *.
  assert (Ev : v == inject_Z (W * S) / 200) by (unfold v; rewrite inject_Z_mult; reflexivity).
  assert (Ez : inject_Z (400 * nz - 2 * (W * S))
               == 400 * inject_Z nz - 2 * inject_Z (W * S)).
  { unfold Zminus. rewrite inject_Z_plus, inject_Z_opp, !inject_Z_mult. reflexivity. }
  assert (Ev' : 2 * inject_Z (W * S) == 400 * v) by (rewrite Ev; field).
  assert (Hz : (-201 < 400 * nz - 2 * (W * S) < 201)%Z).
  { split; rewrite Zlt_Qlt, Ez, Ev'.
    - change (inject_Z (-201)) with (-201). lra.
    - change (inject_Z 201) with 201. lra. }
  assert (Hz' : (-200 <= 400 * nz - 2 * (W * S) <= 200)%Z) by lia.
  destruct Hz' as [Z1 Z2]. rewrite Zle_Qle in Z1, Z2. rewrite Ez, Ev' in Z1, Z2.
  change (inject_Z (-200)) with (-200) in Z1. change (inject_Z 200) with 200 in Z2.
  apply Qabs_Qle_condition. split; lra.
Qed.

(** C3, amended: an update that carries size = s sets the width to
    round((W * 0.5) * (s / 100)) and the height to that product, unrounded,
    divided by the aspect ratio and rounded (every operation being the one
    of binary64), whatever the previous transform was and whatever else the
    update carries; x and y stay as they were unless the update carries
    them; at s = 100 width and height are those of the initial derivation;
    and for a surface W pixels wide and a size S of the slider the width is
    the exact W * S / 200 rounded to a nearest integer. *)
Theorem size_update_scales_baseline (ar : Q) (dims : LayerDimensions)
    (p : PartialTransform) (prev : VideoTransform) (s : Q) :
  truthy ar = true ->
  pt_size p = Some s ->
  let t' := handleTransformChange (Some ar) (Some dims) p prev in
  let baseWidth := fmul (ld_width dims) (1 # 2) in
  let newWidth := fmul baseWidth (fdiv s 100) in
  vt_width t' = Math_round newWidth /\
  vt_height t' = Math_round (fdiv newWidth ar) /\
  vt_size t' = s /\
  (forall prev' : VideoTransform,
     vt_width (handleTransformChange (Some ar) (Some dims) p prev') = vt_width t' /\
     vt_height (handleTransformChange (Some ar) (Some dims) p prev') = vt_height t') /\
  (pt_x p = None -> vt_x t' = vt_x prev) /\
  (pt_y p = None -> vt_y t' = vt_y prev) /\
  (s == 100 ->
     vt_width t' = vt_width (deriveInitialTransform dims ar) /\
     vt_height t' = vt_height (deriveInitialTransform dims ar)) /\
  (forall W S : Z,
     (0 <= W <= 2 ^ 32)%Z -> (0 <= S <= 200)%Z ->
     ld_width dims == inject_Z W -> s == inject_Z S ->
     Qabs (vt_width t' - inject_Z W * inject_Z S / 200) <= 1 # 2).
Proof.
  intros Har Hs t' baseWidth newWidth. subst t'.
  unfold handleTransformChange. rewrite (ready_Some _ _ Har), Hs.
  cbn [vt_x vt_y vt_width vt_height vt_size spread]. rewrite Hs.
  fold baseWidth. fold newWidth.
  split; [reflexivity|]. split; [reflexivity|]. split; [reflexivity|].
  split; [intros prev'; split; reflexivity|].
  split; [intros Hx; now rewrite Hx|]. split; [intros Hy; now rewrite Hy|]. split.
  - intros H100.
    assert (E : newWidth == baseWidth).
    { unfold newWidth, fmul at 1, fdiv.
      assert (E1 : s / 100 == 1) by (rewrite H100; reflexivity).
      rewrite E1. change (fl 1) with 1.
      assert (E2 : baseWidth * 1 == baseWidth) by ring.
      rewrite E2. apply fl_idempotent. }
    cbn [deriveInitialTransform vt_width vt_height]. fold baseWidth.
    split; apply Math_round_comp; [exact E | now rewrite E].
  - intros W S HW HS EW ES.
    assert (E : Math_round newWidth
                = Math_round (fmul (fmul (inject_Z W) (1 # 2)) (fdiv (inject_Z S) 100))).
    { apply Math_round_comp. unfold newWidth, baseWidth. now rewrite EW, ES. }
    rewrite E. now apply size_update_width_accurate.
Qed.

Lemma size_update_scales_baseline_witness :
  let prev := mkTransform (-40) 7 123 456 100 in
  let t' := handleTransformChange (Some 3) (Some (mkDims 800 600))
              (mkPartial None None None None (Some 150)) prev in
  vt_width t' = 600 /\ vt_height t' = 200 /\ vt_x t' = -40 /\ vt_y t' = 7.
Proof.
  cbv zeta.
  destruct (size_update_scales_baseline 3 (mkDims 800 600)
              (mkPartial None None None None (Some 150))
              (mkTransform (-40) 7 123 456 100) 150 eq_refl eq_refl)
    as (Hw & Hh & _ & _ & Hx & Hy & _).
  rewrite Hw, Hh, (Hx eq_refl), (Hy eq_refl).
  split. vm_compute. reflexivity. split. vm_compute. reflexivity. split; reflexivity.
Defined.

End Geometry64Properties.

Section ControlsProperties.
Import JS Types Geometry VideoControls Drag Scenarios.
Local Open Scope Q_scope.


Lemma percentInput_x (ar : Q) (dims : LayerDimensions) (t : VideoTransform) (v : Q) :
  truthy ar = true ->
  vt_x (percentInput (Some ar) (Some dims) lr_pos_percent (Some v) t)
  = (if Qle_bool (ld_width dims - vt_width t) 0 then (ld_width dims - vt_width t) / 2
     else Math_round (v / 100 * (ld_width dims - vt_width t))).
Proof.
  intros Har. unfold percentInput, handlePercentageInputChange, handleTransformChange.
  rewrite (ready_Some _ _ Har). reflexivity.
Qed.

Lemma percentInput_y (ar : Q) (dims : LayerDimensions) (t : VideoTransform) (v : Q) :
  truthy ar = true ->
  vt_y (percentInput (Some ar) (Some dims) ud_pos_percent (Some v) t)
  = (if Qle_bool (ld_height dims - vt_height t) 0 then (ld_height dims - vt_height t) / 2
     else Math_round (v / 100 * (ld_height dims - vt_height t))).
Proof.
  intros Har. unfold percentInput, handlePercentageInputChange, handleTransformChange.
  rewrite (ready_Some _ _ Har). reflexivity.
Qed.


(** The drag and the hit test of the specification: a drag that started at
    (100, 100) on a layer at (20, 30) and moves to (130, 115) asks for
    (50, 45); in the rectangle {x:10, y:10, width:50, height:50} the point
    (60, 60) is inside and (61, 10) is outside. *)
Example drag_math_and_hit_test :
  handleDragMove true (Some (mkDragStart 100 100 20 30)) (Some (mkPos 130 115))
  = Some (mkPartial (Some 50) (Some 45) None None None) /\
  isPointInTopLayer (mkTransform 10 10 50 50 100) (mkPos 60 60) = true /\
  isPointInTopLayer (mkTransform 10 10 50 50 100) (mkPos 61 10) = false.
Proof. repeat split. Qed.


(** The one-decimal display costs up to 0.05% of the movable range: on a
    3840 pixel wide surface with a 192 pixel wide layer the offset 2 is
    shown as 0.1% and comes back as 4. *)
Example percent_round_trip_coarse_on_wide_surface :
  let dims := mkDims 3840 2160 in
  let t := mkTransform 2 0 192 108 10 in
  percentDisplayEffect (Some (16 / 9)) (Some dims) false t None
  = Some (toFixed1 (1 # 10), toFixed1 0) /\
  vt_x (percentRoundTrip (Some (16 / 9)) (Some dims) lr_pos_percent t) = 4.
Proof. cbv zeta. split; reflexivity. Qed.



(** C7 fails on the code: entering 50 in the up/down field of
    [tallerThanSurface] writes y = (599 - 600) / 2 = -0.5 into the transform;
    the branch for a movable range that is not positive has no [Math.round].
    (Every number of this scenario is exact in binary64.) *)
Theorem percent_input_writes_half_pixel :
  let dims := mkDims 800 599 in
  tallerThanSurface = mkTransform 200 100 600 600 150 /\
  vt_y (percentInput (Some 1) (Some dims) ud_pos_percent (Some 50) tallerThanSurface)
  = (-1 # 2) /\
  ~ is_integer
      (vt_y (percentInput (Some 1) (Some dims) ud_pos_percent (Some 50) tallerThanSurface)).
Proof.
  cbv zeta. split; [reflexivity|].
  assert (E : vt_y (percentInput (Some 1) (Some (mkDims 800 599)) ud_pos_percent
                      (Some 50) tallerThanSurface) = (-1 # 2)) by reflexivity.
  split; [exact E|]. rewrite E.
  intros [z Hz]. unfold Qeq in Hz. cbn in Hz. lia.
Qed.

(** Every other pixel value written into the transform is rounded: width and
    height on a change of size, x and y of a drag, and the position entered
    as a percentage when the movable range is positive. *)
Lemma other_pixel_writes_are_rounded (ar : Q) (dims : LayerDimensions)
    (t : VideoTransform) :
  truthy ar = true ->
  (forall p s, pt_size p = Some s ->
     is_integer (vt_width (handleTransformChange (Some ar) (Some dims) p t)) /\
     is_integer (vt_height (handleTransformChange (Some ar) (Some dims) p t))) /\
  (forall d pos p, handleDragMove true (Some d) (Some pos) = Some p ->
     is_integer (vt_x (handleTransformChange (Some ar) (Some dims) p t)) /\
     is_integer (vt_y (handleTransformChange (Some ar) (Some dims) p t))) /\
  (forall v, 0 < ld_width dims - vt_width t ->
     is_integer (vt_x (percentInput (Some ar) (Some dims) lr_pos_percent (Some v) t))) /\
  (forall v, 0 < ld_height dims - vt_height t ->
     is_integer (vt_y (percentInput (Some ar) (Some dims) ud_pos_percent (Some v) t))).
Proof.
  intros Har. split; [|split; [|split]].
  - intros p s Hs. unfold handleTransformChange. rewrite (ready_Some _ _ Har), Hs.
    split; apply Math_round_is_integer.
  - intros d pos p Hp. cbn in Hp. injection Hp as <-.
    unfold handleTransformChange. rewrite (ready_Some _ _ Har).
    split; apply Math_round_is_integer.
  - intros v Hpos. rewrite (percentInput_x _ _ _ _ Har).
    apply Qle_bool_false in Hpos. rewrite Hpos. apply Math_round_is_integer.
  - intros v Hpos. rewrite (percentInput_y _ _ _ _ Har).
    apply Qle_bool_false in Hpos. rewrite Hpos. apply Math_round_is_integer.
Qed.

End ControlsProperties.

Section HexProperties.
Import Types Hex.

Lemma hexDigits_step (fuel : nat) (q d : Z) (acc : string) :
  0 <= d < 16 -> 0 < q ->
  hexDigits (S fuel) (q * 16 + d) acc = hexDigits fuel q (String (digitChar d) acc).
Proof.
  intros Hd Hq. cbn [hexDigits].
  replace ((q * 16 + d) mod 16) with d by (rewrite Z.add_comm, Z.mod_add; [now rewrite Z.mod_small|lia]).
  replace ((q * 16 + d) / 16) with q by (rewrite Z.add_comm, Z.div_add; [rewrite Z.div_small; lia|lia]).
  destruct (Z.eqb_spec q 0); [lia|reflexivity].
Qed.

Lemma hexDigits_last (fuel : nat) (d : Z) (acc : string) :
  0 <= d < 16 -> hexDigits (S fuel) d acc = String (digitChar d) acc.
Proof.
  intros Hd. cbn [hexDigits]. rewrite Z.div_small by lia. cbn.
  now rewrite Z.mod_small.
Qed.

Lemma nibble_cases (d : Z) (P : Z -> Prop) :
  0 <= d < 16 ->
  P 0 -> P 1 -> P 2 -> P 3 -> P 4 -> P 5 -> P 6 -> P 7 ->
  P 8 -> P 9 -> P 10 -> P 11 -> P 12 -> P 13 -> P 14 -> P 15 -> P d.
Proof.
  intros Hd. intros.
  assert (d = 0 \/ d = 1 \/ d = 2 \/ d = 3 \/ d = 4 \/ d = 5 \/ d = 6 \/ d = 7 \/
          d = 8 \/ d = 9 \/ d = 10 \/ d = 11 \/ d = 12 \/ d = 13 \/ d = 14 \/ d = 15)
    as C by lia.
  repeat (destruct C as [-> | C]; [assumption|]). now subst.
Qed.

Lemma hexValue_upper_digit (d : Z) :
  0 <= d < 16 ->
  hexValue (upperChar (digitChar d)) = Some d /\ upperChar (digitChar d) <> "#"%char.
Proof.
  intros Hd. pattern d. apply nibble_cases; [exact Hd|..]; split; (reflexivity || discriminate).
Qed.

Lemma shl_small (a n : Z) :
  0 <= n < 32 -> 0 <= a * 2 ^ n < 2 ^ 31 -> shl a n = a * 2 ^ n.
Proof.
  intros Hn Ha.
  assert (Hp : 1 <= 2 ^ n) by (apply (Z.pow_le_mono_r 2 0 n); lia).
  assert (Hsmall : forall z, 0 <= z < 2 ^ 31 -> toInt32 z = z).
  { intros z Hz. unfold toInt32. rewrite Z.mod_small; lia. }
  unfold shl. rewrite (Z.mod_small n 32) by lia.
  rewrite (Hsmall a) by nia.
  rewrite Z.shiftl_mul_pow2 by lia. now apply Hsmall.
Qed.

Lemma toString16_rgb (r g b : Z) :
  0 <= r <= 255 -> 0 <= g <= 255 -> 0 <= b <= 255 ->
  toString16 (shl 1 24 + shl r 16 + shl g 8 + b)
  = String "1"%char
      (String (digitChar (r / 16)) (String (digitChar (r mod 16))
      (String (digitChar (g / 16)) (String (digitChar (g mod 16))
      (String (digitChar (b / 16)) (String (digitChar (b mod 16)) EmptyString)))))).
Proof.
  intros Hr Hg Hb.
  rewrite !shl_small by lia.
  set (n := 1 * 2 ^ 24 + r * 2 ^ 16 + g * 2 ^ 8 + b).
  assert (Hn : 2 ^ 24 <= n < 2 ^ 25) by (subst n; lia).
  unfold toString16. destruct (Z.ltb_spec n 0); [lia|].
  assert (Z.log2 n = 24) as -> by (apply Z.log2_unique; lia).
  change (S (Z.to_nat 24)) with (7 + 18)%nat.
  pose proof (Z.div_mod r 16 ltac:(lia)) as Er.
  pose proof (Z.div_mod g 16 ltac:(lia)) as Eg.
  pose proof (Z.div_mod b 16 ltac:(lia)) as Eb.
  pose proof (Z.mod_pos_bound r 16 ltac:(lia)).
  pose proof (Z.mod_pos_bound g 16 ltac:(lia)).
  pose proof (Z.mod_pos_bound b 16 ltac:(lia)).
  assert (0 <= r / 16 < 16) by (split; [apply Z.div_pos; lia | apply Z.div_lt_upper_bound; lia]).
  assert (0 <= g / 16 < 16) by (split; [apply Z.div_pos; lia | apply Z.div_lt_upper_bound; lia]).
  assert (0 <= b / 16 < 16) by (split; [apply Z.div_pos; lia | apply Z.div_lt_upper_bound; lia]).
  replace n with
    ((((((1 * 16 + r / 16) * 16 + r mod 16) * 16 + g / 16) * 16 + g mod 16) * 16
      + b / 16) * 16 + b mod 16) by (subst n; lia).
  cbn [Nat.add].
  rewrite !hexDigits_step by lia.
  rewrite hexDigits_last by lia. reflexivity.
Qed.

(** C9: for channels between 0 and 255, [hexToRgb] reads back from
    [rgbToHex r g b] the triple (r, g, b); the string starts with [#], and
    [hexToRgb] reads the same triple from it without the [#]. *)
Theorem hex_round_trip (r g b : Z) :
  0 <= r <= 255 -> 0 <= g <= 255 -> 0 <= b <= 255 ->
  hexToRgb (rgbToHex r g b) = Some (mkRGB r g b) /\
  rgbToHex r g b = String "#"%char (slice1 (rgbToHex r g b)) /\
  hexToRgb (slice1 (rgbToHex r g b)) = Some (mkRGB r g b).
Proof.
  intros Hr Hg Hb. unfold rgbToHex. rewrite (toString16_rgb r g b Hr Hg Hb).
  cbn [slice1 toUpperCase].
  assert (N : forall x, 0 <= x <= 255 -> 0 <= x / 16 < 16 /\ 0 <= x mod 16 < 16 /\ x / 16 * 16 + x mod 16 = x).
  { intros x Hx. pose proof (Z.div_mod x 16 ltac:(lia)).
    pose proof (Z.mod_pos_bound x 16 ltac:(lia)).
    assert (0 <= x / 16) by (apply Z.div_pos; lia).
    assert (x / 16 < 16) by (apply Z.div_lt_upper_bound; lia).
    lia. }
  destruct (N r Hr) as (Hr1 & Hr0 & Er), (N g Hg) as (Hg1 & Hg0 & Eg), (N b Hb) as (Hb1 & Hb0 & Eb).
  destruct (hexValue_upper_digit _ Hr1) as [V1 F1], (hexValue_upper_digit _ Hr0) as [V2 _],
    (hexValue_upper_digit _ Hg1) as [V3 _], (hexValue_upper_digit _ Hg0) as [V4 _],
    (hexValue_upper_digit _ Hb1) as [V5 _], (hexValue_upper_digit _ Hb0) as [V6 _].
  assert (E : forall hex,
    hex = String (upperChar (digitChar (r / 16))) (String (upperChar (digitChar (r mod 16)))
         (String (upperChar (digitChar (g / 16))) (String (upperChar (digitChar (g mod 16)))
         (String (upperChar (digitChar (b / 16))) (String (upperChar (digitChar (b mod 16))) EmptyString))))) ->
    hexToRgb (String "#"%char hex) = Some (mkRGB r g b) /\ hexToRgb hex = Some (mkRGB r g b)).
  { intros hex ->. unfold hexToRgb, execHex, parseInt16, isHexChar. cbn [forallb].
    set (c1 := upperChar (digitChar (r / 16))) in *.
    assert (X : forall A (u v : A), match c1 with "#"%char => u | _ => v end = v).
    { intros A u v. clear -F1. destruct c1 as [[] [] [] [] [] [] [] []]; try reflexivity. now contradiction F1. }
    rewrite X. rewrite V1, V2, V3, V4, V5, V6. cbn [andb]. cbv beta iota.
    rewrite V1, V2, V3, V4, V5, V6, Er, Eg, Eb. split; reflexivity. }
  destruct (E _ eq_refl) as [E1 E2]. repeat split; assumption.
Qed.

Lemma hexValue_range (c : ascii) (v : Z) : hexValue c = Some v -> 0 <= v <= 15.
Proof.
  unfold hexValue. set (n := Z.of_N (N_of_ascii c)). clearbody n.
  destruct ((48 <=? n) && (n <=? 57)) eqn:E1;
    [|destruct ((97 <=? n) && (n <=? 102)) eqn:E2;
      [|destruct ((65 <=? n) && (n <=? 70)) eqn:E3]];
    intros H; try discriminate H; injection H as <-.
  - apply andb_true_iff in E1. lia.
  - apply andb_true_iff in E2. lia.
  - apply andb_true_iff in E3. lia.
Qed.

Lemma hexToRgb_bytes (hex : string) (c : RGBColor) :
  hexToRgb hex = Some c -> is_byte (r c) /\ is_byte (g c) /\ is_byte (b c).
Proof.
  unfold hexToRgb, parseInt16. destruct (execHex hex) as [[[[c1 c2] [c3 c4]] [c5 c6]]|];
    [|discriminate].
  destruct (hexValue c1) eqn:E1, (hexValue c2) eqn:E2, (hexValue c3) eqn:E3,
    (hexValue c4) eqn:E4, (hexValue c5) eqn:E5, (hexValue c6) eqn:E6;
    try discriminate.
  intros H. injection H as <-. cbn [r g b]. unfold is_byte.
  apply hexValue_range in E1, E2, E3, E4, E5, E6. lia.
Qed.

(** The settings stay in range: the controls hand over a hex string or a
    tolerance of the slider, and a colour that is handed over is one of
    bytes. *)
Lemma handleChromaKeyChange_in_range (newSettings : PartialSettings)
    (prev : ChromaKeySettings) :
  settings_in_range prev ->
  (forall col, ps_color newSettings = Some col ->
     is_byte (r col) /\ is_byte (g col) /\ is_byte (b col)) ->
  (forall t, ps_tolerance newSettings = Some t -> is_byte t) ->
  settings_in_range (handleChromaKeyChange newSettings prev).
Proof.
  intros (Hr & Hg & Hb & Ht) Hcol Htol.
  assert (Ht' : is_byte (default (tolerance prev) (ps_tolerance newSettings))).
  { destruct (ps_tolerance newSettings) as [t|]; [now apply Htol | exact Ht]. }
  assert (Hc' : forall o : option RGBColor,
            (forall col, o = Some col -> is_byte (r col) /\ is_byte (g col) /\ is_byte (b col)) ->
            is_byte (r (default (color prev) o)) /\ is_byte (g (default (color prev) o))
            /\ is_byte (b (default (color prev) o))).
  { intros [col|] H; [now apply H | exact (conj Hr (conj Hg Hb))]. }
  pose proof (Hc' (ps_color newSettings) Hcol) as Hspread.
  unfold handleChromaKeyChange, settings_in_range.
  destruct (ps_hexColor newSettings) as [[|c s]|].
  - destruct (ps_color newSettings) as [col|]; cbn [color tolerance default] in *; tauto.
  - cbn [color tolerance].
    pose proof (Hc' (hexToRgb (String c s)) (hexToRgb_bytes _)). tauto.
  - destruct (ps_color newSettings) as [col|]; cbn [color tolerance default] in *; tauto.
Qed.

Lemma hex_round_trip_witness :
  hexToRgb (rgbToHex 1 2 171) = Some (mkRGB 1 2 171) /\
  rgbToHex 1 2 171 = "#0102AB"%string /\
  hexToRgb "0102AB" = Some (mkRGB 1 2 171).
Proof.
  destruct (hex_round_trip 1 2 171) as (H1 & H2 & H3); try lia.
  split; [exact H1|]. split; [reflexivity|]. exact H3.
Defined.

End HexProperties.

Section ChromaKeyProperties.
Import Types Geometry PreviewCanvas.

(** By evaluation: for every sum of three squares of byte differences (at
    most 3 * 255^2 = 195075) and every tolerance of the slider, the binary64
    test agrees with the comparison of integers. *)
Lemma sqrtTableOk_true : forallb (sqrtRow sqrtTable) (Zrange 195076) = true.
Proof. vm_compute. reflexivity. Qed.

Lemma Uint63_ltb_of_Z (x y : Z) :
  0 <= x < 2 ^ 62 -> 0 <= y < 2 ^ 62 ->
  Uint63.ltb (Uint63.of_Z x) (Uint63.of_Z y) = (x <? y).
Proof.
  intros Hx Hy.
  assert (W : Uint63.wB = 2 ^ 63) by reflexivity.
  assert (Ex : Uint63.to_Z (Uint63.of_Z x) = x).
  { rewrite Uint63.of_Z_spec, Z.mod_small; lia. }
  assert (Ey : Uint63.to_Z (Uint63.of_Z y) = y).
  { rewrite Uint63.of_Z_spec, Z.mod_small; lia. }
  destruct (Z.ltb_spec x y) as [L | L].
  - apply Uint63.ltb_spec. lia.
  - apply not_true_is_false. intros C. apply Uint63.ltb_spec in C. lia.
Qed.

Lemma In_Zseq (n : nat) (lo z : Z) : lo <= z < lo + Z.of_nat n -> In z (Zseq lo n).
Proof.
  revert lo. induction n as [|n IH]; intros lo H; [lia|].
  cbn [Zseq]. destruct (Z.eq_dec lo z) as [->|Hne]; [now left|].
  right. apply IH. lia.
Qed.

Lemma In_Zrange (n z : Z) : 0 <= z < n -> In z (Zrange n).
Proof. intros H. apply In_Zseq. lia. Qed.

(** [Math.sqrt(s) < t] in binary64 is [s < t * t]. *)
Lemma sqrt_lt_exact (s t : Z) :
  0 <= s <= 195075 -> 0 <= t <= 255 ->
  PrimFloat.ltb (PrimFloat.sqrt (Z2float s)) (Z2float t) = (s <? t * t).
Proof.
  intros Hs Ht.
  pose proof (proj1 (forallb_forall (sqrtRow sqrtTable) (Zrange 195076))
                sqrtTableOk_true s (In_Zrange 195076 s ltac:(lia))) as H.
  unfold sqrtRow in H.
  assert (It : In (Z2float t, Uint63.of_Z (t * t)) sqrtTable).
  { unfold sqrtTable. apply in_map_iff. exists t. split; [reflexivity|].
    apply In_Zrange. lia. }
  pose proof (proj1 (forallb_forall _ _) H _ It) as H'.
  cbn [fst snd] in H'. apply Bool.eqb_prop in H'.
  unfold Z2float at 1. rewrite H'. apply Uint63_ltb_of_Z; nia.
Qed.

Lemma lookup_app_plus (l1 l2 : list Z) (i : nat) :
  (l1 ++ l2) !! (length l1 + i)%nat = l2 !! i.
Proof. rewrite lookup_app_r by lia. f_equal. lia. Qed.

Lemma lookup_app_0 (l1 l2 : list Z) : (l1 ++ l2) !! length l1 = l2 !! 0%nat.
Proof. rewrite <- (lookup_app_plus l1 l2 0). f_equal. lia. Qed.

Lemma chromaKeyLoop_done (fuel : nat) (keyColor : RGBColor) (tolerance : Z)
    (i : nat) (data : list Z) :
  (length data <= i)%nat -> chromaKeyLoop fuel keyColor tolerance i data = data.
Proof.
  intros H. destruct fuel as [|fuel]; [reflexivity|]. cbn [chromaKeyLoop].
  destruct (Nat.ltb_spec i (length data)); [lia|reflexivity].
Qed.

(** The loop at index [length pre] of [pre ++ rest] leaves [pre] alone and
    keys [rest] pixel by pixel. *)
Lemma chromaKeyLoop_app (keyColor : RGBColor) (tolerance : Z) (fuel : nat) :
  forall pre rest : list Z,
    (length rest <= 4 * fuel)%nat ->
    chromaKeyLoop fuel keyColor tolerance (length pre) (pre ++ rest)
    = pre ++ keyPixels keyColor tolerance rest.
Proof.
  induction fuel as [|fuel IH]; intros pre rest Hlen.
  - destruct rest; [reflexivity|cbn in Hlen; lia].
  - cbn [chromaKeyLoop].
    destruct rest as [|r rest].
    { cbn [keyPixels]. rewrite app_nil_r, Nat.ltb_irrefl. reflexivity. }
    assert ((length pre <? length (pre ++ r :: rest))%nat = true) as ->
      by (apply Nat.ltb_lt; rewrite length_app; cbn; lia).
    rewrite lookup_app_0, !lookup_app_plus.
    destruct rest as [|g [|b [|a rest]]]; cbn [lookup list_lookup keyPixels].
    + apply chromaKeyLoop_done. rewrite length_app. cbn. lia.
    + apply chromaKeyLoop_done. rewrite length_app. cbn. lia.
    + rewrite list_insert_ge by (rewrite length_app; cbn; lia).
      destruct (distance_lt keyColor tolerance r g b);
        apply chromaKeyLoop_done; rewrite length_app; cbn; lia.
    + set (a' := if distance_lt keyColor tolerance r g b then 0 else a).
      assert (E : (if distance_lt keyColor tolerance r g b
                   then <[(length pre + 3)%nat := 0]> (pre ++ r :: g :: b :: a :: rest)
                   else pre ++ r :: g :: b :: a :: rest)
                  = (pre ++ [r; g; b; a']) ++ rest).
      { subst a'. destruct (distance_lt keyColor tolerance r g b).
        - rewrite insert_app_r, <- app_assoc. reflexivity.
        - rewrite <- app_assoc. reflexivity. }
      rewrite E.
      replace (length pre + 4)%nat with (length (pre ++ [r; g; b; a']))
        by (rewrite length_app; reflexivity).
      rewrite IH by (cbn in Hlen; lia). rewrite <- app_assoc. reflexivity.
Qed.

Lemma chromaKey_keyPixels (keyColor : RGBColor) (tolerance : Z) (data : list Z) :
  chromaKey keyColor tolerance data = keyPixels keyColor tolerance data.
Proof.
  unfold chromaKey. apply (chromaKeyLoop_app keyColor tolerance (length data) [] data). lia.
Qed.

(** More fuel than the length of the buffer changes nothing: the loop has
    run to its end. *)
Lemma chromaKeyLoop_fuel (keyColor : RGBColor) (tolerance : Z) (data : list Z) (fuel : nat) :
  (length data <= fuel)%nat ->
  chromaKeyLoop fuel keyColor tolerance 0 data = chromaKey keyColor tolerance data.
Proof.
  intros H. rewrite chromaKey_keyPixels.
  apply (chromaKeyLoop_app keyColor tolerance fuel [] data). lia.
Qed.

Lemma keyPixels_length (keyColor : RGBColor) (tolerance : Z) (data : list Z) :
  length (keyPixels keyColor tolerance data) = length data.
Proof.
  rewrite <- chromaKey_keyPixels. unfold chromaKey.
  generalize (length data) at 1. generalize 0%nat. intros i fuel. revert i data.
  induction fuel as [|fuel IH]; intros i data; [reflexivity|].
  cbn [chromaKeyLoop]. destruct (i <? length data)%nat; [|reflexivity].
  rewrite IH. destruct (data !! i), (data !! (i + 1)%nat), (data !! (i + 2)%nat); try reflexivity.
  destruct (distance_lt _ _ _ _ _); [apply length_insert|reflexivity].
Qed.

Lemma pixel_at_cons4 (r g b a : Z) (rest : list Z) (p : nat) :
  pixel_at (r :: g :: b :: a :: rest) (S p) = pixel_at rest p.
Proof. reflexivity. Qed.

Lemma pixel_at_keyPixels (keyColor : RGBColor) (tolerance : Z) :
  forall (p : nat) (data : list Z) (r g b a : Z),
    pixel_at data p = Some (r, g, b, a) ->
    pixel_at (keyPixels keyColor tolerance data) p
    = Some (r, g, b, if distance_lt keyColor tolerance r g b then 0 else a).
Proof.
  induction p as [|p IH]; intros data r g b a H.
  - destruct data as [|r' [|g' [|b' [|a' rest]]]]; try discriminate H.
    cbn in H. injection H as -> -> -> ->. reflexivity.
  - destruct data as [|r' [|g' [|b' [|a' rest]]]]; try discriminate H;
      try (unfold pixel_at in H; cbn in H;
           repeat match type of H with context [?l !! ?i] => destruct (l !! i) end; discriminate H).
    cbn [keyPixels]. rewrite pixel_at_cons4 in *. now apply IH.
Qed.

(** Over the reals, [sqrt s < t] is [s < t * t] for [t >= 0]. *)
Lemma sqrt_lt_IZR (s t : Z) :
  0 <= s -> 0 <= t -> (R_sqrt.sqrt (IZR s) < IZR t)%R <-> s < t * t.
Proof.
  intros Hs Ht.
  assert (Hx : (0 <= IZR s)%R) by now apply IZR_le.
  assert (Hy : (0 <= IZR t)%R) by now apply IZR_le.
  pose proof (R_sqrt.sqrt_pos (IZR s)) as Hp.
  pose proof (R_sqrt.sqrt_sqrt (IZR s) Hx) as Hq.
  split.
  - intros H. apply lt_IZR. rewrite mult_IZR. Lra.nra.
  - intros H. apply IZR_lt in H. rewrite mult_IZR in H. Lra.nra.
Qed.

Lemma distance_IZR (keyColor : RGBColor) (r g b : Z) :
  distance keyColor r g b
  = R_sqrt.sqrt (IZR ((r - Types.r keyColor) ^ 2 + (g - Types.g keyColor) ^ 2
                      + (b - Types.b keyColor) ^ 2)).
Proof.
  unfold distance. f_equal.
  rewrite !plus_IZR. change 2 with (Z.of_nat 2). rewrite <- !pow_IZR, !minus_IZR.
  reflexivity.
Qed.

Lemma square_bound (d : Z) : -255 <= d <= 255 -> 0 <= d ^ 2 <= 65025.
Proof. intros H. rewrite Z.pow_2_r. nia. Qed.

(** The test of the loop is the strict comparison of the Euclidean distance
    with the tolerance. *)
Lemma distance_lt_iff (keyColor : RGBColor) (tolerance r g b : Z) :
  is_byte (Types.r keyColor) -> is_byte (Types.g keyColor) -> is_byte (Types.b keyColor) ->
  is_byte tolerance -> is_byte r -> is_byte g -> is_byte b ->
  distance_lt keyColor tolerance r g b = true
  <-> (distance keyColor r g b < IZR tolerance)%R.
Proof.
  unfold is_byte. intros Hkr Hkg Hkb Ht Hr Hg Hb.
  rewrite distance_IZR. unfold distance_lt.
  set (s := (r - Types.r keyColor) ^ 2 + (g - Types.g keyColor) ^ 2
            + (b - Types.b keyColor) ^ 2).
  assert (Hs : 0 <= s <= 195075).
  { pose proof (square_bound (r - Types.r keyColor) ltac:(lia)).
    pose proof (square_bound (g - Types.g keyColor) ltac:(lia)).
    pose proof (square_bound (b - Types.b keyColor) ltac:(lia)).
    subst s. lia. }
  rewrite (sqrt_lt_exact s tolerance Hs Ht), Z.ltb_lt.
  symmetry. apply sqrt_lt_IZR; lia.
Qed.

Lemma pixel_at_bytes (data : list Z) (p : nat) (r g b a : Z) :
  Forall is_byte data -> pixel_at data p = Some (r, g, b, a) ->
  is_byte r /\ is_byte g /\ is_byte b /\ is_byte a.
Proof.
  intros Hall H. unfold pixel_at in H.
  destruct (data !! (p * 4)%nat) as [r'|] eqn:Er; [|discriminate H].
  destruct (data !! (p * 4 + 1)%nat) as [g'|] eqn:Eg; [|discriminate H].
  destruct (data !! (p * 4 + 2)%nat) as [b'|] eqn:Eb; [|discriminate H].
  destruct (data !! (p * 4 + 3)%nat) as [a'|] eqn:Ea; [|discriminate H].
  injection H as <- <- <- <-.
  rewrite Forall_lookup in Hall.
  repeat split; eapply Hall; eassumption.
Qed.

(** The boundary: with the key (0, 255, 0) and the tolerance 50, the pixel
    (30, 215, 0) at distance exactly 50 keeps its alpha, the pixel
    (30, 216, 0) at distance sqrt 2421 loses it; at tolerance 0 not even the
    key colour itself is keyed. *)
Example chroma_key_boundary :
  chromaKey (mkRGB 0 255 0) 50
    [30; 215; 0; 255;  30; 216; 0; 255;  0; 255; 0; 128;  255; 255; 255; 7]
  = [30; 215; 0; 255;  30; 216; 0; 0;  0; 255; 0; 0;  255; 255; 255; 7]
  /\ chromaKey (mkRGB 0 255 0) 0 [0; 255; 0; 255] = [0; 255; 0; 255].
Proof. split; vm_compute; reflexivity. Qed.

(** C1: for a key colour, a tolerance and a buffer of bytes, the buffer
    keeps its length and, for every pixel (r, g, b, a) of it, the loop takes
    its branch exactly when the Euclidean distance
    sqrt((r-kr)^2 + (g-kg)^2 + (b-kb)^2) to the key is strictly below the
    tolerance; the pixel then becomes (r, g, b, 0), and otherwise (at
    distance equal to the tolerance too) it stays (r, g, b, a). *)
Theorem chroma_key_strict_threshold (keyColor : RGBColor) (tolerance : Z)
    (data : list Z) :
  is_byte (Types.r keyColor) -> is_byte (Types.g keyColor) -> is_byte (Types.b keyColor) ->
  is_byte tolerance ->
  Forall is_byte data ->
  let out := chromaKey keyColor tolerance data in
  length out = length data /\
  forall (p : nat) (r g b a : Z),
    pixel_at data p = Some (r, g, b, a) ->
    (distance_lt keyColor tolerance r g b = true
     <-> (distance keyColor r g b < IZR tolerance)%R) /\
    ((distance keyColor r g b < IZR tolerance)%R ->
     pixel_at out p = Some (r, g, b, 0)) /\
    (~ (distance keyColor r g b < IZR tolerance)%R ->
     pixel_at out p = Some (r, g, b, a)).
Proof.
  intros Hkr Hkg Hkb Ht Hall out. subst out. rewrite chromaKey_keyPixels.
  split; [apply keyPixels_length|].
  intros p r g b a Hp.
  destruct (pixel_at_bytes _ _ _ _ _ _ Hall Hp) as (Hr & Hg & Hb & _).
  pose proof (distance_lt_iff keyColor tolerance r g b Hkr Hkg Hkb Ht Hr Hg Hb) as Hiff.
  pose proof (pixel_at_keyPixels keyColor tolerance p data r g b a Hp) as Hout.
  split; [exact Hiff|]. split.
  - intros Hlt. apply Hiff in Hlt. now rewrite Hlt in Hout.
  - intros Hge. destruct (distance_lt keyColor tolerance r g b) eqn:E; [|exact Hout].
    exfalso. apply Hge. now apply Hiff.
Qed.

Lemma chroma_key_strict_threshold_witness :
  pixel_at (chromaKey (mkRGB 0 255 0) 50 [30; 215; 0; 255; 30; 216; 0; 255]) 0
  = Some (30, 215, 0, 255).
Proof.
  assert (B : forall z, (0 <=? z) && (z <=? 255) = true -> is_byte z).
  { intros z Hz. apply andb_true_iff in Hz. unfold is_byte. lia. }
  destruct (chroma_key_strict_threshold (mkRGB 0 255 0) 50
              [30; 215; 0; 255; 30; 216; 0; 255]
              (B 0 eq_refl) (B 255 eq_refl) (B 0 eq_refl) (B 50 eq_refl))
    as [_ H].
  { repeat constructor; apply B; reflexivity. }
  destruct (H 0%nat 30 215 0 255 eq_refl) as (Hiff & _ & Hkeep).
  apply Hkeep. intros Hlt. apply Hiff in Hlt. vm_compute in Hlt. discriminate Hlt.
Defined.

(** A frame whose read-back succeeds draws the keyed image: the image data
    put back are [chromaKey] of the data read. *)
Lemma render_keyed (isRecording : bool) (bottom : option MediaElement)
    (el : MediaElement) (canvas : Z * Z) (vt : VideoTransform)
    (settings : ChromaKeySettings) (data : list Z) (off : Z * Z) :
  0 < fst (intrinsicSize el) -> 0 < snd (intrinsicSize el) ->
  render isRecording bottom (Some el) canvas vt settings (Some data) off
  = (intrinsicSize el,
     frameStart isRecording bottom el canvas
     ++ [OffscreenPutImageData
           (chromaKey (color settings) (Types.tolerance settings) data);
         CtxDrawImage OffscreenCanvas (vt_x vt) (vt_y vt) (vt_width vt) (vt_height vt);
         RequestAnimationFrame]).
Proof.
  intros Hw Hh. unfold render, drawTopLayer, frameStart.
  destruct (intrinsicSize el) as [tw th]. cbn [fst snd] in *.
  assert ((0 <? tw) && (0 <? th) = true) as ->
    by (apply andb_true_iff; split; now apply Z.ltb_lt).
  f_equal. rewrite <- !app_assoc. reflexivity.
Qed.

Lemma frameStart_not_keyed (isRecording : bool) (bottom : option MediaElement)
    (el : MediaElement) (canvas : Z * Z) :
  existsb drawsKeyed (frameStart isRecording bottom el canvas) = false.
Proof.
  unfold frameStart, keepPlaying, drawBottomLayer, playIfPaused.
  destruct isRecording, bottom as [[? ?|? ? []]|], el as [? ?|? ? []]; reflexivity.
Qed.

(** C5: when reading the pixels back fails in a frame, the frame logs the
    error and draws the top layer element itself, unfiltered, at the
    rectangle (x, y, width, height) of the transform; nothing keyed is
    drawn; the frame still ends by requesting the next one, and a next frame
    whose read-back succeeds draws the keyed image again. *)
Theorem readback_failure_draws_unfiltered (isRecording : bool)
    (bottom : option MediaElement) (el : MediaElement) (canvas : Z * Z)
    (vt : VideoTransform) (settings : ChromaKeySettings) (off : Z * Z) :
  0 < fst (intrinsicSize el) -> 0 < snd (intrinsicSize el) ->
  let frame := render isRecording bottom (Some el) canvas vt settings None off in
  snd frame
  = frameStart isRecording bottom el canvas
    ++ [ConsoleError "Error processing top layer frame (getImageData):";
        CtxDrawImage (ElementSource TopLayer)
          (vt_x vt) (vt_y vt) (vt_width vt) (vt_height vt);
        RequestAnimationFrame] /\
  existsb drawsKeyed (snd frame) = false /\
  last (snd frame) = Some RequestAnimationFrame /\
  forall data : list Z,
    snd (render isRecording bottom (Some el) canvas vt settings (Some data) (fst frame))
    = frameStart isRecording bottom el canvas
      ++ [OffscreenPutImageData
            (chromaKey (color settings) (Types.tolerance settings) data);
          CtxDrawImage OffscreenCanvas (vt_x vt) (vt_y vt) (vt_width vt) (vt_height vt);
          RequestAnimationFrame].
Proof.
  intros Hw Hh frame.
  assert (E : snd frame
    = frameStart isRecording bottom el canvas
      ++ [ConsoleError "Error processing top layer frame (getImageData):";
          CtxDrawImage (ElementSource TopLayer)
            (vt_x vt) (vt_y vt) (vt_width vt) (vt_height vt);
          RequestAnimationFrame]).
  { subst frame. unfold render, drawTopLayer, frameStart.
    destruct (intrinsicSize el) as [tw th]. cbn [fst snd] in *.
    assert ((0 <? tw) && (0 <? th) = true) as ->
      by (apply andb_true_iff; split; now apply Z.ltb_lt).
    cbn [snd]. rewrite <- !app_assoc. reflexivity. }
  split; [exact E|]. rewrite E. split; [|split].
  - rewrite existsb_app, frameStart_not_keyed. reflexivity.
  - match goal with
    | |- last (?l ++ [?a; ?b; ?c]) = _ =>
        change (last (l ++ ([a; b] ++ [c])) = Some c)
    end.
    rewrite app_assoc. apply last_snoc.
  - intros data. now rewrite (render_keyed _ _ _ _ _ _ _ _ Hw Hh).
Qed.

Lemma readback_failure_draws_unfiltered_witness :
  snd (render false (Some (HTMLImageElement 800 600)) (Some (HTMLImageElement 400 400))
         (800, 600) (mkTransform 200 100 400 400 100)
         (mkSettings (mkRGB 0 255 0) "#00FF00" 50) None (0, 0))
  = [CtxDrawImage (ElementSource BottomLayer) 0 0 800 600;
     OffscreenClearRect 0 0 400 400;
     OffscreenDrawImage (ElementSource TopLayer) 0 0 400 400;
     ConsoleError "Error processing top layer frame (getImageData):";
     CtxDrawImage (ElementSource TopLayer) 200 100 400 400;
     RequestAnimationFrame].
Proof.
  apply (readback_failure_draws_unfiltered false (Some (HTMLImageElement 800 600))
           (HTMLImageElement 400 400) (800, 600) (mkTransform 200 100 400 400 100)
           (mkSettings (mkRGB 0 255 0) "#00FF00" 50) (0, 0)); reflexivity.
Defined.

End ChromaKeyProperties.

Section RecordingProperties.
Import Recording Scenarios.

Lemma find_first {A : Type} (f : A -> bool) (l : list A) (x : A) :
  find f l = Some x ->
  exists pre post, l = pre ++ x :: post /\ Forall (fun u => f u = false) pre /\ f x = true.
Proof.
  induction l as [|a l IH]; intros H; [discriminate H|].
  cbn [find] in H. destruct (f a) eqn:Ea.
  - injection H as <-. exists [], l. repeat split; [constructor | exact Ea].
  - destruct (IH H) as (pre & post & -> & Hpre & Hx).
    exists (a :: pre), post. repeat split; [now constructor | exact Hx].
Qed.

Lemma candidate_types_named (safari : bool) (type : MimeType) :
  In type (typesToCheck safari) ->
  (exists c rest, mimeType type = String c rest) /\
  containerOf (mimeType type) = extensionString (extension type).
Proof.
  destruct safari; cbn; intros H;
    repeat (destruct H as [<- | H]; [split; [eexists _, _|]; reflexivity|]);
    contradiction.
Qed.

Lemma connectAudio_from (vs : list VideoElement) (hasAudio : bool) (warned : list string) :
  fst (fold_left connectOne vs (hasAudio, warned)) = hasAudio || existsb connected vs.
Proof.
  revert hasAudio warned. induction vs as [|v vs IH]; intros hasAudio warned.
  - cbn. now rewrite orb_false_r.
  - cbn [fold_left existsb]. unfold connectOne at 2, connected at 1.
    destruct (0 <? readyState v), (capturable v); cbn [andb]; rewrite IH;
      destruct hasAudio; reflexivity.
Qed.

Lemma connectAudio_hasAudio (vs : list VideoElement) :
  fst (connectAudio vs) = existsb connected vs.
Proof. unfold connectAudio. now rewrite connectAudio_from. Qed.

Lemma videoElements_forEachVideo (f : VideoElement -> VideoElement) (app : App) :
  videoElements (forEachVideo f app) = map f (videoElements app).
Proof.
  unfold videoElements, forEachVideo. cbn.
  destruct (bottomVideoRef app), (topVideoRef app); reflexivity.
Qed.

Lemma existsb_connected_setMuted (m : bool) (vs : list VideoElement) :
  existsb connected (map (setMuted m) vs) = existsb connected vs.
Proof. induction vs as [|v vs IH]; [reflexivity|]. cbn. now rewrite IH. Qed.

(** What a start does when a candidate type is supported. *)
Lemma start_with_supported_type (browser : Browser) (app : App) (type : MimeType) :
  find (fun type => isTypeSupported browser (mimeType type))
    (typesToCheck (isSafari (userAgent browser))) = Some type ->
  let app' := handleStartRecording true browser app in
  isRecording app' = true /\
  mediaRecorderRef app'
  = Some (mkRecorder
            (CanvasVideoTrack
             :: (if existsb connected (videoElements app)
                 then map DestinationAudioTrack (audioTracks browser) else []))
            (mimeType type) type true) /\
  recordedChunksRef app' = [] /\
  alerts app' = alerts app /\
  downloads app' = downloads app.
Proof.
  intros Hfind app'. subst app'. unfold handleStartRecording. cbn [negb].
  pose proof (connectAudio_hasAudio (videoElements (forEachVideo (setMuted false) app))) as Ha.
  destruct (connectAudio _) as [hasAudio warned]. cbn [fst] in Ha.
  rewrite videoElements_forEachVideo, existsb_connected_setMuted in Ha. subst hasAudio.
  unfold getSupportedMimeType. rewrite Hfind.
  destruct (candidate_types_named _ _ (proj1 (find_some _ _ Hfind))) as [(c & rest & ->) _].
  repeat split.
Qed.

(** What a start does when no candidate type is supported. *)
Lemma start_without_supported_type (browser : Browser) (app : App) :
  find (fun type => isTypeSupported browser (mimeType type))
    (typesToCheck (isSafari (userAgent browser))) = None ->
  let app' := handleStartRecording true browser app in
  isRecording app' = isRecording app /\
  mediaRecorderRef app' = mediaRecorderRef app /\
  videoElements app' = map (setMuted true) (videoElements app) /\
  alerts app' = alerts app ++ ["Sorry, your browser doesn't support video recording."%string] /\
  downloads app' = downloads app.
Proof.
  intros Hfind app'. subst app'. unfold handleStartRecording. cbn [negb].
  destruct (connectAudio _) as [hasAudio warned].
  unfold getSupportedMimeType. rewrite Hfind. cbn [mimeType].
  repeat split. unfold videoElements, forEachVideo. cbn.
  destruct (bottomVideoRef app), (topVideoRef app); reflexivity.
Qed.

Lemma ondataavailable_recorder (chunks : list Chunk) (app : App) :
  mediaRecorderRef (fold_left (fun a c => ondataavailable c a) chunks app)
  = mediaRecorderRef app.
Proof.
  revert app. induction chunks as [|c chunks IH]; intros app; [reflexivity|].
  cbn [fold_left]. now rewrite IH.
Qed.


(** C4: the candidate list depends on the platform (MP4 first for Safari,
    WebM first otherwise); a start takes the first candidate the browser
    supports, records with it, and the file downloaded at the stop is named
    videyo_export. followed by the container of that type; when no candidate
    is supported, the start leaves the recording state and the recorder as
    they were, mutes every video element again and raises the alert.  The
    platform is read off the user agent: with the user agent of Safari on a
    Mac or on an iPhone the list is the one that starts with MP4, and MP4 is
    taken whenever it is supported; with the user agent of Chrome (on a
    desktop or on Android) or of Firefox the list is the one that starts
    with WebM, and WebM with VP9 is taken whenever it is supported. *)
Theorem recording_container_selection (browser : Browser) (app : App) :
  let safari := isSafari (userAgent browser) in
  let supported := fun type => isTypeSupported browser (mimeType type) in
  let app' := handleStartRecording true browser app in
  (extension <$> head (typesToCheck true) = Some mp4 /\
   extension <$> head (typesToCheck false) = Some webm) /\
  (forall type : MimeType,
     find supported (typesToCheck safari) = Some type ->
     (exists pre post,
        typesToCheck safari = pre ++ type :: post /\
        Forall (fun u => supported u = false) pre /\ supported type = true) /\
     getSupportedMimeType safari (isTypeSupported browser) = type /\
     isRecording app' = true /\
     (exists recorder,
        mediaRecorderRef app' = Some recorder /\
        recorderMimeType recorder = mimeType type /\ active recorder = true) /\
     forall chunks : list Chunk,
       exists parts,
         last (downloads (handleStopRecording
                 (fold_left (fun a c => ondataavailable c a) chunks app')))
         = Some (mkDownload ("videyo_export." ++ containerOf (mimeType type))
                   (mimeType type) parts)) /\
  (find supported (typesToCheck safari) = None ->
   isRecording app' = isRecording app /\
   mediaRecorderRef app' = mediaRecorderRef app /\
   Forall (fun v => muted v = true) (videoElements app') /\
   alerts app'
   = alerts app ++ ["Sorry, your browser doesn't support video recording."%string] /\
   downloads app' = downloads app) /\
  (userAgent browser = safariUserAgent \/ userAgent browser = iPhoneUserAgent ->
   safari = true /\
   typesToCheck safari = mp4PrioritizedTypes /\
   (isTypeSupported browser "video/mp4" = true ->
    getSupportedMimeType safari (isTypeSupported browser) = mkType "video/mp4" mp4)) /\
  (userAgent browser = chromeUserAgent \/ userAgent browser = androidChromeUserAgent \/
   userAgent browser = firefoxUserAgent ->
   safari = false /\
   typesToCheck safari = webmPrioritizedTypes /\
   (isTypeSupported browser "video/webm;codecs=vp9,opus" = true ->
    getSupportedMimeType safari (isTypeSupported browser)
    = mkType "video/webm;codecs=vp9,opus" webm)).
Proof.
  intros safari supported app'. split; [split; reflexivity|].
  split; [|split; [|split]]; cycle 2.
  { intros H.
    assert (E : safari = true) by (subst safari; destruct H as [-> | ->]; reflexivity).
    rewrite E. split; [reflexivity|]. split; [reflexivity|].
    intros Hs. unfold getSupportedMimeType. cbn [typesToCheck mp4PrioritizedTypes find mimeType].
    now rewrite Hs. }
  { intros H.
    assert (E : safari = false)
      by (subst safari; destruct H as [-> | [-> | ->]]; reflexivity).
    rewrite E. split; [reflexivity|]. split; [reflexivity|].
    intros Hs. unfold getSupportedMimeType. cbn [typesToCheck webmPrioritizedTypes find mimeType].
    now rewrite Hs. }
  - intros type Hfind.
    destruct (start_with_supported_type browser app type Hfind)
      as (Hrec & Hrecorder & _).
    fold app' in Hrec, Hrecorder.
    split; [now apply find_first|].
    split; [unfold getSupportedMimeType; fold safari supported; now rewrite Hfind|].
    split; [exact Hrec|].
    split; [eexists; split; [exact Hrecorder|split; reflexivity]|].
    intros chunks. eexists. unfold handleStopRecording.
    rewrite ondataavailable_recorder, Hrecorder. cbn [active recorderType recorderMimeType downloads].
    rewrite last_snoc.
    destruct (candidate_types_named _ _ (proj1 (find_some _ _ Hfind))) as [_ ->].
    reflexivity.
  - intros Hfind.
    destruct (start_without_supported_type browser app Hfind)
      as (Hrec & Hrecorder & Hvideos & Halerts & Hdl).
    fold app' in Hrec, Hrecorder, Hvideos, Halerts, Hdl.
    repeat split; try assumption.
    rewrite Hvideos. apply List.Forall_forall. intros v Hv.
    apply in_map_iff in Hv. destruct Hv as (u & <- & _). reflexivity.
Qed.

(** C8: when a candidate type is supported, the start goes on to record
    whatever happens to the audio of the sources: an element that is not
    ready, or whose audio cannot be connected, is passed over.  The stream
    recorded holds the video track of the canvas, and it holds the audio
    tracks of the sink exactly when the audio of at least one element was
    connected. *)
Theorem audio_failures_are_skipped (browser : Browser) (app : App) (type : MimeType) :
  find (fun type => isTypeSupported browser (mimeType type))
    (typesToCheck (isSafari (userAgent browser))) = Some type ->
  let app' := handleStartRecording true browser app in
  isRecording app' = true /\
  exists recorder,
    mediaRecorderRef app' = Some recorder /\
    active recorder = true /\
    In CanvasVideoTrack (stream recorder) /\
    (forall id : nat,
       In id (audioTracks browser) ->
       (In (DestinationAudioTrack id) (stream recorder)
        <-> exists v, In v (videoElements app) /\ 0 < readyState v /\ capturable v = true)) /\
    ((forall v, In v (videoElements app) -> ~ (0 < readyState v /\ capturable v = true)) ->
     stream recorder = [CanvasVideoTrack]).
Proof.
  intros Hfind app'.
  destruct (start_with_supported_type browser app type Hfind) as (Hrec & Hrecorder & _).
  fold app' in Hrec, Hrecorder. split; [exact Hrec|].
  eexists. split; [exact Hrecorder|]. cbn [active stream].
  assert (Hex : existsb connected (videoElements app) = true
                <-> exists v, In v (videoElements app) /\ 0 < readyState v /\ capturable v = true).
  { rewrite existsb_exists. unfold connected. split; intros (v & Hv & H); exists v; split; try exact Hv.
    - apply andb_true_iff in H. destruct H as [H1 H2]. apply Z.ltb_lt in H1. now split.
    - apply andb_true_iff. destruct H as [H1 H2]. split; [now apply Z.ltb_lt|exact H2]. }
  split; [reflexivity|]. split; [now left|]. split.
  - intros id Hid. rewrite <- Hex. split.
    + intros [H|H]; [discriminate H|].
      destruct (existsb connected (videoElements app)); [reflexivity|contradiction].
    + intros ->. right. now apply in_map.
  - intros Hnone. destruct (existsb connected (videoElements app)); [|reflexivity].
    destruct (proj1 Hex eq_refl) as (v & Hv & H). now destruct (Hnone v Hv).
Qed.

Lemma recording_container_selection_witness :
  exists parts,
    last (downloads (handleStopRecording
            (handleStartRecording true (mkBrowser chromeUserAgent onlyMp4 [7%nat])
               twoVideos)))
    = Some (mkDownload "videyo_export.mp4" "video/mp4" parts).
Proof.
  destruct (recording_container_selection (mkBrowser chromeUserAgent onlyMp4 [7%nat])
              twoVideos) as (_ & H & _).
  destruct (H (mkType "video/mp4" mp4) eq_refl) as (_ & _ & _ & _ & Hd).
  exact (Hd []).
Defined.

Lemma audio_failures_are_skipped_witness :
  let app' := handleStartRecording true (mkBrowser chromeUserAgent onlyMp4 [7%nat])
                twoVideos in
  isRecording app' = true /\
  exists recorder,
    mediaRecorderRef app' = Some recorder /\ stream recorder = [CanvasVideoTrack].
Proof.
  cbv zeta.
  destruct (audio_failures_are_skipped (mkBrowser chromeUserAgent onlyMp4 [7%nat])
              twoVideos (mkType "video/mp4" mp4) eq_refl)
    as (Hrec & recorder & Hr & _ & _ & _ & Hnone).
  split; [exact Hrec|]. exists recorder. split; [exact Hr|].
  apply Hnone. intros v [<- | [<- | []]]; cbn; intros [H1 H2]; [discriminate H2 | discriminate H1].
Defined.

(** The user agents of three browsers: only the first is Safari for
    [isSafari]. *)
Example isSafari_examples :
  isSafari safariUserAgent = true /\
  isSafari chromeUserAgent = false /\
  isSafari firefoxUserAgent = false.
Proof. repeat split. Qed.

End RecordingProperties.

Section GeometryExtras.
Import JS Types Geometry GeometryInvariants.
Local Open Scope Q_scope.


(** X1: how updates of the transform compose: the same update twice is the
    update once; of two changes of size the later one decides; a change of
    size and a change of position can come in either order. *)
Theorem transform_updates_compose (ar : option Q) (dims : option LayerDimensions)
    (t : VideoTransform) :
  (forall p,
     handleTransformChange ar dims p (handleTransformChange ar dims p t)
     = handleTransformChange ar dims p t) /\
  (forall s1 s2,
     handleTransformChange ar dims (sizeUpdate s2)
       (handleTransformChange ar dims (sizeUpdate s1) t)
     = handleTransformChange ar dims (sizeUpdate s2) t) /\
  (forall s x y,
     handleTransformChange ar dims (sizeUpdate s)
       (handleTransformChange ar dims (positionUpdate x y) t)
     = handleTransformChange ar dims (positionUpdate x y)
         (handleTransformChange ar dims (sizeUpdate s) t)).
Proof.
  unfold handleTransformChange.
  destruct (ready ar dims) as [[a d]|]; [|repeat split].
  split; [|split].
  - intros [px py pw ph [s|]]; cbn; destruct px, py; try destruct pw; try destruct ph; reflexivity.
  - intros s1 s2. reflexivity.
  - intros s x y. destruct x, y; reflexivity.
Qed.







Lemma loaded_size_cases (w h : Z) :
  (0 < w)%Z /\ (0 < h)%Z /\ ((0 <? w) && (0 <? h))%Z = true \/
  ((w <= 0)%Z \/ (h <= 0)%Z) /\ ((0 <? w) && (0 <? h))%Z = false.
Proof. destruct (Z.ltb_spec 0 w), (Z.ltb_spec 0 h); cbn; intuition lia. Qed.

Lemma positive_is_truthy (a : Q) : 0 < a -> truthy a = true.
Proof.
  intros H. unfold truthy. apply negb_true_iff, not_true_iff_false.
  rewrite Qeq_bool_iff. lra.
Qed.

Lemma positive_ratio (w h : Z) : (0 < w)%Z -> (0 < h)%Z -> 0 < inject_Z w / inject_Z h.
Proof.
  intros Hw Hh. apply Qlt_shift_div_l.
  - change 0 with (inject_Z 0). now rewrite <- Zlt_Qlt.
  - rewrite Qmult_0_l. change 0 with (inject_Z 0). now rewrite <- Zlt_Qlt.
Qed.

(** The intrinsic size an element reports. *)
Lemma handleBottomLayerLoad_cases (el : MediaElement) (cur : option LayerDimensions) :
  let '(w, h) := PreviewCanvas.intrinsicSize el in
  ((0 < w)%Z /\ (0 < h)%Z /\
   handleBottomLayerLoad (Some el) cur = Some (mkDims (inject_Z w) (inject_Z h))) \/
  (((w <= 0)%Z \/ (h <= 0)%Z) /\ handleBottomLayerLoad (Some el) cur = cur).
Proof.
  destruct el as [w h | w h p]; cbn [PreviewCanvas.intrinsicSize handleBottomLayerLoad];
    destruct (loaded_size_cases w h) as [(Hw & Hh & ->) | (Hn & ->)]; auto.
Qed.

End GeometryExtras.

Section Geometry64Extras.
Import JS Types Geometry GeometryInvariants Binary64.
Local Open Scope Q_scope.

Lemma handleTopLayerLoad_cases (el : MediaElement) (cur : option Q) :
  let '(w, h) := PreviewCanvas.intrinsicSize el in
  ((0 < w)%Z /\ (0 < h)%Z /\
   ((0 < fdiv (inject_Z w) (inject_Z h) /\
     Geometry64.handleTopLayerLoad (Some el) cur = Some (fdiv (inject_Z w) (inject_Z h))) \/
    (fdiv (inject_Z w) (inject_Z h) == 0 /\
     Geometry64.handleTopLayerLoad (Some el) cur = cur))) \/
  (((w <= 0)%Z \/ (h <= 0)%Z) /\ Geometry64.handleTopLayerLoad (Some el) cur = cur).
Proof.
  destruct el as [w h | w h p];
    cbn [PreviewCanvas.intrinsicSize Geometry64.handleTopLayerLoad];
    destruct (loaded_size_cases w h) as [(Hw & Hh & ->) | (Hn & ->)]; auto;
    left; (split; [exact Hw|]); (split; [exact Hh|]);
    pose proof (fl_nonneg _ (Qlt_le_weak _ _ (positive_ratio w h Hw Hh))) as N;
    fold (fdiv (inject_Z w) (inject_Z h)) in N;
    unfold truthy; destruct (Qeq_bool (fdiv (inject_Z w) (inject_Z h)) 0) eqn:E; cbn [negb].
  1,3: right; split; [now apply Qeq_bool_iff | reflexivity].
  all: left; split; [|reflexivity];
    apply Qeq_bool_neq in E; destruct (Qle_lt_or_eq _ _ N) as [L|L]; [exact L|];
    exfalso; apply E; now rewrite <- L.
Qed.

(** The quotient of two intrinsic sizes is a normal number of binary64:
    it is positive, and within a relative error of [2 ^ -53] of the exact
    quotient. *)
Lemma aspect_ratio_accurate (w h : Z) :
  (0 < w < 2 ^ 32)%Z -> (0 < h < 2 ^ 32)%Z ->
  0 < fdiv (inject_Z w) (inject_Z h) /\
  Qabs (fdiv (inject_Z w) (inject_Z h) - inject_Z w / inject_Z h)
  <= 2 ^ (-53) * (inject_Z w / inject_Z h).
Proof.
  intros Hw Hh.
  assert (Qw : 1 <= inject_Z w) by (change 1 with (inject_Z 1); rewrite <- Zle_Qle; lia).
  assert (Qh : 1 <= inject_Z h) by (change 1 with (inject_Z 1); rewrite <- Zle_Qle; lia).
  assert (Qh' : inject_Z h <= 4294967296)
    by (change 4294967296 with (inject_Z (2 ^ 32)); rewrite <- Zle_Qle; lia).
  set (q := inject_Z w / inject_Z h).
  assert (Hq : (1 # 4294967296) <= q).
  { unfold q. apply Qle_shift_div_l; [lra|].
    apply Qle_trans with 1; [|exact Qw].
    apply Qle_trans with ((1 # 4294967296) * 4294967296); [|now vm_compute].
    apply Qmult_le_l; [reflexivity | exact Qh']. }
  assert (P : 2 ^ (-1022) <= q).
  { apply Qle_trans with (1 # 4294967296); [|exact Hq].
    change (1 # 4294967296) with (2 ^ (-32)). apply pow2_le. lia. }
  split; [now apply fl_pos_normal|].
  pose proof (fl_error q) as E. rewrite (Qabs_pos q) in E by lra. now apply E.
Qed.

(** X5: the loaders keep the state sound: dimensions that are there are
    positive integers and an aspect ratio that is there is positive, so
    that both being there is all [handleTransformChange] asks for.  A
    missing element changes nothing, and neither does an element that
    reports a side of 0.  An element with positive sides sets the
    dimensions to them, or the aspect ratio to their quotient in binary64,
    which is within a relative error of [2 ^ -53] of the exact quotient. *)
Theorem loaders_keep_state_sound (bottom top : option MediaElement)
    (bottomLayerDimensions : option LayerDimensions) (topLayerAspectRatio : option Q) :
  dims_ok bottomLayerDimensions ->
  aspect_ok topLayerAspectRatio ->
  let dims' := handleBottomLayerLoad bottom bottomLayerDimensions in
  let ar' := Geometry64.handleTopLayerLoad top topLayerAspectRatio in
  dims_ok dims' /\ aspect_ok ar' /\
  (forall a d, ar' = Some a -> dims' = Some d -> ready ar' dims' = Some (a, d)) /\
  (bottom = None -> dims' = bottomLayerDimensions) /\
  (top = None -> ar' = topLayerAspectRatio) /\
  (forall el, bottom = Some el ->
     let '(w, h) := PreviewCanvas.intrinsicSize el in
     ((0 < w)%Z /\ (0 < h)%Z -> dims' = Some (mkDims (inject_Z w) (inject_Z h))) /\
     ((w <= 0)%Z \/ (h <= 0)%Z -> dims' = bottomLayerDimensions)) /\
  (forall el, top = Some el ->
     let '(w, h) := PreviewCanvas.intrinsicSize el in
     ((0 < w < 2 ^ 32)%Z /\ (0 < h < 2 ^ 32)%Z ->
      ar' = Some (fdiv (inject_Z w) (inject_Z h)) /\
      Qabs (fdiv (inject_Z w) (inject_Z h) - inject_Z w / inject_Z h)
      <= 2 ^ (-53) * (inject_Z w / inject_Z h)) /\
     ((w <= 0)%Z \/ (h <= 0)%Z -> ar' = topLayerAspectRatio)).
Proof.
  intros Hd Ha dims' ar'.
  assert (S1 : dims_ok dims').
  { subst dims'. destruct bottom as [el|]; [|exact Hd].
    pose proof (handleBottomLayerLoad_cases el bottomLayerDimensions) as C.
    destruct (PreviewCanvas.intrinsicSize el) as [w h].
    destruct C as [(Hw & Hh & ->) | (_ & ->)]; [|exact Hd].
    exists w, h. now repeat split. }
  assert (S2 : aspect_ok ar').
  { subst ar'. destruct top as [el|]; [|exact Ha].
    pose proof (handleTopLayerLoad_cases el topLayerAspectRatio) as C.
    destruct (PreviewCanvas.intrinsicSize el) as [w h].
    destruct C as [(Hw & Hh & [(P & ->) | (_ & ->)]) | (_ & ->)];
      [exact P | exact Ha | exact Ha]. }
  split; [exact S1|]. split; [exact S2|].
  split; [|split; [|split; [|split]]].
  - intros a d Ea Ed. rewrite Ea, Ed in *. cbn in S2. unfold ready.
    now rewrite (positive_is_truthy a S2).
  - intros ->. reflexivity.
  - intros ->. reflexivity.
  - intros el ->. subst dims'.
    pose proof (handleBottomLayerLoad_cases el bottomLayerDimensions) as C.
    destruct (PreviewCanvas.intrinsicSize el) as [w h].
    destruct C as [(Hw & Hh & ->) | (Hn & ->)]; split; intros; (reflexivity || lia).
  - intros el ->. subst ar'.
    pose proof (handleTopLayerLoad_cases el topLayerAspectRatio) as C.
    destruct (PreviewCanvas.intrinsicSize el) as [w h].
    destruct C as [(Hw & Hh & [(P & ->) | (Z0 & ->)]) | (Hn & ->)]; split;
      try (intros; (reflexivity || lia)).
    + intros [Bw Bh]. split; [reflexivity | now apply aspect_ratio_accurate].
    + intros [Bw Bh]. destruct (aspect_ratio_accurate w h Bw Bh) as [P _]. lra.
Qed.

Lemma loaders_keep_state_sound_witness :
  ready (Geometry64.handleTopLayerLoad (Some (HTMLVideoElement 80 67 false)) None)
        (handleBottomLayerLoad (Some (HTMLImageElement 800 600)) None)
  = Some (fdiv 80 67, mkDims 800 600).
Proof.
  destruct (loaders_keep_state_sound (Some (HTMLImageElement 800 600))
              (Some (HTMLVideoElement 80 67 false)) None None I I)
    as (_ & _ & H & _).
  apply H; now vm_compute.
Defined.

End Geometry64Extras.

Section HexExtras.
Import Types Hex HexFormat.

Lemma hash_is_no_digit : isHexChar "#"%char = false.
Proof. reflexivity. Qed.

Lemma not_hash_match {A : Type} (c : ascii) (u v : A) :
  c <> "#"%char ->
  match c with "#"%char => u | _ => v end = v.
Proof.
  intros H. destruct c as [[] [] [] [] [] [] [] []]; try reflexivity. now contradiction H.
Qed.

(** What [execHex] does with a string that does not start with [#]. *)
Lemma execHex_body (body : string) :
  (forall rest, body <> String "#"%char rest) ->
  execHex body
  = match body with
    | String c1 (String c2 (String c3 (String c4 (String c5 (String c6 EmptyString))))) =>
        if forallb isHexChar [c1; c2; c3; c4; c5; c6]
        then Some ((c1, c2), (c3, c4), (c5, c6)) else None
    | _ => None
    end.
Proof.
  intros H. unfold execHex. destruct body as [|c rest]; [reflexivity|].
  rewrite not_hash_match; [reflexivity|]. intros ->. now apply (H rest).
Qed.

Lemma execHex_isSixHex (body : string) :
  (forall rest, body <> String "#"%char rest) ->
  (execHex body <> None <-> isSixHex body = true).
Proof.
  intros H. rewrite (execHex_body body H). unfold isSixHex.
  destruct body as [|c1 [|c2 [|c3 [|c4 [|c5 [|c6 [|c7 rest]]]]]]];
    try (cbn; split; [intros C; now contradiction C | discriminate]).
  cbn [String.length Nat.eqb andb list_ascii_of_string].
  destruct (forallb isHexChar [c1; c2; c3; c4; c5; c6]); split; congruence.
Qed.

Lemma parse_after_exec (hex : string) : hexToRgb hex <> None <-> execHex hex <> None.
Proof.
  unfold hexToRgb. unfold execHex.
  set (body := match hex with String "#"%char rest => rest | _ => hex end). clearbody body.
  destruct body as [|c1 [|c2 [|c3 [|c4 [|c5 [|c6 [|c7 rest]]]]]]]; try tauto.
  destruct (forallb isHexChar [c1; c2; c3; c4; c5; c6]) eqn:E; [|tauto].
  cbn [forallb] in E. unfold isHexChar, parseInt16 in *.
  destruct (hexValue c1), (hexValue c2), (hexValue c3), (hexValue c4), (hexValue c5),
    (hexValue c6); try discriminate E. split; discriminate.
Qed.

(** X6: [hexToRgb] answers for six hexadecimal digits, with or without a [#] in
    front, and for nothing else: not for the empty string, not for three
    digits, not for a name.  What it answers is a colour of bytes. *)
Theorem hexToRgb_accepts_six_digits_only (hex : string) :
  (hexToRgb hex <> None
   <-> isSixHex hex = true \/ exists body, hex = String "#"%char body /\ isSixHex body = true) /\
  (forall c, hexToRgb hex = Some c -> is_byte (r c) /\ is_byte (g c) /\ is_byte (b c)).
Proof.
  split; [|apply hexToRgb_bytes].
  rewrite parse_after_exec.
  destruct hex as [|c rest].
  - cbn. split; [intros C; now contradiction C|]. intros [C | (body & C & _)]; discriminate C.
  - destruct (ascii_dec c "#"%char) as [-> | Hne].
    + assert (E : execHex (String "#"%char rest)
                  = match rest with
                    | String c1 (String c2 (String c3 (String c4 (String c5 (String c6 EmptyString))))) =>
                        if forallb isHexChar [c1; c2; c3; c4; c5; c6]
                        then Some ((c1, c2), (c3, c4), (c5, c6)) else None
                    | _ => None
                    end) by reflexivity.
      assert (F : isSixHex (String "#"%char rest) = false).
      { unfold isSixHex. cbn [list_ascii_of_string forallb]. rewrite hash_is_no_digit.
        cbn. apply andb_false_r. }
      rewrite E, F. unfold isSixHex.
      destruct rest as [|c1 [|c2 [|c3 [|c4 [|c5 [|c6 [|c7 rest]]]]]]];
        try (cbn; split; [intros C; now contradiction C
                         | intros [C | (body & C & D)]; [discriminate C|];
                           injection C as <-; discriminate D]).
      cbn [String.length Nat.eqb andb list_ascii_of_string].
      destruct (forallb isHexChar [c1; c2; c3; c4; c5; c6]) eqn:G; split.
      * intros _. right. eexists. split; [reflexivity|]. unfold isSixHex.
        cbn [String.length Nat.eqb andb list_ascii_of_string]. exact G.
      * discriminate.
      * intros C. now contradiction C.
      * intros [C | (body & C & D)]; [discriminate C|]. injection C as <-.
        unfold isSixHex in D.
        cbn [String.length Nat.eqb andb list_ascii_of_string] in D.
        rewrite G in D. discriminate D.
    + assert (H : forall rest', String c rest <> String "#"%char rest') by congruence.
      rewrite (execHex_isSixHex _ H). split; [now left|].
      intros [C | (body & C & _)]; [exact C | congruence].
Qed.

Lemma digit_table :
  forallb (fun n => let c := ascii_of_N n in
                    match hexValue c with
                    | Some v => Ascii.eqb (upperChar (digitChar v)) (upperChar c)
                    | None => true
                    end)
    (map N.of_nat (seq 0 256)) = true.
Proof. vm_compute. reflexivity. Qed.

Lemma digit_of_hexValue (c : ascii) (v : Z) :
  hexValue c = Some v -> upperChar (digitChar v) = upperChar c.
Proof.
  intros H. pose proof digit_table as T. rewrite forallb_forall in T.
  specialize (T (N_of_ascii c)). cbv zeta in T.
  rewrite ascii_N_embedding, H in T. apply Ascii.eqb_eq, T.
  pose proof (N_ascii_bounded c) as B.
  rewrite <- (N2Nat.id (N_of_ascii c)). apply in_map, in_seq. lia.
Qed.

Lemma nibbles_of_byte (h l : Z) :
  0 <= h <= 15 -> 0 <= l <= 15 ->
  (h * 16 + l) / 16 = h /\ (h * 16 + l) mod 16 = l /\ 0 <= h * 16 + l <= 255.
Proof.
  intros Hh Hl. repeat split; try lia.
  - rewrite Z.add_comm, Z.div_add by lia. rewrite Z.div_small; lia.
  - rewrite Z.add_comm, Z.mod_add by lia. apply Z.mod_small. lia.
Qed.

(** X7: the round trip from the string: a string of six hexadecimal digits,
    parsed and written again, comes back with a [#] in front and its letters
    in upper case. *)
Theorem hex_string_round_trip (body : string) :
  isSixHex body = true ->
  exists c,
    hexToRgb body = Some c /\
    hexToRgb (String "#"%char body) = Some c /\
    rgbToHex (r c) (g c) (b c) = String "#"%char (toUpperCase body).
Proof.
  unfold isSixHex. intros H. apply andb_true_iff in H. destruct H as [Hlen Hall].
  destruct body as [|c1 [|c2 [|c3 [|c4 [|c5 [|c6 [|c7 rest]]]]]]]; try discriminate Hlen.
  cbn [list_ascii_of_string forallb] in Hall.
  assert (Hne : c1 <> "#"%char).
  { intros ->. rewrite hash_is_no_digit in Hall. discriminate Hall. }
  unfold hexToRgb, execHex. rewrite (not_hash_match c1 _ _ Hne).
  cbn [forallb]. rewrite Hall. unfold parseInt16.
  unfold isHexChar in Hall.
  destruct (hexValue c1) as [v1|] eqn:E1; [|discriminate Hall].
  destruct (hexValue c2) as [v2|] eqn:E2; [|discriminate Hall].
  destruct (hexValue c3) as [v3|] eqn:E3; [|discriminate Hall].
  destruct (hexValue c4) as [v4|] eqn:E4; [|discriminate Hall].
  destruct (hexValue c5) as [v5|] eqn:E5; [|discriminate Hall].
  destruct (hexValue c6) as [v6|] eqn:E6; [|discriminate Hall].
  eexists. split; [reflexivity|]. split; [reflexivity|]. cbn [r g b].
  pose proof (hexValue_range _ _ E1) as R1. pose proof (hexValue_range _ _ E2) as R2.
  pose proof (hexValue_range _ _ E3) as R3. pose proof (hexValue_range _ _ E4) as R4.
  pose proof (hexValue_range _ _ E5) as R5. pose proof (hexValue_range _ _ E6) as R6.
  destruct (nibbles_of_byte v1 v2 R1 R2) as (Q1 & M1 & B1).
  destruct (nibbles_of_byte v3 v4 R3 R4) as (Q2 & M2 & B2).
  destruct (nibbles_of_byte v5 v6 R5 R6) as (Q3 & M3 & B3).
  unfold rgbToHex. rewrite (toString16_rgb _ _ _ B1 B2 B3).
  rewrite Q1, M1, Q2, M2, Q3, M3. cbn [slice1 toUpperCase].
  rewrite !(digit_of_hexValue _ _ E1), !(digit_of_hexValue _ _ E2),
    !(digit_of_hexValue _ _ E3), !(digit_of_hexValue _ _ E4),
    !(digit_of_hexValue _ _ E5), !(digit_of_hexValue _ _ E6).
  reflexivity.
Qed.

Lemma hex_string_round_trip_witness :
  exists c, hexToRgb "00ff7f" = Some c /\ rgbToHex (r c) (g c) (b c) = "#00FF7F"%string.
Proof.
  destruct (hex_string_round_trip "00ff7f" eq_refl) as (c & H1 & _ & H3).
  exists c. split; [exact H1 | exact H3].
Defined.


Lemma byte_nibbles (x : Z) :
  0 <= x <= 255 -> 0 <= x / 16 < 16 /\ 0 <= x mod 16 < 16 /\ x / 16 * 16 + x mod 16 = x.
Proof.
  intros Hx. pose proof (Z.div_mod x 16 ltac:(lia)).
  pose proof (Z.mod_pos_bound x 16 ltac:(lia)).
  assert (0 <= x / 16) by (apply Z.div_pos; lia).
  assert (x / 16 < 16) by (apply Z.div_lt_upper_bound; lia).
  lia.
Qed.

(** The hex string written for a colour of bytes parses to that colour. *)
Lemma rgbToHex_parses (cr cg cb : Z) :
  is_byte cr -> is_byte cg -> is_byte cb ->
  hexToRgb (rgbToHex cr cg cb) = Some (mkRGB cr cg cb).
Proof.
  unfold is_byte. intros Hr Hg Hb.
  destruct (byte_nibbles cr Hr) as (Hr1 & Hr0 & Er).
  destruct (byte_nibbles cg Hg) as (Hg1 & Hg0 & Eg).
  destruct (byte_nibbles cb Hb) as (Hb1 & Hb0 & Eb).
  unfold rgbToHex. rewrite (toString16_rgb cr cg cb Hr Hg Hb).
  cbn [slice1 toUpperCase].
  assert (E : execHex (String "#"%char
                (String (upperChar (digitChar (cr / 16))) (String (upperChar (digitChar (cr mod 16)))
                (String (upperChar (digitChar (cg / 16))) (String (upperChar (digitChar (cg mod 16)))
                (String (upperChar (digitChar (cb / 16))) (String (upperChar (digitChar (cb mod 16)))
                 EmptyString)))))))
              = Some ((upperChar (digitChar (cr / 16)), upperChar (digitChar (cr mod 16))),
                      (upperChar (digitChar (cg / 16)), upperChar (digitChar (cg mod 16))),
                      (upperChar (digitChar (cb / 16)), upperChar (digitChar (cb mod 16))))).
  { unfold execHex, isHexChar. cbn [forallb].
    rewrite !(proj1 (hexValue_upper_digit _ Hr1)), !(proj1 (hexValue_upper_digit _ Hr0)),
      !(proj1 (hexValue_upper_digit _ Hg1)), !(proj1 (hexValue_upper_digit _ Hg0)),
      !(proj1 (hexValue_upper_digit _ Hb1)), !(proj1 (hexValue_upper_digit _ Hb0)).
    reflexivity. }
  unfold hexToRgb. rewrite E. unfold parseInt16.
  rewrite !(proj1 (hexValue_upper_digit _ Hr1)), !(proj1 (hexValue_upper_digit _ Hr0)),
    !(proj1 (hexValue_upper_digit _ Hg1)), !(proj1 (hexValue_upper_digit _ Hg0)),
    !(proj1 (hexValue_upper_digit _ Hb1)), !(proj1 (hexValue_upper_digit _ Hb0)).
  now rewrite Er, Eg, Eb.
Qed.

(** X8: the key colour follows what is entered and is never lost.  A colour
    that is handed over (without a hex string) becomes the colour, and the
    hex string is written from it; a hex string that parses decides the
    colour; a hex string that does not parse (one being typed) is shown but
    the colour stays; a tolerance alone changes neither.  In all but the
    third case settings that show their colour keep showing it. *)
Theorem key_colour_follows_input (prev : ChromaKeySettings) :
  (forall col t,
     is_byte (r col) -> is_byte (g col) -> is_byte (b col) ->
     let s := handleChromaKeyChange (mkPartialSettings (Some col) None t) prev in
     color s = col /\ in_sync s) /\
  (forall c s' col t parsed,
     hexToRgb (String c s') = Some parsed ->
     let s := handleChromaKeyChange (mkPartialSettings col (Some (String c s')) t) prev in
     color s = parsed /\ hexColor s = String c s' /\ in_sync s) /\
  (forall c s' col t,
     hexToRgb (String c s') = None ->
     let s := handleChromaKeyChange (mkPartialSettings col (Some (String c s')) t) prev in
     color s = color prev /\ hexColor s = String c s') /\
  (forall t,
     let s := handleChromaKeyChange (mkPartialSettings None None (Some t)) prev in
     color s = color prev /\ hexColor s = hexColor prev /\ tolerance s = t /\
     (in_sync prev -> in_sync s)) /\
  in_sync initialChromaKeySettings.
Proof.
  split; [|split; [|split; [|split]]].
  - intros col t Hr Hg Hb s. subst s. unfold handleChromaKeyChange, in_sync.
    cbn [ps_hexColor ps_color color hexColor default].
    split; [reflexivity|]. destruct col as [cr cg cb]. cbn [r g b] in *.
    now apply rgbToHex_parses.
  - intros c s' col t parsed Hp s. subst s. unfold handleChromaKeyChange, in_sync.
    cbn [ps_hexColor ps_color color hexColor default]. rewrite Hp.
    cbn [default]. repeat split. exact Hp.
  - intros c s' col t Hp s. subst s. unfold handleChromaKeyChange.
    cbn [ps_hexColor ps_color color hexColor default]. rewrite Hp. split; reflexivity.
  - intros t s. subst s. unfold handleChromaKeyChange, in_sync.
    cbn [ps_hexColor ps_color ps_tolerance color hexColor tolerance default].
    repeat split. tauto.
  - reflexivity.
Qed.

Lemma key_colour_follows_input_witness :
  color (handleChromaKeyChange (mkPartialSettings None (Some "#0000ff"%string) None)
           initialChromaKeySettings)
  = mkRGB 0 0 255.
Proof.
  exact (proj1 (proj1 (proj2 (key_colour_follows_input initialChromaKeySettings))
                  "#"%char "0000ff"%string None None (mkRGB 0 0 255) eq_refl)).
Defined.

End HexExtras.

Section ChromaKeyExtras.
Import Types Geometry PreviewCanvas FrameShape.

(** Induction on a buffer, four bytes at a time. *)
Lemma buffer_ind (P : list Z -> Prop) :
  (forall l, (length l < 4)%nat -> P l) ->
  (forall r g b a rest, P rest -> P (r :: g :: b :: a :: rest)) ->
  forall l, P l.
Proof.
  intros Hshort Hstep l.
  assert (H : forall n l, (length l <= n)%nat -> P l).
  { induction n as [|n IH]; intros l' Hl.
    - apply Hshort. lia.
    - destruct l' as [|r [|g [|b [|a rest]]]]; try (apply Hshort; cbn; lia).
      apply Hstep, IH. cbn in Hl. lia. }
  apply (H (length l)). lia.
Qed.

Lemma keyPixels_short (keyColor : RGBColor) (tolerance : Z) (l : list Z) :
  (length l < 4)%nat -> keyPixels keyColor tolerance l = l.
Proof.
  intros H. destruct l as [|r [|g [|b [|a rest]]]]; try reflexivity. cbn in H. lia.
Qed.

(** X9: the chroma key touches alpha bytes only, and only to clear them: a byte
    of the result is the byte it was, or it is the fourth byte of a pixel
    and is now 0. *)
Theorem chroma_key_clears_alpha_only (keyColor : RGBColor) (tolerance : Z)
    (data : list Z) (i : nat) :
  let out := chromaKey keyColor tolerance data in
  ((i mod 4 <> 3)%nat -> out !! i = data !! i) /\
  (out !! i = data !! i \/ ((i mod 4 = 3)%nat /\ out !! i = Some 0)).
Proof.
  cbv zeta. rewrite chromaKey_keyPixels. revert i.
  induction data as [l Hl | r g b a rest IH] using buffer_ind; intros i.
  - rewrite (keyPixels_short _ _ _ Hl). auto.
  - cbn [keyPixels].
    destruct i as [|[|[|[|j]]]]; cbn [lookup list_lookup]; try (split; auto; fail).
    + split; [intros H; now contradiction H|].
      destruct (distance_lt keyColor tolerance r g b); auto.
    + replace (S (S (S (S j))) mod 4)%nat with (j mod 4)%nat.
      * apply IH.
      * change (S (S (S (S j)))) with (4 + j)%nat.
        rewrite Nat.add_comm. replace (j + 4)%nat with (j + 1 * 4)%nat by lia.
        now rewrite Nat.Div0.mod_add.
Qed.

(** X10: keying a keyed buffer again changes nothing. *)
Theorem chroma_key_idempotent (keyColor : RGBColor) (tolerance : Z) (data : list Z) :
  chromaKey keyColor tolerance (chromaKey keyColor tolerance data)
  = chromaKey keyColor tolerance data.
Proof.
  rewrite !chromaKey_keyPixels.
  induction data as [l Hl | r g b a rest IH] using buffer_ind.
  - now rewrite !(keyPixels_short _ _ _ Hl).
  - cbn [keyPixels]. rewrite IH.
    now destruct (distance_lt keyColor tolerance r g b).
Qed.

Lemma squared_distance_range (keyColor : RGBColor) (r g b : Z) :
  is_byte (Types.r keyColor) -> is_byte (Types.g keyColor) -> is_byte (Types.b keyColor) ->
  is_byte r -> is_byte g -> is_byte b ->
  0 <= (r - Types.r keyColor) ^ 2 + (g - Types.g keyColor) ^ 2 + (b - Types.b keyColor) ^ 2
    <= 195075.
Proof.
  unfold is_byte. intros.
  pose proof (square_bound (r - Types.r keyColor) ltac:(lia)).
  pose proof (square_bound (g - Types.g keyColor) ltac:(lia)).
  pose proof (square_bound (b - Types.b keyColor) ltac:(lia)).
  lia.
Qed.

Lemma distance_lt_squares (keyColor : RGBColor) (tolerance r g b : Z) :
  is_byte (Types.r keyColor) -> is_byte (Types.g keyColor) -> is_byte (Types.b keyColor) ->
  is_byte tolerance -> is_byte r -> is_byte g -> is_byte b ->
  distance_lt keyColor tolerance r g b
  = ((r - Types.r keyColor) ^ 2 + (g - Types.g keyColor) ^ 2 + (b - Types.b keyColor) ^ 2
     <? tolerance * tolerance).
Proof.
  intros Hkr Hkg Hkb Ht Hr Hg Hb. unfold distance_lt.
  apply sqrt_lt_exact; [now apply squared_distance_range | exact Ht].
Qed.

(** X11: the tolerance works as a threshold should: at tolerance 0 the buffer
    comes back as it is; a pixel of the key colour itself is keyed at every
    tolerance from 1 on; and a pixel keyed at one tolerance is keyed at
    every larger one. *)
Theorem chroma_key_tolerance_is_a_threshold (keyColor : RGBColor) (data : list Z) :
  is_byte (Types.r keyColor) -> is_byte (Types.g keyColor) -> is_byte (Types.b keyColor) ->
  Forall is_byte data ->
  chromaKey keyColor 0 data = data /\
  (forall t, 1 <= t <= 255 ->
     distance_lt keyColor t (Types.r keyColor) (Types.g keyColor) (Types.b keyColor) = true) /\
  (forall t1 t2 p r g b a,
     0 <= t1 <= t2 -> t2 <= 255 ->
     pixel_at data p = Some (r, g, b, a) ->
     pixel_at (chromaKey keyColor t1 data) p = Some (r, g, b, 0) ->
     pixel_at (chromaKey keyColor t2 data) p = Some (r, g, b, 0)).
Proof.
  intros Hkr Hkg Hkb Hall. split; [|split].
  - rewrite chromaKey_keyPixels.
    induction data as [l Hl | r g b a rest IH] using buffer_ind.
    + now apply keyPixels_short.
    + cbn [keyPixels].
      inversion Hall as [|? ? Hr H1]; subst. inversion H1 as [|? ? Hg H2]; subst.
      inversion H2 as [|? ? Hb H3]; subst. inversion H3 as [|? ? Ha H4]; subst.
      rewrite (IH H4).
      rewrite (distance_lt_squares keyColor 0 r g b Hkr Hkg Hkb ltac:(unfold is_byte; lia) Hr Hg Hb).
      destruct (squared_distance_range keyColor r g b Hkr Hkg Hkb Hr Hg Hb) as [Hs _].
      destruct (Z.ltb_spec ((r - Types.r keyColor) ^ 2 + (g - Types.g keyColor) ^ 2
                            + (b - Types.b keyColor) ^ 2) (0 * 0)); [lia|reflexivity].
  - intros t Ht.
    rewrite (distance_lt_squares keyColor t _ _ _ Hkr Hkg Hkb ltac:(unfold is_byte; lia)
               Hkr Hkg Hkb).
    rewrite !Z.sub_diag. apply Z.ltb_lt. cbn. nia.
  - intros t1 t2 p r g b a Ht1 Ht2 Hp H1.
    destruct (pixel_at_bytes _ _ _ _ _ _ Hall Hp) as (Hr & Hg & Hb & Ha).
    rewrite chromaKey_keyPixels in *.
    rewrite (pixel_at_keyPixels keyColor t1 p data r g b a Hp) in H1.
    rewrite (pixel_at_keyPixels keyColor t2 p data r g b a Hp).
    rewrite (distance_lt_squares keyColor t1 r g b Hkr Hkg Hkb ltac:(unfold is_byte; lia) Hr Hg Hb) in H1.
    rewrite (distance_lt_squares keyColor t2 r g b Hkr Hkg Hkb ltac:(unfold is_byte; lia) Hr Hg Hb).
    set (s := (r - Types.r keyColor) ^ 2 + (g - Types.g keyColor) ^ 2
              + (b - Types.b keyColor) ^ 2) in *.
    destruct (Z.ltb_spec s (t1 * t1)) as [L1|L1].
    + assert ((s <? t2 * t2) = true) as -> by (apply Z.ltb_lt; nia). reflexivity.
    + injection H1 as ->. now destruct (s <? t2 * t2).
Qed.


Lemma chroma_key_tolerance_is_a_threshold_witness :
  chromaKey (mkRGB 0 255 0) 0 [0; 255; 0; 255; 10; 20; 30; 255]
  = [0; 255; 0; 255; 10; 20; 30; 255].
Proof.
  refine (proj1 (chroma_key_tolerance_is_a_threshold (mkRGB 0 255 0)
                   [0; 255; 0; 255; 10; 20; 30; 255] _ _ _ _));
    [unfold is_byte; cbn; lia .. | repeat constructor; unfold is_byte; lia].
Defined.

Lemma keepPlaying_spec (isRecording : bool) (bottom top : option MediaElement) :
  keepPlaying isRecording bottom top
  = (if isRecording && isPausedVideo bottom then [Play BottomLayer] else [])
    ++ (if isRecording && isPausedVideo top then [Play TopLayer] else []).
Proof.
  unfold keepPlaying, playIfPaused, isPausedVideo.
  destruct isRecording, bottom as [[? ?|? ? []]|], top as [[? ?|? ? []]|]; reflexivity.
Qed.

Lemma drawTopLayer_no_request (top : option MediaElement) (vt : VideoTransform)
    (settings : ChromaKeySettings) (readback : option (list Z)) (off : Z * Z) :
  existsb isRequest (snd (drawTopLayer top vt settings readback off)) = false.
Proof.
  unfold drawTopLayer. destruct top as [el|]; [|reflexivity].
  destruct (intrinsicSize el) as [w h].
  destruct ((0 <? w) && (0 <? h)); [|reflexivity].
  destruct readback; reflexivity.
Qed.

(** X12: the shape of every frame, whatever is loaded and whether or not the
    read-back works: the bottom layer (or the placeholder) is drawn over the
    whole canvas before anything of the top layer, the frame asks for the
    next frame once, as its last act, and videos are played only while
    recording, and only those that are paused.  A top layer that is missing,
    or that reports a side of 0, is passed over and the off-screen canvas
    keeps its size. *)
Theorem every_frame_requests_the_next (isRecording : bool)
    (bottom top : option MediaElement) (canvas : Z * Z) (vt : VideoTransform)
    (settings : ChromaKeySettings) (readback : option (list Z)) (off : Z * Z) :
  let frame := render isRecording bottom top canvas vt settings readback off in
  (exists plays drawn,
     snd frame = plays ++ drawBottomLayer bottom canvas ++ drawn ++ [RequestAnimationFrame] /\
     plays = keepPlaying isRecording bottom top /\
     existsb touchesTopLayer (plays ++ drawBottomLayer bottom canvas) = false /\
     existsb isRequest (plays ++ drawBottomLayer bottom canvas ++ drawn) = false) /\
  last (snd frame) = Some RequestAnimationFrame /\
  (forall l, In (Play l) (snd frame) ->
     isRecording = true /\
     isPausedVideo (match l with BottomLayer => bottom | TopLayer => top end) = true) /\
  ((top = None \/ exists el, top = Some el /\
                   (fst (intrinsicSize el) <= 0 \/ snd (intrinsicSize el) <= 0)) ->
   fst frame = off /\ existsb touchesTopLayer (snd frame) = false).
Proof.
  intros frame. subst frame. unfold render.
  pose proof (drawTopLayer_no_request top vt settings readback off) as Hreq.
  assert (Hplay : forall l, In (Play l) (snd (drawTopLayer top vt settings readback off)) -> False).
  { intros l. unfold drawTopLayer. destruct top as [el|]; [|intros []].
    destruct (intrinsicSize el) as [w h].
    destruct ((0 <? w) && (0 <? h)); [|intros []].
    destruct readback; cbn; intuition discriminate. }
  destruct (drawTopLayer top vt settings readback off) as [off' drawn] eqn:Etop.
  cbn [fst snd] in *.
  assert (Hstart : existsb touchesTopLayer
                     (keepPlaying isRecording bottom top ++ drawBottomLayer bottom canvas)
                   = false).
  { rewrite keepPlaying_spec. unfold drawBottomLayer.
    destruct (isRecording && isPausedVideo bottom), (isRecording && isPausedVideo top),
      bottom; reflexivity. }
  assert (Hnoreq : existsb isRequest
                     (keepPlaying isRecording bottom top ++ drawBottomLayer bottom canvas ++ drawn)
                   = false).
  { rewrite !existsb_app, Hreq, keepPlaying_spec. unfold drawBottomLayer.
    destruct (isRecording && isPausedVideo bottom), (isRecording && isPausedVideo top),
      bottom; reflexivity. }
  split; [|split; [|split]].
  - exists (keepPlaying isRecording bottom top), drawn. repeat split; assumption.
  - rewrite !app_assoc. apply last_snoc.
  - intros l Hin. rewrite keepPlaying_spec in Hin.
    apply in_app_or in Hin. destruct Hin as [Hin | Hin].
    + apply in_app_or in Hin. destruct Hin as [Hin | Hin].
      * destruct (isRecording && isPausedVideo bottom) eqn:E; [|destruct Hin].
        destruct Hin as [Hin | []]. injection Hin as <-. now apply andb_true_iff in E.
      * destruct (isRecording && isPausedVideo top) eqn:E; [|destruct Hin].
        destruct Hin as [Hin | []]. injection Hin as <-. now apply andb_true_iff in E.
    + apply in_app_or in Hin. destruct Hin as [Hin | Hin].
      * unfold drawBottomLayer in Hin. destruct bottom; destruct Hin as [Hin | []]; discriminate Hin.
      * apply in_app_or in Hin. destruct Hin as [Hin | Hin]; [now destruct (Hplay l)|].
        destruct Hin as [Hin | []]. discriminate Hin.
  - intros Hskip.
    assert (E : (off', drawn) = (off, [])).
    { rewrite <- Etop. unfold drawTopLayer. destruct Hskip as [-> | (el & -> & Hz)]; [reflexivity|].
      destruct (intrinsicSize el) as [w h]. cbn [fst snd] in Hz.
      assert (((0 <? w) && (0 <? h)) = false) as ->; [|reflexivity].
      apply andb_false_iff. destruct Hz; [left | right]; apply Z.ltb_ge; assumption. }
    injection E as -> ->. split; [reflexivity|].
    rewrite app_nil_l, app_assoc, existsb_app, Hstart. reflexivity.
Qed.

End ChromaKeyExtras.

Section ControlsExtras.
Import JS Types Geometry VideoControls.
Local Open Scope Q_scope.

Lemma clampPercent_range (v : Q) : 0 <= clampPercent v <= 100.
Proof.
  unfold clampPercent, Math_max, Math_min.
  destruct (Qle_bool 100 v) eqn:E1.
  - change (Qle_bool 0 100) with true. cbv iota. lra.
  - apply Qle_bool_false in E1.
    destruct (Qle_bool 0 v) eqn:E2.
    + apply Qle_bool_iff in E2. lra.
    + lra.
Qed.



Lemma toFixed1_range (q : Q) :
  0 <= q <= 100 -> 0 <= toFixed1 q <= 100 /\ is_integer (toFixed1 q * 10).
Proof.
  intros [L U]. unfold toFixed1. assert (H := L). apply Qle_bool_iff in H. rewrite H.
  unfold tenths.
  assert (A : (0 <= Qfloor (q * 10 + (1 # 2)))%Z).
  { change 0%Z with (Qfloor 0). apply Qfloor_resp_le. lra. }
  assert (B : (Qfloor (q * 10 + (1 # 2)) <= 1000)%Z).
  { change 1000%Z with (Qfloor (1000 + (1 # 2))). apply Qfloor_resp_le. lra. }
  set (n := Qfloor (q * 10 + (1 # 2))) in *. clearbody n.
  rewrite Zle_Qle in A, B. change (inject_Z 0) with 0 in A.
  change (inject_Z 1000) with 1000 in B.
  assert (E : inject_Z n / 10 == inject_Z n * (1 # 10)) by field.
  split; [rewrite E; split; lra|]. exists n. field.
Qed.

(** X13: what the two percentage fields show is a percentage: when the controls
    are enabled and no field has the focus, each shows a number between 0
    and 100 with one decimal, wherever the layer is; with the aspect ratio
    or the dimensions missing both show N/A; and a field that has the focus
    is left as it is. *)
Theorem displayed_percent_is_in_range (ar : option Q) (dims : option LayerDimensions)
    (t : VideoTransform) (shown : option (Q * Q)) :
  (ready ar dims = None ->
   forall focused, percentDisplayEffect ar dims focused t shown = None) /\
  (ready ar dims <> None ->
   percentDisplayEffect ar dims true t shown = shown /\
   exists lr ud,
     percentDisplayEffect ar dims false t shown = Some (lr, ud) /\
     (0 <= lr <= 100 /\ is_integer (lr * 10)) /\
     (0 <= ud <= 100 /\ is_integer (ud * 10))).
Proof.
  unfold percentDisplayEffect. split.
  - intros -> focused. reflexivity.
  - destruct (ready ar dims) as [[a d]|]; [intros _|intros H; now contradiction H].
    split; [reflexivity|]. eexists _, _. split; [reflexivity|].
    split; apply toFixed1_range, clampPercent_range.
Qed.

Lemma displayed_percent_is_in_range_witness :
  exists lr ud,
    percentDisplayEffect (Some 1) (Some (mkDims 800 600)) false
      (mkTransform (-5000) 9000 400 400 100) None = Some (lr, ud) /\
    0 <= lr <= 100 /\ 0 <= ud <= 100.
Proof.
  destruct (displayed_percent_is_in_range (Some 1) (Some (mkDims 800 600))
              (mkTransform (-5000) 9000 400 400 100) None) as [_ H].
  destruct H as (_ & lr & ud & E & (Hlr & _) & (Hud & _)); [discriminate|].
  exists lr, ud. repeat split; (exact E || apply Hlr || apply Hud).
Defined.








End ControlsExtras.

Section PointerExtras.
Import JS Types Geometry Drag Binary64 Pointer.
Local Open Scope Q_scope.

Lemma Qeq_bool_false (a b : Q) : Qeq_bool a b = false <-> ~ a == b.
Proof. rewrite <- not_true_iff_false, Qeq_bool_iff. reflexivity. Qed.

Lemma getCanvasRelativePos_Some (canvas : CanvasBox) (clientX clientY : Q) :
  ~ rect_width canvas == 0 -> ~ rect_height canvas == 0 ->
  getCanvasRelativePos canvas clientX clientY
  = Some (mkPos (fmul (fsub clientX (rect_left canvas))
                   (fdiv (canvas_width canvas) (rect_width canvas)))
                (fmul (fsub clientY (rect_top canvas))
                   (fdiv (canvas_height canvas) (rect_height canvas)))).
Proof.
  intros Hw Hh. unfold getCanvasRelativePos.
  apply Qeq_bool_false in Hw, Hh. now rewrite Hw, Hh.
Qed.

(** One coordinate of the position: its sign is the side of the edge the
    pointer is on, and it keeps the order of the pointer. *)
Lemma scaled_sign_and_order (c l c' cw rw : Q) :
  0 < rw -> 0 < cw ->
  (l <= c -> 0 <= fmul (fsub c l) (fdiv cw rw)) /\
  (c <= l -> fmul (fsub c l) (fdiv cw rw) <= 0) /\
  (c <= c' -> fmul (fsub c l) (fdiv cw rw) <= fmul (fsub c' l) (fdiv cw rw)).
Proof.
  intros Hr Hc.
  assert (S : 0 <= fdiv cw rw).
  { apply fl_nonneg, Qle_shift_div_l; lra. }
  split; [|split].
  - intros H. apply fl_nonneg, Qmult_le_0_compat; [|exact S]. apply fl_nonneg. lra.
  - intros H. apply fl_nonpos.
    assert (D : fsub c l <= 0) by (apply fl_nonpos; lra).
    assert (E : fsub c l * fdiv cw rw == - (- fsub c l * fdiv cw rw)) by ring.
    rewrite E.
    assert (0 <= - fsub c l * fdiv cw rw) by (apply Qmult_le_0_compat; lra).
    lra.
  - intros H. apply fl_mono, Qmult_le_compat_r; [|exact S]. apply fl_mono. lra.
Qed.

(** One coordinate of the position, for whole numbers of pixels: it is the
    exact scaled offset up to a relative error of [2 ^ -51]. *)
Lemma scaled_accurate (D cw rw : Z) :
  (Z.abs D <= 2 ^ 32)%Z -> (1 <= cw <= 2 ^ 32)%Z -> (1 <= rw <= 2 ^ 32)%Z ->
  Qabs (fmul (inject_Z D) (fdiv (inject_Z cw) (inject_Z rw))
        - inject_Z D * (inject_Z cw / inject_Z rw))
  <= 2 ^ (-51) * Qabs (inject_Z D * (inject_Z cw / inject_Z rw)).
Proof.
  intros HD Hcw Hrw.
  assert (Qcw : 1 <= inject_Z cw) by (change 1 with (inject_Z 1); rewrite <- Zle_Qle; lia).
  assert (Qrw : 1 <= inject_Z rw) by (change 1 with (inject_Z 1); rewrite <- Zle_Qle; lia).
  assert (Qrw' : inject_Z rw <= 4294967296)
    by (change 4294967296 with (inject_Z (2 ^ 32)); rewrite <- Zle_Qle; lia).
  set (s := inject_Z cw / inject_Z rw).
  assert (Hs : (1 # 4294967296) <= s).
  { unfold s. apply Qle_shift_div_l; [lra|].
    apply Qle_trans with 1; [|exact Qcw].
    apply Qle_trans with ((1 # 4294967296) * 4294967296); [|now vm_compute].
    apply Qmult_le_l; [reflexivity | exact Qrw']. }
  assert (P32 : 2 ^ (-1022) <= 1 # 8589934592).
  { change (1 # 8589934592) with (2 ^ (-33)). apply pow2_le. lia. }
  pose proof (fl_error s) as E1. rewrite (Qabs_pos s) in E1 by lra.
  specialize (E1 ltac:(lra)). change (fl s) with (fdiv (inject_Z cw) (inject_Z rw)) in E1.
  set (s' := fdiv (inject_Z cw) (inject_Z rw)) in *.
  change (2 ^ (-53)) with (1 # 9007199254740992) in E1.
  change (2 ^ (-51)) with (1 # 2251799813685248).
  apply Qabs_Qle_condition in E1.
  destruct (Z.eq_dec D 0%Z) as [-> | ND].
  { unfold fmul. rewrite (fl_zero_eq (inject_Z 0 * s')) by ring.
    assert (E : 0 - inject_Z 0 * s == 0) by ring. rewrite E.
    change (Qabs 0) with 0.
    apply Qmult_le_0_compat; [discriminate | apply Qabs_nonneg]. }
  set (d := inject_Z D) in *.
  assert (Hd : 1 <= Qabs d).
  { unfold d. change (Qabs (inject_Z D)) with (inject_Z (Z.abs D)).
    change 1 with (inject_Z 1). rewrite <- Zle_Qle. lia. }
  set (A := Qabs d * s).
  assert (EA : Qabs (d * s) == A) by (rewrite Qabs_Qmult, (Qabs_pos s) by lra; reflexivity).
  assert (HA : 0 <= A) by (unfold A; apply Qmult_le_0_compat; lra).
  (* the product before its rounding *)
  assert (B1 : Qabs (d * s' - d * s) <= (1 # 9007199254740992) * A).
  { assert (E : d * s' - d * s == d * (s' - s)) by ring.
    rewrite E, Qabs_Qmult.
    assert (Qabs (s' - s) <= (1 # 9007199254740992) * s)
      by (apply Qabs_Qle_condition; lra).
    apply Qle_trans with (Qabs d * ((1 # 9007199254740992) * s)).
    - apply Qmult_le_l; lra.
    - unfold A. assert (E' : Qabs d * ((1 # 9007199254740992) * s)
                             == (1 # 9007199254740992) * (Qabs d * s)) by ring.
      rewrite E'. apply Qle_refl. }
  assert (Ep : Qabs (d * s') == Qabs d * s')
    by (rewrite Qabs_Qmult, (Qabs_pos s') by lra; reflexivity).
  assert (B2 : Qabs (d * s') <= A + (1 # 9007199254740992) * A).
  { rewrite Ep. unfold A.
    apply Qle_trans with (Qabs d * (s + (1 # 9007199254740992) * s)).
    - apply Qmult_le_l; lra.
    - assert (E' : Qabs d * (s + (1 # 9007199254740992) * s)
                   == Qabs d * s + (1 # 9007199254740992) * (Qabs d * s)) by ring.
      rewrite E'. apply Qle_refl. }
  assert (B3 : 2 ^ (-1022) <= Qabs (d * s')).
  { rewrite Ep. apply Qle_trans with (1 * s'); [lra|].
    apply Qmult_le_compat_r; lra. }
  pose proof (fl_error (d * s') B3) as E2.
  change (2 ^ (-53)) with (1 # 9007199254740992) in E2.
  change (fl (d * s')) with (fmul d s') in E2.
  assert (T : fmul d s' - d * s == (fmul d s' - d * s') + (d * s' - d * s)) by ring.
  rewrite T. eapply Qle_trans; [apply Qabs_triangle|].
  rewrite EA.
  set (e1 := Qabs (fmul d s' - d * s')) in *.
  set (e2 := Qabs (d * s' - d * s)) in *.
  set (pp := Qabs (d * s')) in *. clearbody e1 e2 pp A.
  lra.
Qed.

(** X16: the position of the pointer on the canvas, as binary64 computes it:
    there is none when the canvas is shown with a width or a height of 0;
    otherwise there is one, the left and the top edge of the rectangle on
    the screen map to 0 and a pointer on either side of an edge maps to that
    side of 0, a pointer further right or further down never maps to a
    smaller coordinate, and for whole numbers of pixels each coordinate is
    the offset from the edge scaled by the ratio of the two sizes, up to a
    relative error of [2 ^ -51] (so the right edge maps to the width of the
    canvas within that error, not exactly). *)
Theorem pointer_position_on_canvas (canvas : CanvasBox) :
  ((rect_width canvas == 0 \/ rect_height canvas == 0) ->
   forall cx cy, getCanvasRelativePos canvas cx cy = None) /\
  (0 < rect_width canvas -> 0 < rect_height canvas ->
   0 < canvas_width canvas -> 0 < canvas_height canvas ->
   forall cx cy,
     exists pos,
       getCanvasRelativePos canvas cx cy = Some pos /\
       (rect_left canvas <= cx -> 0 <= pos_x pos) /\
       (cx <= rect_left canvas -> pos_x pos <= 0) /\
       (rect_top canvas <= cy -> 0 <= pos_y pos) /\
       (cy <= rect_top canvas -> pos_y pos <= 0) /\
       (forall cx' cy' pos',
          getCanvasRelativePos canvas cx' cy' = Some pos' ->
          (cx <= cx' -> pos_x pos <= pos_x pos') /\
          (cy <= cy' -> pos_y pos <= pos_y pos')) /\
       (forall X L cw rw : Z,
          (Z.abs X <= 2 ^ 31)%Z -> (Z.abs L <= 2 ^ 31)%Z ->
          (1 <= cw <= 2 ^ 32)%Z -> (1 <= rw <= 2 ^ 32)%Z ->
          cx == inject_Z X -> rect_left canvas == inject_Z L ->
          canvas_width canvas == inject_Z cw -> rect_width canvas == inject_Z rw ->
          Qabs (pos_x pos - inject_Z (X - L) * (inject_Z cw / inject_Z rw))
          <= 2 ^ (-51) * Qabs (inject_Z (X - L) * (inject_Z cw / inject_Z rw)))).
Proof.
  split.
  - intros H cx cy. unfold getCanvasRelativePos.
    destruct H as [H | H]; apply Qeq_bool_iff in H; rewrite H; [reflexivity|].
    now rewrite orb_true_r.
  - intros Hrw Hrh Hcw Hch cx cy.
    assert (Nw : ~ rect_width canvas == 0) by lra.
    assert (Nh : ~ rect_height canvas == 0) by lra.
    eexists. split; [apply getCanvasRelativePos_Some; assumption|].
    cbn [pos_x pos_y].
    destruct (scaled_sign_and_order cx (rect_left canvas) cx
                (canvas_width canvas) (rect_width canvas) Hrw Hcw) as (X1 & X2 & _).
    destruct (scaled_sign_and_order cy (rect_top canvas) cy
                (canvas_height canvas) (rect_height canvas) Hrh Hch) as (Y1 & Y2 & _).
    split; [exact X1|]. split; [exact X2|]. split; [exact Y1|]. split; [exact Y2|].
    split.
    + intros cx' cy' pos' H.
      rewrite (getCanvasRelativePos_Some _ _ _ Nw Nh) in H. injection H as <-.
      cbn [pos_x pos_y]. split; intros Hle.
      * now apply (scaled_sign_and_order cx (rect_left canvas) cx'
                     (canvas_width canvas) (rect_width canvas) Hrw Hcw).
      * now apply (scaled_sign_and_order cy (rect_top canvas) cy'
                     (canvas_height canvas) (rect_height canvas) Hrh Hch).
    + intros X L cw rw HX HL Hcw' Hrw' EX EL Ecw Erw.
      assert (ED : fsub cx (rect_left canvas) == inject_Z (X - L)).
      { unfold fsub. rewrite EX, EL.
        assert (E : inject_Z X - inject_Z L == inject_Z (X - L)).
        { unfold Zminus. rewrite inject_Z_plus, inject_Z_opp. reflexivity. }
        rewrite E. apply fl_Z. lia. }
      assert (E : fmul (fsub cx (rect_left canvas))
                    (fdiv (canvas_width canvas) (rect_width canvas))
                  == fmul (inject_Z (X - L)) (fdiv (inject_Z cw) (inject_Z rw)))
        by now rewrite ED, Ecw, Erw.
      rewrite E. apply scaled_accurate; lia.
Qed.

Lemma pointer_position_on_canvas_witness :
  exists pos,
    getCanvasRelativePos (mkCanvasBox 800 600 10 20 604 453) 614 170 = Some pos /\
    Qabs (pos_x pos - 604 * (800 / 604)) <= 2 ^ (-51) * Qabs (604 * (800 / 604)).
Proof.
  destruct (pointer_position_on_canvas (mkCanvasBox 800 600 10 20 604 453)) as [_ H].
  destruct (H eq_refl eq_refl eq_refl eq_refl 614 170) as (pos & E & _ & _ & _ & _ & _ & A).
  exists pos. split; [exact E|].
  apply (A 614%Z 10%Z 800%Z 604%Z); try reflexivity; lia.
Defined.

(** While no drag is going on, moves of the mouse leave the transform
    alone and start no drag. *)
Lemma idle_moves (ar : option Q) (dims : option LayerDimensions)
    (canvasRef : option CanvasBox) (top : bool) (moves : list (Q * Q)) :
  forall st t,
    isDragging st = false ->
    snd (fold_left (mouseMove ar dims canvasRef top) moves (st, t)) = t /\
    isDragging (fst (fold_left (mouseMove ar dims canvasRef top) moves (st, t))) = false.
Proof.
  induction moves as [|m moves IH]; intros st t Hst; [now split|].
  cbn [fold_left]. unfold mouseMove at 2 4, handleMouseMove.
  destruct canvasRef as [canvas|]; [|now apply IH].
  rewrite Hst.
  destruct top, (getCanvasRelativePos canvas (fst m) (snd m)); now apply IH.
Qed.

(** While a drag is going on, the transform after some moves is decided by
    the anchor of the drag and the last position alone. *)
Lemma dragging_moves (a : Q) (d : LayerDimensions) (canvas : CanvasBox) (top : bool)
    (anchor : DragStart) (hover : bool) (moves : list (Q * Q)) :
  truthy a = true ->
  ~ rect_width canvas == 0 -> ~ rect_height canvas == 0 ->
  forall t cx cy pos,
    getCanvasRelativePos canvas cx cy = Some pos ->
    let st := mkController true hover (Some anchor) in
    let s := fold_left (mouseMove (Some a) (Some d) (Some canvas) top)
               (moves ++ [(cx, cy)]) (st, t) in
    fst s = st /\
    vt_x (snd s)
    = Math_round (fadd (initialTransformX anchor) (fsub (pos_x pos) (startX anchor))) /\
    vt_y (snd s)
    = Math_round (fadd (initialTransformY anchor) (fsub (pos_y pos) (startY anchor))) /\
    vt_width (snd s) = vt_width t /\ vt_height (snd s) = vt_height t /\
    vt_size (snd s) = vt_size t.
Proof.
  intros Ha Nw Nh.
  assert (Step : forall t c pos,
    getCanvasRelativePos canvas (fst c) (snd c) = Some pos ->
    mouseMove (Some a) (Some d) (Some canvas) top
      (mkController true hover (Some anchor), t) c
    = (mkController true hover (Some anchor),
       mkTransform
         (Math_round (fadd (initialTransformX anchor) (fsub (pos_x pos) (startX anchor))))
         (Math_round (fadd (initialTransformY anchor) (fsub (pos_y pos) (startY anchor))))
         (vt_width t) (vt_height t) (vt_size t))).
  { intros t c pos Hpos. unfold mouseMove, handleMouseMove. cbn [isDragging dragStartRef].
    rewrite Hpos. cbn [handleDragMove pos_x pos_y].
    unfold Geometry64.handleTransformChange. rewrite (ready_Some _ _ Ha). reflexivity. }
  induction moves as [|m moves IH]; intros t cx cy pos Hpos; cbv zeta.
  - cbn [app fold_left]. rewrite (Step t (cx, cy) pos Hpos). cbn. repeat split.
  - cbn [app fold_left].
    rewrite (Step t m _ (getCanvasRelativePos_Some canvas (fst m) (snd m) Nw Nh)).
    destruct (IH (mkTransform
         (Math_round (fadd (initialTransformX anchor)
            (fsub (pos_x (mkPos
               (fmul (fsub (fst m) (rect_left canvas))
                  (fdiv (canvas_width canvas) (rect_width canvas)))
               (fmul (fsub (snd m) (rect_top canvas))
                  (fdiv (canvas_height canvas) (rect_height canvas)))))
               (startX anchor))))
         (Math_round (fadd (initialTransformY anchor)
            (fsub (pos_y (mkPos
               (fmul (fsub (fst m) (rect_left canvas))
                  (fdiv (canvas_width canvas) (rect_width canvas)))
               (fmul (fsub (snd m) (rect_top canvas))
                  (fdiv (canvas_height canvas) (rect_height canvas)))))
               (startY anchor))))
         (vt_width t) (vt_height t) (vt_size t)) cx cy pos Hpos)
      as (E1 & E2 & E3 & E4 & E5 & E6).
    repeat split; assumption.
Qed.

(** A pointer that is back where it was pressed puts an integer coordinate
    back where it was. *)
Lemma back_at_the_press_point (x0 p p0 : Q) :
  p == p0 -> (exists z : Z, (Z.abs z <= 2 ^ 53)%Z /\ x0 == inject_Z z) ->
  Math_round (fadd x0 (fsub p p0)) == x0.
Proof.
  intros Ep (z & Hz & Ex).
  assert (E : fadd x0 (fsub p p0) == x0).
  { unfold fadd, fsub. rewrite (fl_zero_eq (p - p0)) by lra.
    assert (E0 : x0 + 0 == inject_Z z) by lra.
    rewrite E0, Ex. now apply fl_Z. }
  rewrite (Math_round_comp _ _ E). apply Math_round_of_integer. now exists z.
Qed.

(** X17: a drag with the mouse.  Pressing the button over the top layer
    starts a drag and prevents the default action; after any moves the layer
    is at round(x0 + (p - p0)) on each axis, where x0 is its coordinate at
    the press, p0 the position of the press on the canvas and p the position
    of the last move, every operation being the one of binary64, whatever
    way the pointer took; its width, height and size are what they were; a
    pointer that is back where it was pressed puts a layer at integer
    coordinates back where it was; releasing the button ends the drag, and
    moves after that leave the transform alone. *)
Theorem drag_follows_the_pointer (a : Q) (d : LayerDimensions) (canvas : CanvasBox)
    (t : VideoTransform) (cx0 cy0 : Q) (pos0 : Pos) :
  truthy a = true ->
  ~ rect_width canvas == 0 -> ~ rect_height canvas == 0 ->
  getCanvasRelativePos canvas cx0 cy0 = Some pos0 ->
  isPointInTopLayer t pos0 = true ->
  let pressed := handleMouseDown (Some canvas) true t cx0 cy0 idle in
  let move := mouseMove (Some a) (Some d) (Some canvas) true in
  snd pressed = true /\ isDragging (fst pressed) = true /\
  forall moves cx cy pos,
    getCanvasRelativePos canvas cx cy = Some pos ->
    let s := fold_left move (moves ++ [(cx, cy)]) (fst pressed, t) in
    fst s = fst pressed /\
    vt_x (snd s) = Math_round (fadd (vt_x t) (fsub (pos_x pos) (pos_x pos0))) /\
    vt_y (snd s) = Math_round (fadd (vt_y t) (fsub (pos_y pos) (pos_y pos0))) /\
    vt_width (snd s) = vt_width t /\ vt_height (snd s) = vt_height t /\
    vt_size (snd s) = vt_size t /\
    (cx == cx0 -> (exists z : Z, (Z.abs z <= 2 ^ 53)%Z /\ vt_x t == inject_Z z) ->
     vt_x (snd s) == vt_x t) /\
    (cy == cy0 -> (exists z : Z, (Z.abs z <= 2 ^ 53)%Z /\ vt_y t == inject_Z z) ->
     vt_y (snd s) == vt_y t) /\
    handleDragEnd (fst s) = idle /\
    forall later, snd (fold_left move later (handleDragEnd (fst s), snd s)) = snd s.
Proof.
  intros Ha Nw Nh Hpos Hin pressed move.
  assert (Ep : pressed
               = (mkController true false
                    (Some (mkDragStart (pos_x pos0) (pos_y pos0) (vt_x t) (vt_y t))), true)).
  { subst pressed. unfold handleMouseDown. rewrite Hpos. unfold dragStarted, startDrag.
    rewrite Hin. cbn [andb]. unfold handleDragStart. rewrite Hin. reflexivity. }
  rewrite Ep. cbn [fst snd isDragging]. split; [reflexivity|]. split; [reflexivity|].
  intros moves cx cy pos Hp. cbv zeta. subst move.
  destruct (dragging_moves a d canvas true
              (mkDragStart (pos_x pos0) (pos_y pos0) (vt_x t) (vt_y t)) false moves
              Ha Nw Nh t cx cy pos Hp) as (E1 & E2 & E3 & E4 & E5 & E6).
  cbn [initialTransformX initialTransformY startX startY] in E2, E3.
  split; [exact E1|]. split; [exact E2|]. split; [exact E3|].
  split; [exact E4|]. split; [exact E5|]. split; [exact E6|].
  assert (Hxy : (cx == cx0 -> pos_x pos == pos_x pos0) /\
                (cy == cy0 -> pos_y pos == pos_y pos0)).
  { rewrite (getCanvasRelativePos_Some canvas cx0 cy0 Nw Nh) in Hpos.
    rewrite (getCanvasRelativePos_Some canvas cx cy Nw Nh) in Hp.
    injection Hpos as <-. injection Hp as <-. cbn [pos_x pos_y].
    split; intros Ec; now rewrite Ec. }
  split; [|split].
  - intros Ec Hz. rewrite E2. apply back_at_the_press_point; [now apply Hxy | exact Hz].
  - intros Ec Hz. rewrite E3. apply back_at_the_press_point; [now apply Hxy | exact Hz].
  - rewrite E1. split; [reflexivity|].
    intros later. now apply idle_moves.
Qed.

Lemma drag_follows_the_pointer_witness :
  let canvas := mkCanvasBox 800 600 0 0 448 336 in
  let t := mkTransform 200 100 400 400 100 in
  let pressed := handleMouseDown (Some canvas) true t 141 100 idle in
  vt_x (snd (fold_left (mouseMove (Some 1) (Some (mkDims 800 600)) (Some canvas) true)
               ([(160, 100)] ++ [(148, 120)]) (fst pressed, t)))
  = 212.
Proof.
  cbv zeta.
  assert (P0 : getCanvasRelativePos (mkCanvasBox 800 600 0 0 448 336) 141 100
               = Some (mkPos (fmul (fsub 141 0) (fdiv 800 448)) (fmul (fsub 100 0) (fdiv 600 336))))
    by reflexivity.
  assert (P : getCanvasRelativePos (mkCanvasBox 800 600 0 0 448 336) 148 120
              = Some (mkPos (fmul (fsub 148 0) (fdiv 800 448)) (fmul (fsub 120 0) (fdiv 600 336))))
    by reflexivity.
  destruct (drag_follows_the_pointer 1 (mkDims 800 600) (mkCanvasBox 800 600 0 0 448 336)
              (mkTransform 200 100 400 400 100) 141 100 _ eq_refl
              ltac:(discriminate) ltac:(discriminate) P0 ltac:(now vm_compute))
    as (_ & _ & H).
  destruct (H [(160, 100)] 148 120 _ P) as (_ & Hx & _).
  rewrite Hx. now vm_compute.
Defined.

(** X18: a press that starts no drag.  With no top layer, or with the pointer
    off the layer, or with a canvas shown at size 0, pressing the button
    changes nothing and does not prevent the default action, and the moves
    that follow leave the transform alone; a move then sets the hover flag
    exactly when there is a top layer and the pointer is over it, and the
    cursor is grab in that case and default otherwise. *)
Theorem press_off_the_layer_starts_nothing (ar : option Q) (dims : option LayerDimensions)
    (canvasRef : option CanvasBox) (top : bool) (t : VideoTransform) (cx cy : Q) :
  (canvasRef = None \/
   (exists canvas, canvasRef = Some canvas /\
      (getCanvasRelativePos canvas cx cy = None \/
       exists pos, getCanvasRelativePos canvas cx cy = Some pos /\
                   (top = false \/ isPointInTopLayer t pos = false))) ->
   handleMouseDown canvasRef top t cx cy idle = (idle, false) /\
   forall moves, snd (fold_left (mouseMove ar dims canvasRef top) moves (idle, t)) = t) /\
  (forall canvas pos,
     canvasRef = Some canvas -> getCanvasRelativePos canvas cx cy = Some pos ->
     let st := fst (handleMouseMove canvasRef top t cx cy idle) in
     isHovering st = top && isPointInTopLayer t pos /\
     cursor st = (if top && isPointInTopLayer t pos then "grab" else "default")%string).
Proof.
  split.
  - intros H. split; [|intros moves; now apply idle_moves].
    unfold handleMouseDown.
    destruct H as [-> | (canvas & -> & [-> | (pos & -> & H)])]; try reflexivity.
    unfold dragStarted. destruct H as [-> | ->]; [reflexivity|]. now rewrite andb_false_r.
  - intros canvas pos -> Hpos st. subst st. unfold handleMouseMove. rewrite Hpos.
    cbn [isDragging idle]. destruct top; cbn [fst isHovering andb cursor isDragging].
    + split; [reflexivity|]. unfold cursor. cbn. now destruct (isPointInTopLayer t pos).
    + split; reflexivity.
Qed.

Lemma press_off_the_layer_starts_nothing_witness :
  handleMouseDown (Some (mkCanvasBox 800 600 0 0 400 300)) true
    (mkTransform 200 100 400 400 100) 10 10 idle = (idle, false).
Proof.
  destruct (press_off_the_layer_starts_nothing None None
              (Some (mkCanvasBox 800 600 0 0 400 300)) true
              (mkTransform 200 100 400 400 100) 10 10) as [H _].
  apply H. right. eexists. split; [reflexivity|]. right. eexists. split; [reflexivity|].
  right. reflexivity.
Defined.

(** X19: a drag with a finger goes by the first touch point and moves the layer
    as the mouse does; an event with no touch point changes nothing, and so
    does a move of a finger while no drag is going on. *)
Theorem touch_drag_follows_first_finger (ar : option Q) (dims : option LayerDimensions)
    (canvasRef : option CanvasBox) (top : bool) (st : Controller) (t : VideoTransform) :
  handleTouchStart canvasRef top t [] st = (st, false) /\
  touchMove ar dims canvasRef (st, t) [] = (st, t) /\
  (forall cx cy more,
     handleTouchStart canvasRef top t ((cx, cy) :: more) st
     = handleMouseDown canvasRef top t cx cy st) /\
  (forall cx cy more,
     isDragging st = true ->
     touchMove ar dims canvasRef (st, t) ((cx, cy) :: more)
     = mouseMove ar dims canvasRef top (st, t) (cx, cy)) /\
  (forall touches,
     isDragging st = false -> touchMove ar dims canvasRef (st, t) touches = (st, t)).
Proof.
  split; [now destruct canvasRef|]. split; [now destruct canvasRef|].
  split; [intros cx cy more; now destruct canvasRef|]. split.
  - intros cx cy more Hd. unfold touchMove, mouseMove, handleTouchMove, handleMouseMove.
    cbn [fst snd]. destruct canvasRef as [canvas|]; [|reflexivity]. now rewrite Hd.
  - intros touches Hd. unfold touchMove, handleTouchMove.
    destruct canvasRef as [canvas|], touches as [|[cx cy] more]; try reflexivity.
    unfold handleDragMove. now rewrite Hd.
Qed.

Lemma touch_drag_follows_first_finger_witness :
  touchMove (Some 1) (Some (mkDims 800 600)) (Some (mkCanvasBox 800 600 0 0 400 300))
    (mkController true false (Some (mkDragStart 300 200 200 100)),
     mkTransform 200 100 400 400 100) [(175, 120); (0, 0)]
  = mouseMove (Some 1) (Some (mkDims 800 600)) (Some (mkCanvasBox 800 600 0 0 400 300)) true
      (mkController true false (Some (mkDragStart 300 200 200 100)),
       mkTransform 200 100 400 400 100) (175, 120).
Proof.
  exact (proj1 (proj2 (proj2 (proj2
           (touch_drag_follows_first_finger (Some 1) (Some (mkDims 800 600))
              (Some (mkCanvasBox 800 600 0 0 400 300)) true
              (mkController true false (Some (mkDragStart 300 200 200 100)))
              (mkTransform 200 100 400 400 100)))))
           175 120 [(0, 0)] eq_refl).
Defined.

End PointerExtras.

Section RecordingExtras.
Import Recording RecordingSession.

Lemma isSafari_unfold (ua : string) :
  isSafari ua
  = if startsWithIgnoringCase "safari" ua then true
    else match ua with
         | EmptyString => false
         | String c rest =>
             if startsWithIgnoringCase "chrome" ua
                || startsWithIgnoringCase "android" ua
                || isLineTerminator c
             then false
             else isSafari rest
         end.
Proof. destruct ua; reflexivity. Qed.

(** X20: the test for Safari holds exactly when the word safari stands (in
    any case) at some position of the user agent such that no position
    before it starts the word chrome or android or holds a line end. *)
Theorem isSafari_iff_safari_before_chrome (ua : string) :
  isSafari ua = true <-> exists n, safariAt ua n.
Proof.
  induction ua as [|c rest IH].
  - split; [discriminate|]. intros (n & H & _). destruct n; discriminate H.
  - rewrite isSafari_unfold.
    destruct (startsWithIgnoringCase "safari" (String c rest)) eqn:Es.
    + split; [|reflexivity]. intros _. exists 0%nat. split; [exact Es|]. intros i Hi. lia.
    + destruct (startsWithIgnoringCase "chrome" (String c rest)) eqn:Ec;
      [|destruct (startsWithIgnoringCase "android" (String c rest)) eqn:Ea;
        [|destruct (isLineTerminator c) eqn:El]]; cbn [orb].
      1-3: split; [discriminate|]; intros ([|n] & H & Hall);
        [cbn [skip] in H; congruence
        |destruct (Hall 0%nat ltac:(lia)) as (c' & rest' & E & H1 & H2 & H3);
         cbn [skip] in E, H2, H3; injection E as <- <-; congruence].
      rewrite IH. split.
      * intros (n & H & Hall). exists (S n). split; [exact H|].
        intros [|i] Hi.
        -- exists c, rest. cbn [skip]. repeat split; assumption.
        -- apply (Hall i). lia.
      * intros ([|n] & H & Hall); [cbn [skip] in H; congruence|].
        exists n. split; [exact H|]. intros i Hi. apply (Hall (S i)). lia.
Qed.

Lemma ondataavailable_chunks (chunks : list Chunk) (app : App) :
  let app' := fold_left (fun a c => ondataavailable c a) chunks app in
  recordedChunksRef app' = recordedChunksRef app ++ kept chunks /\
  isRecording app' = isRecording app /\
  bottomVideoRef app' = bottomVideoRef app /\
  topVideoRef app' = topVideoRef app /\
  mediaRecorderRef app' = mediaRecorderRef app /\
  alerts app' = alerts app /\
  warnings app' = warnings app /\
  downloads app' = downloads app.
Proof.
  cbv zeta. revert app. induction chunks as [|c chunks IH]; intros app.
  - cbn. rewrite app_nil_r. repeat split.
  - cbn [fold_left]. destruct (IH (ondataavailable c app)) as (E1 & E2 & E3 & E4 & E5 & E6 & E7 & E8).
    rewrite E1, E2, E3, E4, E5, E6, E7, E8. cbn.
    repeat split. unfold kept. cbn [List.filter].
    destruct (0 <? chunkSize c); [now rewrite <- app_assoc | reflexivity].
Qed.

Lemma connectAudio_warned (vs : list VideoElement) (hasAudio : bool) (warned : list string) :
  snd (fold_left connectOne vs (hasAudio, warned))
  = warned ++ map audioWarning (List.filter audioFails vs).
Proof.
  revert hasAudio warned. induction vs as [|v vs IH]; intros hasAudio warned.
  - cbn. now rewrite app_nil_r.
  - cbn [fold_left List.filter]. unfold connectOne at 2, audioFails at 1.
    destruct (0 <? readyState v), (capturable v); cbn [andb negb map]; rewrite IH;
      try reflexivity.
    now rewrite <- app_assoc.
Qed.

Lemma filter_audioFails_setMuted (m : bool) (vs : list VideoElement) :
  map audioWarning (List.filter audioFails (map (setMuted m) vs))
  = map audioWarning (List.filter audioFails vs).
Proof.
  induction vs as [|v vs IH]; [reflexivity|].
  change (map (setMuted m) (v :: vs)) with (setMuted m v :: map (setMuted m) vs).
  change (List.filter audioFails (setMuted m v :: map (setMuted m) vs))
    with (if audioFails v then setMuted m v :: List.filter audioFails (map (setMuted m) vs)
          else List.filter audioFails (map (setMuted m) vs)).
  change (List.filter audioFails (v :: vs))
    with (if audioFails v then v :: List.filter audioFails vs else List.filter audioFails vs).
  destruct (audioFails v); [|exact IH].
  change (audioWarning v :: map audioWarning (List.filter audioFails (map (setMuted m) vs))
          = audioWarning v :: map audioWarning (List.filter audioFails vs)).
  now rewrite IH.
Qed.

Lemma stop_active_recorder (app : App) (recorder : MediaRecorder) :
  mediaRecorderRef app = Some recorder -> active recorder = true ->
  let stopped := handleStopRecording app in
  downloads stopped
  = downloads app
    ++ [mkDownload ("videyo_export." ++ extensionString (extension (recorderType recorder)))
          (recorderMimeType recorder) (recordedChunksRef app)] /\
  isRecording stopped = false /\
  mediaRecorderRef stopped
  = Some (mkRecorder (stream recorder) (recorderMimeType recorder)
            (recorderType recorder) false) /\
  videoElements stopped = map (setMuted true) (videoElements app) /\
  alerts stopped = alerts app.
Proof.
  intros Hr Ha. cbv zeta. unfold handleStopRecording. rewrite Hr, Ha.
  repeat split. unfold videoElements. cbn.
  destruct (bottomVideoRef app), (topVideoRef app); reflexivity.
Qed.

Lemma started_videoElements (browser : Browser) (app : App) (type : MimeType) :
  find (fun type => isTypeSupported browser (mimeType type))
    (typesToCheck (isSafari (userAgent browser))) = Some type ->
  videoElements (handleStartRecording true browser app)
  = map (fun v => restart (setMuted false v)) (videoElements app).
Proof.
  intros Hfind. unfold handleStartRecording. cbn [negb].
  destruct (connectAudio _) as [hasAudio warned].
  unfold getSupportedMimeType. rewrite Hfind.
  destruct (candidate_types_named _ _ (proj1 (find_some _ _ Hfind))) as [(c & rest & ->) _].
  unfold videoElements, forEachVideo. cbn.
  destruct (bottomVideoRef app), (topVideoRef app); reflexivity.
Qed.

(** X21: one recording, from the start to the download.  When the browser
    supports a candidate type, a start followed by any chunks and a stop adds
    exactly one download: its parts are the chunks of this recording that
    are not empty, in the order they came, and nothing that was held before
    the start; its type is the type recorded with.  After the stop the page
    is not recording, the recorder is inactive, every video element is muted
    again and no alert was raised. *)
Theorem recording_downloads_its_own_chunks (browser : Browser) (app : App)
    (type : MimeType) (chunks : list Chunk) :
  find (fun type => isTypeSupported browser (mimeType type))
    (typesToCheck (isSafari (userAgent browser))) = Some type ->
  let started := handleStartRecording true browser app in
  let stopped :=
    handleStopRecording (fold_left (fun a c => ondataavailable c a) chunks started) in
  downloads stopped
  = downloads app
    ++ [mkDownload ("videyo_export." ++ extensionString (extension type))
          (mimeType type) (kept chunks)] /\
  isRecording stopped = false /\
  (exists recorder, mediaRecorderRef stopped = Some recorder /\ active recorder = false) /\
  Forall (fun v => muted v = true) (videoElements stopped) /\
  length (videoElements stopped) = length (videoElements app) /\
  alerts stopped = alerts app.
Proof.
  intros Hfind started stopped.
  destruct (start_with_supported_type browser app type Hfind)
    as (Hrec & Hrecorder & Hchunks & Halerts & Hdl).
  fold started in Hrec, Hrecorder, Hchunks, Halerts, Hdl.
  pose proof (started_videoElements browser app type Hfind) as Hv. fold started in Hv.
  destruct (ondataavailable_chunks chunks started) as (E1 & E2 & E3 & E4 & E5 & E6 & E7 & E8).
  subst stopped. set (fed := fold_left _ chunks started) in *.
  rewrite Hrecorder in E5.
  destruct (stop_active_recorder fed _ E5 eq_refl) as (S1 & S2 & S3 & S4 & S5).
  cbn [recorderType recorderMimeType stream] in S1, S3.
  assert (Hfed : videoElements fed = videoElements started).
  { unfold videoElements. now rewrite E3, E4. }
  split; [rewrite S1, E8, Hdl, E1, Hchunks; reflexivity|].
  split; [exact S2|].
  split; [eexists; split; [exact S3|reflexivity]|].
  split; [|split].
  - rewrite S4. apply List.Forall_forall. intros v Hin.
    apply in_map_iff in Hin. destruct Hin as (u & <- & _). reflexivity.
  - rewrite S4, Hfed, Hv. now rewrite !length_map.
  - now rewrite S5, E6.
Qed.

Lemma recording_downloads_its_own_chunks_witness :
  downloads
    (handleStopRecording
       (fold_left (fun a c => ondataavailable c a)
          [mkChunk 10 0; mkChunk 0 1; mkChunk 7 2]
          (handleStartRecording true
             (mkBrowser Scenarios.chromeUserAgent Scenarios.onlyMp4 [0%nat])
             Scenarios.twoVideos)))
  = [mkDownload "videyo_export.mp4" "video/mp4" [mkChunk 10 0; mkChunk 7 2]].
Proof.
  exact (proj1 (recording_downloads_its_own_chunks
                  (mkBrowser Scenarios.chromeUserAgent Scenarios.onlyMp4 [0%nat])
                  Scenarios.twoVideos (mkType "video/mp4" mp4)
                  [mkChunk 10 0; mkChunk 0 1; mkChunk 7 2] eq_refl)).
Defined.

(** X22: what a start does to the video elements.  Without a canvas the
    start changes nothing.  With one, a warning is logged for each element
    that is ready but whose audio cannot be connected, in the order bottom,
    top, and for no other; and when a candidate type is supported every
    video element is left unmuted, looping and rewound to 0, and the
    recording starts with no chunk held. *)
Theorem start_prepares_the_videos (browser : Browser) (app : App) :
  handleStartRecording false browser app = app /\
  (let started := handleStartRecording true browser app in
   warnings started
   = warnings app ++ map audioWarning (List.filter audioFails (videoElements app)) /\
   map src (videoElements started) = map src (videoElements app) /\
   forall type,
     find (fun type => isTypeSupported browser (mimeType type))
       (typesToCheck (isSafari (userAgent browser))) = Some type ->
     Forall (fun v => muted v = false /\ loop v = true /\ currentTime v = 0%Q)
       (videoElements started) /\
     recordedChunksRef started = []).
Proof.
  split; [reflexivity|]. cbv zeta.
  unfold handleStartRecording. cbn [negb].
  pose proof (connectAudio_warned (videoElements (forEachVideo (setMuted false) app)) false [])
    as Hw.
  fold (connectAudio (videoElements (forEachVideo (setMuted false) app))) in Hw.
  destruct (connectAudio _) as [hasAudio warned]. cbn [snd] in Hw. rewrite app_nil_l in Hw.
  rewrite videoElements_forEachVideo, filter_audioFails_setMuted in Hw. subst warned.
  destruct (mimeType (getSupportedMimeType _ _)) eqn:Em.
  - cbn [warnings forEachVideo]. split; [reflexivity|]. split.
    + unfold videoElements. cbn.
      destruct (bottomVideoRef app), (topVideoRef app); reflexivity.
    + intros type Hfind. exfalso. unfold getSupportedMimeType in Em. rewrite Hfind in Em.
      destruct (candidate_types_named _ _ (proj1 (find_some _ _ Hfind))) as [(c & rest & E) _].
      congruence.
  - cbn [warnings forEachVideo]. split; [reflexivity|]. split.
    + unfold videoElements. cbn.
      destruct (bottomVideoRef app), (topVideoRef app); reflexivity.
    + intros type _. split; [|reflexivity].
      unfold videoElements. cbn.
      destruct (bottomVideoRef app), (topVideoRef app); cbn; repeat constructor.
Qed.

Lemma start_prepares_the_videos_witness :
  warnings (handleStartRecording true
              (mkBrowser Scenarios.chromeUserAgent Scenarios.onlyMp4 [0%nat])
              Scenarios.twoVideos)
  = ["Could not process audio for video blob:bottom:"%string].
Proof.
  exact (proj1 (proj2 (start_prepares_the_videos
                         (mkBrowser Scenarios.chromeUserAgent Scenarios.onlyMp4 [0%nat])
                         Scenarios.twoVideos))).
Defined.

End RecordingExtras.

Section UploadExtras.
Import JS Types Geometry Uploads.
Local Open Scope Q_scope.

Lemma In_revokeObjectURL (url u : nat) (urls : list nat) :
  In u (revokeObjectURL url urls) <-> In u urls /\ u <> url.
Proof.
  unfold revokeObjectURL. rewrite filter_In. rewrite negb_true_iff, Nat.eqb_neq. tauto.
Qed.

Lemma NoDup_revokeCurrent (ref : option nat) (urls : list nat) :
  List.NoDup urls -> List.NoDup (revokeCurrent ref urls).
Proof. destruct ref; [apply List.NoDup_filter | trivial]. Qed.

Lemma In_revokeCurrent (ref : option nat) (u : nat) (urls : list nat) :
  In u (revokeCurrent ref urls) <-> In u urls /\ ref <> Some u.
Proof.
  destruct ref as [url|]; cbn [revokeCurrent].
  - rewrite In_revokeObjectURL. split; intros [H1 H2]; (split; [exact H1|congruence]).
  - split; [intros H; split; [exact H|discriminate] | tauto].
Qed.

Lemma NoDup_snoc_fresh (urls : list nat) (n : nat) :
  List.NoDup urls -> (forall u, In u urls -> (u < n)%nat) -> List.NoDup (urls ++ [n]).
Proof.
  intros Hn Hf. apply List.NoDup_app; [exact Hn | |].
  - constructor; [intros []|constructor].
  - intros u Hu [E|[]]. specialize (Hf u Hu). lia.
Qed.

Lemma tidy_initialPage : tidy initialPage.
Proof.
  constructor; cbn; try reflexivity; try constructor; try tauto; try discriminate.
  intros [H|H]; discriminate H.
Qed.

Lemma tidy_handleFileUpload (type : string) (layer : LayerName) (st : Page) :
  tidy st -> tidy (handleFileUpload type layer st).
Proof.
  intros [Hlive Hnd Hapart Hfresh Hb Ht]. unfold handleFileUpload.
  destruct (fileTypeOf type) as [ft|]; [|constructor; assumption].
  assert (Hnd' : List.NoDup (objectUrls st ++ [created st])) by now apply NoDup_snoc_fresh.
  assert (Hnew : forall u, In u (objectUrls st ++ [created st])
                           <-> In u (objectUrls st) \/ u = created st).
  { intros u. rewrite in_app_iff. cbn [In]. intuition congruence. }
  assert (Hold : forall u, bottomLayerUrlRef st = Some u \/ topLayerUrlRef st = Some u ->
                           (u < created st)%nat).
  { intros u H. now apply Hfresh, Hlive. }
  destruct layer; constructor;
    cbn [bottomLayerUrl topLayerUrl bottomLayerUrlRef topLayerUrlRef created objectUrls];
    try reflexivity; try assumption;
    try (now apply NoDup_revokeCurrent).
  - intros u. rewrite In_revokeCurrent, Hnew, Hlive. split.
    + intros [[[H|H]|H] Hne]; [contradiction|now right|left; now f_equal].
    + intros [H|H].
      * injection H as <-. split; [now right|]. intros E. specialize (Hold _ (or_introl E)). lia.
      * split; [left; now right|]. intros E. exact (Hapart _ E H).
  - intros u E H. injection E as <-. specialize (Hold _ (or_intror H)). lia.
  - intros u H. apply In_revokeCurrent in H. destruct H as [H _].
    apply Hnew in H. destruct H as [H| ->]; [specialize (Hfresh u H)|]; lia.
  - intros u. rewrite In_revokeCurrent, Hnew, Hlive. split.
    + intros [[[H|H]|H] Hne]; [now left|contradiction|right; now f_equal].
    + intros [H|H].
      * split; [left; now left|]. intros E. exact (Hapart _ H E).
      * injection H as <-. split; [now right|]. intros E. specialize (Hold _ (or_intror E)). lia.
  - intros u H E. injection E as <-. specialize (Hold _ (or_introl H)). lia.
  - intros u H. apply In_revokeCurrent in H. destruct H as [H _].
    apply Hnew in H. destruct H as [H| ->]; [specialize (Hfresh u H)|]; lia.
Qed.

Lemma tidy_uploadAll (uploads : list (string * LayerName)) (st : Page) :
  tidy st -> tidy (uploadAll uploads st).
Proof.
  revert st. induction uploads as [|u uploads IH]; intros st H; [exact H|].
  apply IH. now apply tidy_handleFileUpload.
Qed.

Lemma created_uploadAll (uploads : list (string * LayerName)) (st : Page) :
  created (uploadAll uploads st)
  = (created st + length (List.filter (fun u => accepted (fst u)) uploads))%nat.
Proof.
  revert st. induction uploads as [|u uploads IH]; intros st; [cbn; lia|].
  unfold uploadAll in *. cbn [fold_left List.filter]. rewrite IH.
  unfold handleFileUpload, accepted. destruct (fileTypeOf (fst u)) as [ft|].
  - destruct (snd u); cbn; lia.
  - reflexivity.
Qed.

(** X23: object URLs do not pile up.  After any run of uploads on a fresh
    page the object URLs that are live are exactly the ones the page shows
    (one for each layer that has had a file, the one uploaded last for it):
    every URL that was replaced has been revoked, none is revoked that is
    still shown, and of all the URLs created at most two are live.  The
    cleanup at unmount revokes what is left. *)
Theorem object_urls_do_not_pile_up (uploads : list (string * LayerName)) :
  let st := uploadAll uploads initialPage in
  (forall u, In u (objectUrls st) <-> bottomLayerUrl st = Some u \/ topLayerUrl st = Some u) /\
  List.NoDup (objectUrls st) /\
  (length (objectUrls st) <= 2)%nat /\
  created st
  = length (List.filter (fun u => accepted (fst u)) uploads) /\
  objectUrls (unmount st) = [] /\
  bottomLayerUrlRef (unmount st) = None /\ topLayerUrlRef (unmount st) = None.
Proof.
  intros st.
  destruct (tidy_uploadAll uploads initialPage tidy_initialPage)
    as [Hlive Hnd Hapart Hfresh Hb Ht].
  fold st in Hlive, Hnd, Hapart, Hfresh, Hb, Ht.
  split; [intros u; now rewrite Hb, Ht|].
  split; [exact Hnd|]. split; [|split; [|split; [|split; reflexivity]]].
  - assert (Hincl : incl (objectUrls st)
                      (option_list (bottomLayerUrlRef st) ++ option_list (topLayerUrlRef st))).
    { intros u Hu. apply Hlive in Hu. apply in_app_iff.
      destruct Hu as [-> | ->]; [left|right]; now left. }
    pose proof (List.NoDup_incl_length Hnd Hincl) as L.
    rewrite length_app in L.
    destruct (bottomLayerUrlRef st), (topLayerUrlRef st); cbn in L; lia.
  - subst st. now rewrite created_uploadAll.
  - cbn [unmount objectUrls].
    destruct (revokeCurrent (topLayerUrlRef st)
                (revokeCurrent (bottomLayerUrlRef st) (objectUrls st))) as [|u l] eqn:E;
      [reflexivity|].
    assert (Hu : In u (u :: l)) by now left.
    rewrite <- E in Hu. apply In_revokeCurrent in Hu. destruct Hu as [Hu N2].
    apply In_revokeCurrent in Hu. destruct Hu as [Hu N1].
    apply Hlive in Hu. tauto.
Qed.

(** X24: an upload resets its own layer and no other.  A file that is
    neither an image nor a video raises the alert and changes nothing else.
    A file for the bottom layer forgets the dimensions of the surface, one
    for the top layer forgets the aspect ratio, and each leaves the other
    layer as it is; either way the preview is not ready and the controls are
    off until the new file has loaded, and an update of the transform that
    arrives in between is dropped. *)
Theorem upload_resets_its_own_layer (type : string) (st : Page) :
  (fileTypeOf type = None ->
   forall layer,
     let st' := handleFileUpload type layer st in
     alerts st' = alerts st ++ ["Unsupported file type. Please upload an image or video."%string] /\
     bottomLayerUrl st' = bottomLayerUrl st /\ topLayerUrl st' = topLayerUrl st /\
     bottomLayerType st' = bottomLayerType st /\ topLayerType st' = topLayerType st /\
     bottomLayerDimensions st' = bottomLayerDimensions st /\
     topLayerAspectRatio st' = topLayerAspectRatio st /\
     objectUrls st' = objectUrls st /\
     isPreviewReady st' = isPreviewReady st) /\
  (forall fileType,
     fileTypeOf type = Some fileType ->
     (let st' := handleFileUpload type bottom st in
      bottomLayerType st' = Some fileType /\ bottomLayerDimensions st' = None /\
      topLayerUrl st' = topLayerUrl st /\ topLayerType st' = topLayerType st /\
      topLayerAspectRatio st' = topLayerAspectRatio st /\ alerts st' = alerts st) /\
     (let st' := handleFileUpload type top st in
      topLayerType st' = Some fileType /\ topLayerAspectRatio st' = None /\
      bottomLayerUrl st' = bottomLayerUrl st /\ bottomLayerType st' = bottomLayerType st /\
      bottomLayerDimensions st' = bottomLayerDimensions st /\ alerts st' = alerts st) /\
     forall layer,
       let st' := handleFileUpload type layer st in
       isPreviewReady st' = false /\ controlsEnabled st' = false /\
       forall p t,
         handleTransformChange (topLayerAspectRatio st') (bottomLayerDimensions st') p t = t).
Proof.
  split.
  - intros E layer. cbv zeta. unfold handleFileUpload. rewrite E. repeat split.
  - intros fileType E. unfold handleFileUpload. rewrite E. cbv zeta.
    split; [repeat split|]. split; [repeat split|].
    intros [|]; unfold isPreviewReady, controlsEnabled, handleTransformChange, ready;
      cbn [bottomLayerUrl topLayerUrl topLayerAspectRatio bottomLayerDimensions].
    + repeat split. destruct (topLayerUrl st), (topLayerAspectRatio st); reflexivity.
      destruct (topLayerAspectRatio st); reflexivity.
    + repeat split. destruct (bottomLayerUrl st); reflexivity.
      destruct (bottomLayerDimensions st); reflexivity.
Qed.

Lemma upload_resets_its_own_layer_witness :
  isPreviewReady
    (handleFileUpload "video/mp4" bottom
       (mkPage (Some 0%nat) (Some 1%nat) (Some image) (Some image)
          (Some (mkDims 800 600)) (Some 1) (Some 0%nat) (Some 1%nat) 2 [0%nat; 1%nat] []))
  = false.
Proof.
  exact (proj1 (proj2 (proj2 (proj2
           (upload_resets_its_own_layer "video/mp4"
              (mkPage (Some 0%nat) (Some 1%nat) (Some image) (Some image)
                 (Some (mkDims 800 600)) (Some 1) (Some 0%nat) (Some 1%nat) 2 [0%nat; 1%nat] []))
           video eq_refl)) bottom)).
Defined.

End UploadExtras.
